(** * photorganize: the planning and dry-run engine of [photorganize.py]

    A shallow embedding of the [Photo], [Command], [UserPrompter] and
    [Organizer] classes, and the properties of the planner, of the
    simulated file system and of the run controller.

    Python objects that are mutated after they are shared ([Photo], whose
    [hashes] cache grows on demand) live in a heap and are passed around by
    reference; everything the program does to the outside world (prompts,
    file reads, real file-system commands) is threaded through one state
    and exception monad. *)

From Stdlib Require Import ZArith Ascii String DecimalString.
From stdpp Require Import base option list strings gmap.

Set Warnings "-clear-no-such-hyp".


Local Open Scope string_scope.
Local Open Scope list_scope.
Local Open Scope Z_scope.

(** ** pathlib (POSIX flavour)

    A [Path] is absolute and normalised: the list of its components below
    the root.  Two paths are equal when their components are. *)

Module Pathlib.

Definition Path : Type := list string.

(** [Path(p, s)] for a single component [s]. *)
Definition joinpath (p : Path) (s : string) : Path := p ++ [s].

(** [p.name]: the final component. *)
Definition name (p : Path) : string := List.last p EmptyString.

(** [len(p.parents)]: the number of ancestors. *)
Definition parents_len (p : Path) : nat := length p.

(** [p.parent] *)
Definition parent (p : Path) : Path := List.removelast p.

(** [s.rfind(c)], with [None] for -1. *)
Fixpoint rfind (c : ascii) (s : string) : option nat :=
  match s with
  | EmptyString => None
  | String a s' =>
      match rfind c s' with
      | Some i => Some (S i)
      | None => if Ascii.eqb a c then Some 0%nat else None
      end
  end.

(** [s.split(c)] *)
Fixpoint split (c : ascii) (s : string) : list string :=
  match s with
  | EmptyString => [EmptyString]
  | String a s' =>
      if Ascii.eqb a c then EmptyString :: split c s'
      else match split c s' with
           | hd :: tl => String a hd :: tl
           | [] => [String a EmptyString]
           end
  end.

(** [s.lstrip(c)] *)
Fixpoint lstrip (c : ascii) (s : string) : string :=
  match s with
  | EmptyString => EmptyString
  | String a s' => if Ascii.eqb a c then lstrip c s' else s
  end.

(** [s.endswith(c)] *)
Fixpoint endswith (c : ascii) (s : string) : bool :=
  match s with
  | EmptyString => false
  | String a EmptyString => Ascii.eqb a c
  | String _ s' => endswith c s'
  end.

(** [p.suffix]: the last dot of the name and what follows it, unless the
    dot is the first or the last character. *)
Definition suffix (p : Path) : string :=
  let n := name p in
  match rfind "." n with
  | Some i =>
      if ((0 <? i) && (i <? String.length n - 1))%nat
      then substring i (String.length n - i) n
      else EmptyString
  | None => EmptyString
  end.

(** [p.stem]: the name without its suffix. *)
Definition stem (p : Path) : string :=
  let n := name p in
  match rfind "." n with
  | Some i =>
      if ((0 <? i) && (i <? String.length n - 1))%nat
      then substring 0 i n
      else n
  | None => n
  end.

(** [p.suffixes] *)
Definition suffixes (p : Path) : list string :=
  let n := name p in
  if endswith "." n then []
  else (fun s => String "." s) <$> List.tl (split "." (lstrip "." n)).

(** [s.lower()] on ASCII letters. *)
Definition lower_ascii (a : ascii) : ascii :=
  let n := nat_of_ascii a in
  if ((65 <=? n) && (n <=? 90))%nat then ascii_of_nat (n + 32) else a.

Fixpoint lower (s : string) : string :=
  match s with
  | EmptyString => EmptyString
  | String a s' => String (lower_ascii a) (lower s')
  end.

End Pathlib.
Import Pathlib.

(** ** Exceptions and the state monad *)

Inductive exn : Type :=
  | FileExistsError
  | FileNotFoundError
  | IsADirectoryError
  | NotADirectoryError
  | ValueError
  | KeyError
  | EOFError
  | SystemExit (msg : string).

Inductive Res (A : Type) : Type :=
  | Ok (a : A)
  | Raise (e : exn).
Arguments Ok {A} a.
Arguments Raise {A} e.

(** A computation over a mutable state [S]: its outcome and the state it
    leaves behind, also when it raises. *)
Definition M (S A : Type) : Type := S → Res A * S.

Definition ret {S A} (a : A) : M S A := λ s, (Ok a, s).
Definition raise {S A} (e : exn) : M S A := λ s, (Raise e, s).
Definition bind {S A B} (m : M S A) (k : A → M S B) : M S B :=
  λ s, match m s with
       | (Ok a, s') => k a s'
       | (Raise e, s') => (Raise e, s')
       end.
Definition gets {S A} (f : S → A) : M S A := λ s, (Ok (f s), s).
Definition modify {S} (f : S → S) : M S unit := λ s, (Ok tt, f s).

Notation "x <- m ;; k" := (bind m (λ x, k))
  (at level 63, m at next level, right associativity).
Notation "m ;;; k" := (bind m (λ _, k))
  (at level 63, right associativity).

(** [for x in xs: body x] *)
Fixpoint forM_ {S A} (xs : list A) (body : A → M S unit) : M S unit :=
  match xs with
  | [] => ret tt
  | x :: xs' => body x ;;; forM_ xs' body
  end.

(** A loop that carries its local variables from one iteration to the next. *)
Fixpoint foldM {S A B} (body : B → A → M S B) (acc : B) (xs : list A) : M S B :=
  match xs with
  | [] => ret acc
  | x :: xs' => acc' <- body acc x ;; foldM body acc' xs'
  end.

(** ** Commands and their simulation (class [Command] and its subclasses) *)

Inductive Command : Type :=
  | MakeDirectory (directory : Path)
  | Move (source dest : Path)
  | Remove (target : Path).

Global Instance Command_eq_dec : EqDecision Command.
Proof. solve_decision. Defined.

(** The simulacrum is a Python list of paths. *)
Definition Simulacrum : Type := list Path.

(** [x in simulacrum] *)
Definition contains (x : Path) : M Simulacrum bool :=
  gets (λ s, bool_decide (x ∈ s)).

(** [simulacrum.append(x)] *)
Definition append (x : Path) : M Simulacrum unit :=
  modify (λ s, s ++ [x]).

(** What [list.remove] leaves: the list without the first occurrence. *)
Fixpoint remove_first (x : Path) (s : Simulacrum) : Simulacrum :=
  match s with
  | [] => []
  | y :: s' => if decide (x = y) then s' else y :: remove_first x s'
  end.

(** [simulacrum.remove(x)]: raises [ValueError] when [x] is not there. *)
Definition remove (x : Path) : M Simulacrum unit :=
  λ s, if bool_decide (x ∈ s) then (Ok tt, remove_first x s)
       else (Raise ValueError, s).

Definition MakeDirectory_simulate (directory : Path) : M Simulacrum unit :=
  present <- contains directory ;;
  if present then raise FileExistsError
  else append directory.

Definition Move_simulate (source dest : Path) : M Simulacrum unit :=
  src_present <- contains source ;;
  if negb src_present then raise FileNotFoundError
  else
    dst_present <- contains dest ;;
    if dst_present then raise FileExistsError
    else append dest ;;; remove source.

Definition Remove_simulate (target : Path) : M Simulacrum unit :=
  present <- contains target ;;
  if negb present then raise FileNotFoundError
  else if (length (suffixes target) =? 0)%nat then raise IsADirectoryError
  else remove target.

Definition simulate (cmd : Command) : M Simulacrum unit :=
  match cmd with
  | MakeDirectory d => MakeDirectory_simulate d
  | Move s d => Move_simulate s d
  | Remove t => Remove_simulate t
  end.

(** [Organizer.simulate]'s loop: [for cmd in self.commands: cmd.simulate(simulacrum)] *)
Definition simulate_all (cmds : list Command) : M Simulacrum unit :=
  forM_ cmds simulate.

(** ** Dates and times

    [datetime.datetime] values are naive (no time zone), as the ones the
    program builds from [strptime], from a modification time and from the
    file names it writes itself. *)

Record datetime : Type := mk_datetime {
  year : Z; month : Z; day : Z;
  hour : Z; minute : Z; second : Z; microsecond : Z
}.

Global Instance datetime_eq_dec : EqDecision datetime.
Proof. solve_decision. Defined.

Definition datetime_key (d : datetime) : list Z :=
  [year d; month d; day d; hour d; minute d; second d; microsecond d].

(** Component-wise comparison, most significant first. *)
Fixpoint lex_ltb (a b : list Z) : bool :=
  match a, b with
  | x :: a', y :: b' =>
      if x <? y then true else if x =? y then lex_ltb a' b' else false
  | [], _ :: _ => true
  | _, [] => false
  end.

(** [d1 < d2] *)
Definition datetime_ltb (d1 d2 : datetime) : bool :=
  lex_ltb (datetime_key d1) (datetime_key d2).

(** [datetime.datetime.min] *)
Definition datetime_min : datetime := mk_datetime 1 1 1 0 0 0 0.

(** Decimal digits of [n], padded with zeros on the left to [width]
    characters ([f'{n:0width}']). *)
Definition zpad (width : nat) (n : Z) : string :=
  let digits := NilZero.string_of_uint (N.to_uint (Z.to_N n)) in
  String.concat EmptyString (replicate (width - String.length digits) "0") +:+ digits.

(** [d.isoformat(sep=' ', timespec='seconds')] *)
Definition isoformat (d : datetime) : string :=
  zpad 4 (year d) +:+ "-" +:+ zpad 2 (month d) +:+ "-" +:+ zpad 2 (day d)
  +:+ " " +:+ zpad 2 (hour d) +:+ ":" +:+ zpad 2 (minute d) +:+ ":" +:+ zpad 2 (second d).

(** [datetime.date]; the planner only builds first days of months. *)
Record date : Type := mk_date { d_year : Z; d_month : Z; d_day : Z }.

Global Instance date_eq_dec : EqDecision date.
Proof. solve_decision. Defined.

(** [month.strftime("%Y-%m")], the year written with four digits. *)
Definition strftime_Ym (m : date) : string :=
  zpad 4 (d_year m) +:+ "-" +:+ zpad 2 (d_month m).

(** ** The libraries the program calls

    Parsing of time stamps and hashing are the standard library's; the
    development is parametric in them.  Both parsers return naive times,
    and every algorithm has a digest. *)

Class Platform : Type := {
  (** [datetime.datetime.fromisoformat(s)], [None] for [ValueError] *)
  fromisoformat : string → option datetime;
  (** [datetime.datetime.strptime(s, "%Y:%m:%d %H:%M:%S")], [None] for [ValueError] *)
  strptime : string → option datetime;
  (** [hashlib.new(algorithm, data).hexdigest()] *)
  hexdigest : string → string → string
}.

(** ** The file system

    A tree of directories and regular files.  The order of a directory's
    entries is the order in which [iterdir] yields them.  There are no
    symbolic links: [resolve()] leaves an absolute path as it is. *)

Record FileData : Type := mk_file {
  st_size : Z;
  (** [datetime.datetime.fromtimestamp(stat.st_mtime)] *)
  st_mtime : datetime;
  (** the bytes [f.read()] returns *)
  content : string;
  (** what [Image.open(path).getexif()] yields, with the tags decoded through
      [TAGS] and their values strings: [None] when Pillow raises
      [UnidentifiedImageError] *)
  image_exif : option (list (string * string))
}.

#[warnings="-register-all"]
Inductive Node : Type :=
  | File (f : FileData)
  | Dir (entries : list (string * Node)).

Fixpoint find_entry (nm : string) (es : list (string * Node)) : option Node :=
  match es with
  | [] => None
  | (nm', n) :: es' => if decide (nm = nm') then Some n else find_entry nm es'
  end.

Fixpoint fs_lookup (root : Node) (p : Path) : option Node :=
  match p with
  | [] => Some root
  | c :: p' =>
      match root with
      | Dir es =>
          match find_entry c es with
          | Some n => fs_lookup n p'
          | None => None
          end
      | File _ => None
      end
  end.

Definition fs_exists (root : Node) (p : Path) : bool :=
  match fs_lookup root p with Some _ => true | None => false end.

Definition fs_is_dir (root : Node) (p : Path) : bool :=
  match fs_lookup root p with Some (Dir _) => true | _ => false end.

Definition fs_is_file (root : Node) (p : Path) : bool :=
  match fs_lookup root p with Some (File _) => true | _ => false end.

(** ** Photos *)

Inductive datetime_source : Type := Mtime | Filename | Exif | User.

Global Instance datetime_source_eq_dec : EqDecision datetime_source.
Proof. solve_decision. Defined.

Record Photo : Type := mk_photo {
  p_path : Path;
  p_size : Z;
  p_hashes : gmap string string;
  p_datetime : datetime;
  p_datetime_src : datetime_source;
  p_exif : gmap string string
}.

Global Instance Photo_inhabited : Inhabited Photo :=
  populate (mk_photo [] 0 ∅ datetime_min Mtime ∅).

Definition set_hashes (h : gmap string string) (p : Photo) : Photo :=
  mk_photo (p_path p) (p_size p) h (p_datetime p) (p_datetime_src p) (p_exif p).

Definition set_datetime (d : datetime) (src : datetime_source) (p : Photo) : Photo :=
  mk_photo (p_path p) (p_size p) (p_hashes p) d src (p_exif p).

(** [Photo.__lt__] *)
Definition Photo_lt (self other : Photo) : bool :=
  if negb (bool_decide (p_datetime self = p_datetime other)) then
    datetime_ltb (p_datetime self) (p_datetime other)
  else if negb (parents_len (p_path self) =? parents_len (p_path other))%nat then
    (parents_len (p_path other) <? parents_len (p_path self))%nat
  else String.ltb (name (p_path self)) (name (p_path other)).

(** A reference to a [Photo] object: its index in the heap. *)
Abbreviation ref := nat (only parsing).

(** What the program does that can be observed from outside. *)
Inductive Event : Type :=
  | EvRead (photo : ref) (algorithm : string) (* the file of [photo] is read and hashed *)
  | EvPromptDatetime (photo : ref)            (* [prompter.datetime_uncertain(photo)] *)
  | EvPromptDuplicate (original duplicate : ref) (* [prompter.duplicate_found(..)] *)
  | EvExecute (cmd : Command).                (* [cmd.execute()] *)

Global Instance Event_eq_dec : EqDecision Event.
Proof. solve_decision. Defined.

Record World : Type := mk_world {
  fs : Node;                  (* the real file system *)
  heap : list Photo;          (* the [Photo] objects *)
  stdin : list string;        (* the lines [input()] will return *)
  commands : list Command;    (* [Organizer.commands] *)
  trace : list Event          (* the events so far, oldest first *)
}.

Definition set_fs (f : Node) (w : World) : World :=
  mk_world f (heap w) (stdin w) (commands w) (trace w).
Definition set_heap (h : list Photo) (w : World) : World :=
  mk_world (fs w) h (stdin w) (commands w) (trace w).
Definition set_stdin (i : list string) (w : World) : World :=
  mk_world (fs w) (heap w) i (commands w) (trace w).
Definition set_commands (c : list Command) (w : World) : World :=
  mk_world (fs w) (heap w) (stdin w) c (trace w).
Definition set_trace (t : list Event) (w : World) : World :=
  mk_world (fs w) (heap w) (stdin w) (commands w) t.

Definition emit (e : Event) : M World unit :=
  modify (λ w, set_trace (trace w ++ [e]) w).

(** [self.commands.append(cmd)] *)
Definition commands_append (cmd : Command) : M World unit :=
  modify (λ w, set_commands (commands w ++ [cmd]) w).

Definition get_photo (r : ref) : M World Photo :=
  gets (λ w, heap w !!! r).

Definition update_photo (r : ref) (f : Photo → Photo) : M World unit :=
  modify (λ w, set_heap (<[r := f (heap w !!! r)]> (heap w)) w).

(** A new object. *)
Definition alloc (p : Photo) : M World ref :=
  λ w, (Ok (length (heap w)), set_heap (heap w ++ [p]) w).

Section Program.
Context {PF : Platform}.

(** *** [Photo.__init__] *)

(** [for tag, value in img_exif.items(): self.exif[decoded] = value] *)
Definition exif_of_items (items : list (string * string)) : gmap string string :=
  foldl (λ m kv, <[kv.1 := kv.2]> m) ∅ items.


Definition Photo_new (path : Path) (f : FileData) : Photo :=
  let init := mk_photo path (st_size f) ∅ (st_mtime f) Mtime ∅ in
  let named :=
    if (String.length (stem path) =? 23)%nat then
      match fromisoformat (substring 0 (String.length (stem path) - 4) (stem path)) with
      | Some d => set_datetime d Filename init
      | None => init
      end
    else init in
  match image_exif f with
  | None => named
  | Some items =>
      let ex := exif_of_items items in
      let tagged := mk_photo (p_path named) (p_size named) (p_hashes named)
                             (p_datetime named) (p_datetime_src named) ex in
      let datetime_str :=
        match ex !! "DateTimeOriginal" with
        | Some s => Some s
        | None =>
            match ex !! "DateTimeDigitized" with
            | Some s => Some s
            | None => ex !! "DateTime"
            end
        end in
      match datetime_str with
      | None => tagged
      | Some s =>
          match strptime s with
          | Some d => set_datetime d Exif tagged
          | None => tagged
          end
      end
  end.

(** [self.path.stat()], then the rest of the constructor.  A photo is only
    ever built for an entry that [is_file()]; on a directory [Image.open]
    raises. *)
Definition Photo_init (path : Path) : M World ref :=
  node <- gets (λ w, fs_lookup (fs w) path) ;;
  match node with
  | Some (File f) => alloc (Photo_new path f)
  | Some (Dir _) => raise IsADirectoryError
  | None => raise FileNotFoundError
  end.

(** *** [Photo.get_hash] and [Photo.is_duplicate_of] *)

(** [with open(path, 'rb') as f: d = f.read()] *)
Definition read_file (path : Path) : M World string :=
  node <- gets (λ w, fs_lookup (fs w) path) ;;
  match node with
  | Some (File f) => ret (content f)
  | Some (Dir _) => raise IsADirectoryError
  | None => raise FileNotFoundError
  end.

Definition get_hash (self : ref) (hash_algorithm : string) : M World string :=
  photo <- get_photo self ;;
  (if bool_decide (p_hashes photo !! hash_algorithm = None) then
     d <- read_file (p_path photo) ;;
     emit (EvRead self hash_algorithm) ;;;
     update_photo self
       (λ p, set_hashes (<[hash_algorithm := hexdigest hash_algorithm d]> (p_hashes p)) p)
   else ret tt) ;;;
  photo <- get_photo self ;;
  match p_hashes photo !! hash_algorithm with
  | Some h => ret h
  | None => raise KeyError
  end.

Definition is_duplicate_of (self other : ref) (hash_algorithm : string) : M World bool :=
  a <- get_photo self ;;
  b <- get_photo other ;;
  if negb (p_size a =? p_size b) then ret false
  else
    h1 <- get_hash self hash_algorithm ;;
    h2 <- get_hash other hash_algorithm ;;
    ret (bool_decide (h1 = h2)).

(** *** [UserPrompter] *)

Record UserPrompter : Type := mk_prompter {
  assume : option string
}.

(** [UserPrompter.__init__] *)
Definition UserPrompter_init (assume : option string) : UserPrompter :=
  mk_prompter (lower <$> assume).

(** [answer in choices], for an answer that may be [None]. *)
Definition answer_in (answer : option string) (choices : list string) : bool :=
  match answer with
  | Some a => bool_decide (a ∈ choices)
  | None => false
  end.

(** The [while] loop of [datetime_uncertain].  Every iteration that does not
    leave the loop takes at least one line from the input, so the loop is
    written by recursion on the lines still to come; [input()] at the end of
    the input raises [EOFError]. *)
Fixpoint datetime_uncertain_loop (photo : ref) (answer : option string)
    (lines : list string) (w : World) {struct lines} : Res (option string) * World :=
  if answer_in answer ["k"; "i"; "a"] then (Ok answer, set_stdin lines w)
  else
    match lines with
    | [] => (Raise EOFError, set_stdin [] w)
    | line :: lines' =>
        let answer := lower line in
        if bool_decide (answer = "i") then
          match lines' with
          | [] => (Raise EOFError, set_stdin [] w)
          | datetime_input :: lines'' =>
              match fromisoformat datetime_input with
              | Some d =>
                  datetime_uncertain_loop photo (Some answer) lines''
                    (set_heap (<[photo := set_datetime d User (heap w !!! photo)]> (heap w)) w)
              | None => datetime_uncertain_loop photo None lines'' w
              end
          end
        else datetime_uncertain_loop photo (Some answer) lines' w
    end.

Definition datetime_uncertain (self : UserPrompter) (photo : ref) : M World unit :=
  emit (EvPromptDatetime photo) ;;;
  answer <- (λ w, datetime_uncertain_loop photo (assume self) (stdin w) w) ;;
  if bool_decide (answer = Some "a")
  then raise (SystemExit "Photo's datetime uncertain. Aborted.")
  else ret tt.

(** The [while] loop of [duplicate_found]. *)
Fixpoint duplicate_found_loop (answer : option string) (lines : list string)
    : Res (option string) * list string :=
  if answer_in answer ["k"; "d"; "a"] then (Ok answer, lines)
  else
    match lines with
    | [] => (Raise EOFError, [])
    | line :: lines' => duplicate_found_loop (Some (lower line)) lines'
    end.

Definition duplicate_found (self : UserPrompter) (original duplicate : ref)
    : M World (option Command) :=
  emit (EvPromptDuplicate original duplicate) ;;;
  answer <- (λ w, let '(r, lines) := duplicate_found_loop (assume self) (stdin w) in
                  (r, set_stdin lines w)) ;;
  if bool_decide (answer = Some "k") then ret None
  else if bool_decide (answer = Some "d") then
    dup <- get_photo duplicate ;;
    ret (Some (Remove (p_path dup)))
  else if bool_decide (answer = Some "a") then
    raise (SystemExit "Duplicate found. Aborted.")
  else ret None.

(** *** [Organizer]

    The [Broadcaster] only prints, and only when asked to be verbose; it is
    left out. *)

Record Organizer : Type := mk_organizer {
  o_path : Path;
  hash_algorithm : string;
  extentions : list string;
  prompter : UserPrompter
}.

(** Python dictionaries, in insertion order. *)
Definition dict (K V : Type) : Type := list (K * V).

Section Dict.
Context {K V : Type} `{EqDecision K}.

Fixpoint dict_get (k : K) (d : dict K V) : option V :=
  match d with
  | [] => None
  | (k', v) :: d' => if decide (k = k') then Some v else dict_get k d'
  end.

(** [d[k] = v] *)
Fixpoint dict_set (k : K) (v : V) (d : dict K V) : dict K V :=
  match d with
  | [] => [(k, v)]
  | (k', v') :: d' =>
      if decide (k = k') then (k, v) :: d' else (k', v') :: dict_set k v d'
  end.

Definition dict_keys (d : dict K V) : list K := d.*1.
End Dict.

(** [d[k]] *)
Definition dict_getitem {S K V} `{EqDecision K} (k : K) (d : dict K V) : M S V :=
  match dict_get k d with
  | Some v => ret v
  | None => raise KeyError
  end.

(** [d.setdefault(k, list()).append(x)] *)
Definition setdefault_append {K A} `{EqDecision K} (k : K) (x : A)
    (d : dict K (list A)) : dict K (list A) :=
  match dict_get k d with
  | Some l => dict_set k (l ++ [x]) d
  | None => d ++ [(k, [x])]
  end.

(** [list.sort()]: stable, and it only ever asks [x < y]. *)
Fixpoint insert_sorted {A} (lt : A → A → bool) (x : A) (l : list A) : list A :=
  match l with
  | [] => [x]
  | y :: l' => if lt x y then x :: l else y :: insert_sorted lt x l'
  end.

Definition list_sort {A} (lt : A → A → bool) (l : list A) : list A :=
  foldl (λ acc x, insert_sorted lt x acc) [] l.

Definition iterdir (p : Path) : M World (list Path) :=
  node <- gets (λ w, fs_lookup (fs w) p) ;;
  match node with
  | Some (Dir es) => ret ((λ e, joinpath p e.1) <$> es)
  | Some (File _) => raise NotADirectoryError
  | None => raise FileNotFoundError
  end.

Definition is_dir (p : Path) : M World bool := gets (λ w, fs_is_dir (fs w) p).
Definition is_file (p : Path) : M World bool := gets (λ w, fs_is_file (fs w) p).

(** [child.suffix.lower() in self.extentions] *)
Definition has_extention (self : Organizer) (child : Path) : bool :=
  bool_decide (lower (suffix child) ∈ extentions self).

(** [datetime.date(photo.datetime.year, photo.datetime.month, 1)] *)
Definition photo_month (d : datetime) : date := mk_date (year d) (month d) 1.

(** [photo = Photo(child)], then the prompt for a time that does not come
    from the metadata (lines 332-336 and 352-356). *)
Definition found_photo (self : Organizer) (child : Path) : M World ref :=
  photo <- Photo_init child ;;
  p <- get_photo photo ;;
  (if negb (bool_decide (p_datetime_src p = Exif))
   then datetime_uncertain (prompter self) photo
   else ret tt) ;;;
  ret photo.

(** "find photos and dirs in path" (lines 324-338); the loop carries
    [dirs] and [disorganized_photos]. *)
Definition find_photos (self : Organizer) : M World (list Path * dict date (list ref)) :=
  children <- iterdir (o_path self) ;;
  foldM (λ (acc : list Path * dict date (list ref)) child,
           let '(dirs, disorganized_photos) := acc in
           d <- is_dir child ;;
           if d then ret (dirs ++ [child], disorganized_photos)
           else
             f <- is_file child ;;
             if f && has_extention self child then
               photo <- found_photo self child ;;
               p <- get_photo photo ;;
               ret (dirs, setdefault_append (photo_month (p_datetime p)) photo disorganized_photos)
             else ret (dirs, disorganized_photos))
        ([], []) children.

(** "check if there's existing dirs for the disorganised photos"
    (lines 341-357); the loops carry [organized_photos]. *)
Definition check_existing_dirs (self : Organizer) (dirs : list Path)
    (disorganized_photos : dict date (list ref)) : M World (dict date (list ref)) :=
  foldM (λ (organized_photos : dict date (list ref)) month,
           let month_str := strftime_Ym month in
           let organized_photos := dict_set month [] organized_photos in
           if negb (bool_decide (joinpath (o_path self) month_str ∈ dirs)) then
             commands_append (MakeDirectory (joinpath (o_path self) month_str)) ;;;
             ret organized_photos
           else
             children <- iterdir (joinpath (o_path self) month_str) ;;
             foldM (λ (organized_photos : dict date (list ref)) child,
                      f <- is_file child ;;
                      if f && has_extention self child then
                        photo <- found_photo self child ;;
                        l <- dict_getitem month organized_photos ;;
                        ret (dict_set month (l ++ [photo]) organized_photos)
                      else ret organized_photos)
                   organized_photos children)
        [] (dict_keys disorganized_photos).

(** One of the two inner loops of the duplicate check (lines 367-374 and
    377-384, which have the same body): compare [photo] with [others] in
    turn and stop at the first duplicate.  The result says whether the loop
    has set [photo_is_duplicate]. *)
Fixpoint find_duplicate (self : Organizer) (photo : ref) (others : list ref) : M World bool :=
  match others with
  | [] => ret false
  | other :: others' =>
      dup <- is_duplicate_of photo other (hash_algorithm self) ;;
      if dup then
        remove_cmd <- duplicate_found (prompter self) other photo ;;
        match remove_cmd with
        | Some cmd => commands_append cmd
        | None => ret tt
        end ;;;
        ret true
      else find_duplicate self photo others'
  end.

(** The body of [for i, photo in enumerate(photos_for_month)] (lines 363-387). *)
Definition check_photo (self : Organizer) (organized_photos : dict date (list ref))
    (month : date) (photos_for_month : list ref)
    (unique_photos : dict date (list ref)) (i : nat) (photo : ref)
    : M World (dict date (list ref)) :=
  organized <- dict_getitem month organized_photos ;;
  in_organized <- find_duplicate self photo organized ;;
  in_disorganized <- find_duplicate self photo (take i photos_for_month) ;;
  let photo_is_duplicate := in_organized || in_disorganized in
  if negb photo_is_duplicate
  then ret (setdefault_append month photo unique_photos)
  else ret unique_photos.

(** "check for duplicates, keep only those that are unique" (lines 360-387). *)
Definition check_duplicates (self : Organizer)
    (disorganized_photos organized_photos : dict date (list ref))
    : M World (dict date (list ref)) :=
  foldM (λ (unique_photos : dict date (list ref)) (entry : date * list ref),
           let '(month, photos_for_month) := entry in
           foldM (λ unique_photos (ip : nat * ref),
                    check_photo self organized_photos month photos_for_month
                                unique_photos ip.1 ip.2)
                 unique_photos (imap (λ i photo, (i, photo)) photos_for_month))
        [] disorganized_photos.

(** [photos.sort()], which compares the objects behind the references. *)
Definition sort_photos (photos : list ref) : M World (list ref) :=
  gets (λ w, list_sort (λ a b, Photo_lt (heap w !!! a) (heap w !!! b)) photos).

(** "merge and order lists" (lines 390-392). *)
Definition merge_and_order (organized_photos unique_photos : dict date (list ref))
    : M World (dict date (list ref)) :=
  foldM (λ (unique_photos : dict date (list ref)) month,
           l <- dict_getitem month unique_photos ;;
           organized <- dict_getitem month organized_photos ;;
           sorted <- sort_photos (l ++ organized) ;;
           ret (dict_set month sorted unique_photos))
        unique_photos (dict_keys unique_photos).

(** The destination of a photo (line 410). *)
Definition destination (self : Organizer) (month : date)
    (photo_datetime_formatted : string) (n : Z) (photo : Photo) : Path :=
  o_path self ++ [strftime_Ym month;
                  photo_datetime_formatted +:+ " " +:+ zpad 3 n +:+ suffix (p_path photo)].

(** The body of [for photo in photos_for_month] (lines 400-414); the loop
    carries [n] and [last_datetime_formatted]. *)
Definition prepare_move (self : Organizer) (month : date) (acc : Z * string) (photo : ref)
    : M World (Z * string) :=
  let '(n, last_datetime_formatted) := acc in
  p <- get_photo photo ;;
  let photo_datetime_formatted := isoformat (p_datetime p) in
  let '(n, last_datetime_formatted) :=
    if bool_decide (last_datetime_formatted = photo_datetime_formatted)
    then (n + 1, last_datetime_formatted)
    else (1, photo_datetime_formatted) in
  let dest := destination self month photo_datetime_formatted n p in
  (if bool_decide (dest = p_path p) then ret tt
   else commands_append (Move (p_path p) dest)) ;;;
  ret (n, last_datetime_formatted).

(** "prepare move commands" (lines 395-414). *)
Definition prepare_moves (self : Organizer) (unique_photos : dict date (list ref))
    : M World unit :=
  forM_ unique_photos (λ entry,
    let '(month, photos_for_month) := entry in
    foldM (prepare_move self month) (1, isoformat datetime_min) photos_for_month ;;;
    ret tt).

(** [Organizer.prepare] *)
Definition prepare (self : Organizer) : M World unit :=
  found <- find_photos self ;;
  let '(dirs, disorganized_photos) := found in
  organized_photos <- check_existing_dirs self dirs disorganized_photos ;;
  unique_photos <- check_duplicates self disorganized_photos organized_photos ;;
  unique_photos <- merge_and_order organized_photos unique_photos ;;
  prepare_moves self unique_photos.

(** *** [Organizer.simulate] *)

(** [Organizer._create_simulacrum], by recursion on the directory tree: for
    every child in turn, the child, and for a directory what is below it. *)
Fixpoint create_simulacrum_node (path : Path) (node : Node) : Simulacrum :=
  match node with
  | File _ => []
  | Dir entries =>
      (fix children (es : list (string * Node)) : Simulacrum :=
         match es with
         | [] => []
         | (nm, child) :: es' =>
             let child_path := joinpath path nm in
             let below :=
               match child with
               | Dir _ => create_simulacrum_node child_path child
               | File _ => []
               end in
             child_path :: below ++ children es'
         end) entries
  end.

Definition create_simulacrum (path : Path) : M World Simulacrum :=
  node <- gets (λ w, fs_lookup (fs w) path) ;;
  match node with
  | Some (Dir es) => ret (create_simulacrum_node path (Dir es))
  | Some (File _) => raise NotADirectoryError
  | None => raise FileNotFoundError
  end.

(** Run a computation on a local object that is dropped afterwards. *)
Definition with_local {S A} (m : M S A) (s : S) : M World A :=
  λ w, ((m s).1, w).

Definition Organizer_simulate (self : Organizer) : M World unit :=
  simulacrum <- create_simulacrum (o_path self) ;;
  cmds <- gets commands ;;
  with_local (simulate_all cmds) simulacrum.

(** *** [Command.execute], on the real file system *)

Fixpoint replace_entry (nm : string) (n : Node) (es : list (string * Node))
    : list (string * Node) :=
  match es with
  | [] => []
  | (nm', n') :: es' =>
      if decide (nm = nm') then (nm, n) :: es' else (nm', n') :: replace_entry nm n es'
  end.

Fixpoint delete_entry (nm : string) (es : list (string * Node)) : list (string * Node) :=
  match es with
  | [] => []
  | (nm', n') :: es' =>
      if decide (nm = nm') then es' else (nm', n') :: delete_entry nm es'
  end.

(** Change the entries of the directory at [p]; [None] when there is no such
    directory. *)
Fixpoint fs_update (root : Node) (p : Path)
    (f : list (string * Node) → list (string * Node)) {struct p} : option Node :=
  match root with
  | File _ => None
  | Dir es =>
      match p with
      | [] => Some (Dir (f es))
      | c :: p' =>
          match find_entry c es with
          | Some n =>
              match fs_update n p' f with
              | Some n' => Some (Dir (replace_entry c n' es))
              | None => None
              end
          | None => None
          end
      end
  end.

(** An operating-system call that changes the directory [dir], and fails
    with [FileNotFoundError] when [dir] is not a directory. *)
Definition os_update (dir : Path) (f : list (string * Node) → list (string * Node))
    : M World unit :=
  root <- gets fs ;;
  match fs_update root dir f with
  | Some root' => modify (set_fs root')
  | None => raise FileNotFoundError
  end.

(** [p.exists()] *)
Definition exists_ (p : Path) : M World bool := gets (λ w, fs_exists (fs w) p).

(** [directory.mkdir()] *)
Definition mkdir (directory : Path) : M World unit :=
  os_update (parent directory) (λ es, es ++ [(name directory, Dir [])]).

(** [target.unlink()] *)
Definition unlink (target : Path) : M World unit :=
  os_update (parent target) (delete_entry (name target)).

(** [source.rename(dest)] *)
Definition rename (source dest : Path) : M World unit :=
  node <- gets (λ w, fs_lookup (fs w) source) ;;
  match node with
  | None => raise FileNotFoundError
  | Some n =>
      root <- gets fs ;;
      match fs_update root (parent source) (delete_entry (name source)) with
      | None => raise FileNotFoundError
      | Some root' =>
          match fs_update root' (parent dest) (λ es, es ++ [(name dest, n)]) with
          | None => raise FileNotFoundError
          | Some root'' => modify (set_fs root'')
          end
      end
  end.

Definition MakeDirectory_execute (directory : Path) : M World unit :=
  present <- exists_ directory ;;
  if present then raise FileExistsError
  else mkdir directory.

Definition Move_execute (source dest : Path) : M World unit :=
  src_present <- exists_ source ;;
  if negb src_present then raise FileNotFoundError
  else
    dst_present <- exists_ dest ;;
    if dst_present then raise FileExistsError
    else rename source dest.

Definition Remove_execute (target : Path) : M World unit :=
  present <- exists_ target ;;
  if negb present then raise FileNotFoundError
  else
    d <- is_dir target ;;
    if d then raise IsADirectoryError
    else unlink target.

Definition execute (cmd : Command) : M World unit :=
  emit (EvExecute cmd) ;;;
  match cmd with
  | MakeDirectory d => MakeDirectory_execute d
  | Move s d => Move_execute s d
  | Remove t => Remove_execute t
  end.

Definition Organizer_execute (self : Organizer) : M World unit :=
  cmds <- gets commands ;;
  forM_ cmds execute.

(** *** [Organizer.run] *)

Definition run (self : Organizer) (simulate_only : bool) : M World unit :=
  prepare self ;;;
  cmds <- gets commands ;;
  if (length cmds =? 0)%nat then ret tt
  else
    Organizer_simulate self ;;;
    if negb simulate_only then Organizer_execute self
    else ret tt.

End Program.

(** [Organizer.__init__], for a [path] that is absolute and resolved. *)
Definition Organizer_init (path : Path) (extentions : option (list string))
    (assume : option string) (hash_algorithm : string) : Organizer :=
  mk_organizer path hash_algorithm
    (default [".jpg"; ".jpeg"; ".png"; ".gif"] extentions)
    (UserPrompter_init assume).

(** The state in which a fresh organizer starts: no photo objects, no
    commands, nothing done yet. *)
Definition initial_world (root : Node) (input : list string) : World :=
  mk_world root [] input [] [].

(** ** A concrete platform and concrete directories, for running the model *)

Module Demo.

Definition digit (a : ascii) : option Z :=
  let n := nat_of_ascii a in
  if ((48 <=? n) && (n <=? 57))%nat then Some (Z.of_nat (n - 48)) else None.

(** The number written by the digits [cs]. *)
Definition number (cs : list ascii) : option Z :=
  foldl (λ acc c, n ← acc; d ← digit c; Some (10 * n + d)) (Some 0) cs.

Definition in_range (lo hi : Z) (n : Z) : option Z :=
  if (lo <=? n) && (n <=? hi) then Some n else None.

(** A time stamp of exactly the shape [YYYY?MM?DD HH:MM:SS], the two
    question marks being [sep]. *)
Definition parse_timestamp (sep : ascii) (s : string) : option datetime :=
  match list_ascii_of_string s with
  | [y1; y2; y3; y4; s1; m1; m2; s2; d1; d2; s3; h1; h2; s4; n1; n2; s5; c1; c2] =>
      if bool_decide ([s1; s2; s3; s4; s5] = [sep; sep; " "; ":"; ":"]%char) then
        y ← number [y1; y2; y3; y4] ≫= in_range 1 9999;
        m ← number [m1; m2] ≫= in_range 1 12;
        d ← number [d1; d2] ≫= in_range 1 31;
        h ← number [h1; h2] ≫= in_range 0 23;
        n ← number [n1; n2] ≫= in_range 0 59;
        c ← number [c1; c2] ≫= in_range 0 59;
        Some (mk_datetime y m d h n c 0)
      else None
  | _ => None
  end.

(** Both parsers accept the one shape the program itself writes and
    nothing else; the digest keeps the whole content, so that equal
    digests mean equal contents. *)
Global Instance platform : Platform := {|
  fromisoformat := parse_timestamp "-";
  strptime := parse_timestamp ":";
  hexdigest := λ algorithm data, algorithm +:+ ":" +:+ data
|}.

(** An image with the given content and capture time in its metadata,
    last modified on 2024-01-01. *)
Definition image_file (data : string) (taken : string) : FileData :=
  mk_file (Z.of_nat (String.length data)) (mk_datetime 2024 1 1 0 0 0 0) data
          (Some [("DateTimeOriginal", taken)]).

Definition image (data : string) (taken : string) : Node :=
  File (image_file data taken).

Definition target : Path := ["photos"].

Definition organizer (assume : option string) : Organizer :=
  Organizer_init target None assume "sha256".

(** The state after [prepare], and after [run]. *)
Definition planned (root : Node) (assume : option string) : Res unit * World :=
  prepare (organizer assume) (initial_world root []).

Definition ran (root : Node) (assume : option string) : Res unit * World :=
  run (organizer assume) false (initial_world root []).

(** A month directory whose only photo carries the name of another moment,
    and a new photo taken at that moment. *)
Definition root_conflict : Node :=
  Dir [("photos", Dir [
    ("2023-05", Dir [("2023-05-01 10:00:00 001.jpg", image "BBB" "2023:05:02 09:00:00")]);
    ("img002.jpg", image "AAAA" "2023:05:01 10:00:00")])].

(** Two copies of one picture, listed [b.jpg] first. *)
Definition root_listing : Node :=
  Dir [("photos", Dir [
    ("b.jpg", image "AAAA" "2023:05:01 10:00:00");
    ("a.jpg", image "AAAA" "2023:05:01 10:00:00")])].

(** The state in which the duplicate check of [root_listing] starts. *)
Definition listing_world : World :=
  mk_world root_listing
           [Photo_new ["photos"; "b.jpg"] (image_file "AAAA" "2023:05:01 10:00:00");
            Photo_new ["photos"; "a.jpg"] (image_file "AAAA" "2023:05:01 10:00:00")]
           [] [MakeDirectory ["photos"; "2023-05"]] [].

(** One picture three times: in the month directory and twice outside. *)
Definition root_three_copies : Node :=
  Dir [("photos", Dir [
    ("2023-05", Dir [("2023-05-01 10:00:00 001.jpg", image "AAAA" "2023:05:01 10:00:00")]);
    ("a.jpg", image "AAAA" "2023:05:01 10:00:00");
    ("b.jpg", image "AAAA" "2023:05:01 10:00:00")])].

(** Three different pictures taken in the same second [taken], and a fourth
    taken at [later]. *)
Definition root_burst (taken later : string) : Node :=
  Dir [("photos", Dir [
    ("a.jpg", image "A" taken);
    ("b.jpg", image "BB" taken);
    ("c.jpg", image "CCC" taken);
    ("d.jpg", image "DDDD" later)])].


End Demo.

(** ** Vocabulary of the properties *)

(** A computation fails in a state when it raises there. *)
Definition fails {S A} (m : M S A) (s : S) : Prop := ∃ e, (m s).1 = Raise e.

(** A property of the state that a computation keeps, however it ends. *)
Definition preserves {S A} (I : S → Prop) (m : M S A) : Prop :=
  ∀ s, I s → I (m s).2.

(** A computation that keeps [I] and whose results satisfy [Q]. *)
Definition returns {S A} (I : S → Prop) (m : M S A) (Q : A → Prop) : Prop :=
  ∀ s, I s → I (m s).2 ∧ ∀ a, (m s).1 = Ok a → Q a.

(** A property of the state that planning cannot break: it survives any
    change of the photo objects and of the pending input, any event other
    than the execution of a command, and any new command other than a move
    of a file onto itself. *)
Record plan_invariant (I : World → Prop) : Prop := mk_plan_invariant {
  inv_heap : ∀ w h, I w → I (set_heap h w);
  inv_stdin : ∀ w i, I w → I (set_stdin i w);
  inv_event : ∀ w e, (∀ c, e ≠ EvExecute c) → I w → I (set_trace (trace w ++ [e]) w);
  inv_command : ∀ w c, (∀ s d, c = Move s d → s ≠ d) → I w →
                       I (set_commands (commands w ++ [c]) w)
}.

(** The commands the program has really executed. *)
Definition executed (w : World) : list Command :=
  omap (λ e, match e with EvExecute c => Some c | _ => None end) (trace w).


(** The duplicate prompts, as pairs (original, duplicate). *)
Definition duplicate_prompts (w : World) : list (ref * ref) :=
  omap (λ e, match e with EvPromptDuplicate o d => Some (o, d) | _ => None end) (trace w).



(** Every directory of the tree holds each name once. *)
Fixpoint well_formed (node : Node) : Prop :=
  match node with
  | File _ => True
  | Dir entries =>
      NoDup entries.*1 ∧
      (fix all (es : list (string * Node)) : Prop :=
         match es with
         | [] => True
         | (_, child) :: es' => well_formed child ∧ all es'
         end) entries
  end.

(** The file system is [root] and the commands executed are [done]. *)
Definition untouched (root : Node) (done : list Command) (w : World) : Prop :=
  fs w = root ∧ executed w = done.

(** No command moves a file onto itself. *)
Definition proper_moves (w : World) : Prop :=
  ∀ s d, Move s d ∈ commands w → s ≠ d.

(** A child of the target that is not a photo to organize: a directory, or
    not a regular file with one of the extensions. *)
Definition not_disorganized (self : Organizer) (w : World) (child : Path) : Prop :=
  fs_is_dir (fs w) child = true ∨
  fs_is_file (fs w) child && has_extention self child = false.

Section Vocabulary.
Context {PF : Platform}.



(** The first of the three tags that is present. *)
Definition first_tag (ex : gmap string string) : option string :=
  match ex !! "DateTimeOriginal" with
  | Some s => Some s
  | None =>
      match ex !! "DateTimeDigitized" with
      | Some s => Some s
      | None => ex !! "DateTime"
      end
  end.

(** The time the metadata give, computed. *)
Definition metadata_parse (f : FileData) : option datetime :=
  items ← image_exif f; s ← first_tag (exif_of_items items); strptime s.

(** The time the file name gives, computed. *)
Definition filename_parse (path : Path) : option datetime :=
  if (String.length (stem path) =? 23)%nat
  then fromisoformat (substring 0 (String.length (stem path) - 4) (stem path))
  else None.












End Vocabulary.

(** The duplicate prompts so far begin with [prompts]. *)
Definition prompted (prompts : list (ref * ref)) (w : World) : Prop :=
  ∃ more, duplicate_prompts w = prompts ++ more.

(** ** More vocabulary: lists, dictionaries, prompts and plans *)

(** No element of [l] is less than one that stands before it. *)
Definition ordered {A} (lt : A → A → bool) (l : list A) : Prop :=
  ∀ (i j : nat) a b, (i < j)%nat → l !! i = Some a → l !! j = Some b → lt b a = false.

(** The simulacrum and the file system agree on whether [p] exists. *)
Definition agrees (s : Simulacrum) (root : Node) (p : Path) : Prop :=
  p ∈ s ↔ fs_exists root p = true.

(** The paths a command looks at. *)
Definition command_paths (cmd : Command) : list Path :=
  match cmd with
  | MakeDirectory d => [d]
  | Move s d => [s; d]
  | Remove t => [t]
  end.

(** A line that answers a prompt with the given choices. *)
Definition recognized (choices : list string) (line : string) : bool :=
  bool_decide (lower line ∈ choices).

(** The directory of a month in the target. *)
Definition month_directory (self : Organizer) (month : date) : Path :=
  joinpath (o_path self) (strftime_Ym month).

(** A photo of the target that is not in a month directory yet: a child
    of the target that is a regular file with one of the extensions. *)
Definition loose (self : Organizer) (root : Node) (child : Path) : Prop :=
  (∃ nm, child = joinpath (o_path self) nm) ∧
  fs_is_file root child = true ∧ has_extention self child = true.

(** A photo in the directory of [month]: a child of that directory that is
    a regular file with one of the extensions. *)
Definition filed (self : Organizer) (root : Node) (month : date) (child : Path) : Prop :=
  (∃ nm, child = joinpath (month_directory self month) nm) ∧
  fs_is_file root child = true ∧ has_extention self child = true.

(** The three kinds of command the planner plans in the file system
    [root]: to make a month directory where there is no directory of that
    name; to remove a loose photo; to move a photo into a month directory
    that is [ready], under another path than the one it has, a photo of a
    month directory staying in that directory. *)
Definition makes_month (self : Organizer) (root : Node) (cmd : Command) : Prop :=
  ∃ month, cmd = MakeDirectory (month_directory self month) ∧
           fs_is_dir root (month_directory self month) = false.

Definition removes_loose (self : Organizer) (root : Node) (cmd : Command) : Prop :=
  ∃ t, cmd = Remove t ∧ loose self root t.

Definition moves_photo (self : Organizer) (root : Node) (ready : date → Prop)
    (cmd : Command) : Prop :=
  ∃ src month nm,
    cmd = Move src (joinpath (month_directory self month) nm) ∧
    src ≠ joinpath (month_directory self month) nm ∧
    (loose self root src ∨ filed self root month src) ∧
    ready month.

(** A command of one of the three kinds. *)
Definition safe (self : Organizer) (root : Node) (cmd : Command) : Prop :=
  match cmd with
  | MakeDirectory d =>
      ∃ month, d = month_directory self month ∧ fs_is_dir root d = false
  | Remove t => loose self root t
  | Move s d =>
      s ≠ d ∧
      ∃ month nm, d = joinpath (month_directory self month) nm ∧
                  (loose self root s ∨ filed self root month s)
  end.

(** The directory of [month] is there, or is made by one of [mkdirs]. *)
Definition month_ready (self : Organizer) (root : Node) (mkdirs : list Command)
    (month : date) : Prop :=
  fs_is_dir root (month_directory self month) = true ∨
  MakeDirectory (month_directory self month) ∈ mkdirs.

Definition months_ready (self : Organizer) (root : Node) (months : list date)
    (mkdirs : list Command) : Prop :=
  ∀ month, month ∈ months → month_ready self root mkdirs month.

(** The plan was [c0] and has grown since by commands that satisfy [φ]. *)
Definition planned_since (c0 : list Command) (φ : list Command → Prop) (w : World) : Prop :=
  ∃ more, commands w = c0 ++ more ∧ φ more.

(** The object behind [r] exists, and its path satisfies [P]. *)
Definition photo_at (P : Path → Prop) (w : World) (r : ref) : Prop :=
  ∃ p, heap w !! r = Some p ∧ P (p_path p).

(** Every photo of every list of the dictionary is at a path that
    satisfies [P] for the month of its list. *)
Definition dict_all (P : date → Path → Prop) (w : World) (d : dict date (list ref)) : Prop :=
  ∀ month l r, (month, l) ∈ d → r ∈ l → photo_at (P month) w r.

(** From [w] to [w'] the file system has not changed, every photo object
    has kept its path, the plan has grown by commands that are [ok], and
    lines have been taken from the front of the input, none of them when
    the prompts are [quiet]. *)
Definition grows (ok : Command → Prop) (quiet : Prop) (w w' : World) : Prop :=
  fs w' = fs w ∧
  (∀ r p, heap w !! r = Some p → ∃ p', heap w' !! r = Some p' ∧ p_path p' = p_path p) ∧
  (∃ more, commands w' = commands w ++ more ∧ Forall ok more) ∧
  (∃ consumed, stdin w = consumed ++ stdin w') ∧
  (quiet → stdin w' = stdin w).

(** A property of the state that holds on, whatever the planner does. *)
Definition stable (ok : Command → Prop) (quiet : Prop) (P : World → Prop) : Prop :=
  ∀ w w', grows ok quiet w w' → P w → P w'.

(** Started in the file system [root] in a state that satisfies [P], the
    computation [m] makes the state grow, however it ends, and a result it
    returns satisfies [Q] in the state it leaves. *)
Definition triple (root : Node) (ok : Command → Prop) (quiet : Prop) {A}
    (P : World → Prop) (m : M World A) (Q : A → World → Prop) : Prop :=
  ∀ w, fs w = root → P w →
       grows ok quiet w (m w).2 ∧ ∀ a, (m w).1 = Ok a → Q a (m w).2.


(** What is at [p]: a directory ([Some true]), a regular file
    ([Some false]), or nothing. *)
Definition kind (root : Node) (p : Path) : option bool :=
  match fs_lookup root p with
  | Some (Dir _) => Some true
  | Some (File _) => Some false
  | None => None
  end.

(** [p] is inside [target], and is not [target] itself. *)
Definition below (target p : Path) : Prop := ∃ rest, rest ≠ [] ∧ p = target ++ rest.

(** The simulacrum lists, once each, the paths inside [target] at which the
    file system holds something. *)
Definition models (target : Path) (s : Simulacrum) (root : Node) : Prop :=
  NoDup s ∧ ∀ p, p ∈ s ↔ below target p ∧ fs_exists root p = true.

(** A command that the simulation can follow: it works inside the target,
    makes a directory in a directory that is there, removes or moves what
    is not a directory, and moves it to a directory that is there. *)
Definition feasible (target : Path) (root : Node) (cmd : Command) : Prop :=
  match cmd with
  | MakeDirectory d => below target d ∧ fs_is_dir root (parent d) = true
  | Remove t => below target t ∧ fs_is_dir root t = false
  | Move src dst =>
      below target src ∧ below target dst ∧
      fs_is_dir root src = false ∧ fs_is_dir root (parent dst) = true
  end.

(** The phase of planning in which a command is planned. *)
Definition phase (cmd : Command) : nat :=
  match cmd with
  | MakeDirectory _ => 0
  | Remove _ => 1
  | Move _ _ => 2
  end.

(** * Properties *)

(** ** The monad *)

Section Monad.
Context {S : Type}.

Lemma bind_ok {A B} (m : M S A) (k : A → M S B) (s s' : S) (a : A) :
  m s = (Ok a, s') → bind m k s = k a s'.
Proof. unfold bind. by intros ->. Qed.

Lemma bind_raise {A B} (m : M S A) (k : A → M S B) (s s' : S) (e : exn) :
  m s = (Raise e, s') → bind m k s = (Raise e, s').
Proof. unfold bind. by intros ->. Qed.

Lemma forM__cons {A} (x : A) (xs : list A) (body : A → M S unit) (s : S) :
  forM_ (x :: xs) body s =
    match body x s with
    | (Ok _, s') => forM_ xs body s'
    | (Raise e, s') => (Raise e, s')
    end.
Proof. reflexivity. Qed.

Lemma forM__app {A} (xs ys : list A) (body : A → M S unit) (s : S) :
  forM_ (xs ++ ys) body s =
    match forM_ xs body s with
    | (Ok _, s') => forM_ ys body s'
    | (Raise e, s') => (Raise e, s')
    end.
Proof.
  revert s. induction xs as [|x xs IH]; intros s; [done|].
  simpl. unfold bind. destruct (body x s) as [[[]|e] s']; [apply IH|done].
Qed.

Lemma foldM_cons {A B} (body : B → A → M S B) (acc : B) (x : A) (xs : list A) (s : S) :
  foldM body acc (x :: xs) s =
    match body acc x s with
    | (Ok acc', s') => foldM body acc' xs s'
    | (Raise e, s') => (Raise e, s')
    end.
Proof. reflexivity. Qed.

Lemma returns_preserves {A} (I : S → Prop) (m : M S A) (Q : A → Prop) :
  returns I m Q → preserves I m.
Proof. intros H s Hs. by apply H. Qed.

Lemma preserves_returns {A} (I : S → Prop) (m : M S A) :
  preserves I m → returns I m (λ _, True).
Proof. intros H s Hs. split; [by apply H|done]. Qed.

Lemma preserves_ret {A} (I : S → Prop) (a : A) : preserves I (ret a).
Proof. by intros s Hs. Qed.

Lemma preserves_raise {A} (I : S → Prop) (e : exn) : preserves I (raise (A:=A) e).
Proof. by intros s Hs. Qed.

Lemma preserves_gets {A} (I : S → Prop) (f : S → A) : preserves I (gets f).
Proof. by intros s Hs. Qed.

Lemma preserves_modify (I : S → Prop) (f : S → S) :
  (∀ s, I s → I (f s)) → preserves I (modify f).
Proof. intros H s Hs. by apply H. Qed.

Lemma preserves_bind {A B} (I : S → Prop) (m : M S A) (k : A → M S B) :
  preserves I m → (∀ a, preserves I (k a)) → preserves I (bind m k).
Proof.
  intros Hm Hk s Hs. unfold bind. specialize (Hm s Hs).
  destruct (m s) as [[a|e] s']; [by apply Hk|done].
Qed.

Lemma preserves_bind_returns {A B} (I : S → Prop) (m : M S A) (k : A → M S B)
    (Q : A → Prop) :
  returns I m Q → (∀ a, Q a → preserves I (k a)) → preserves I (bind m k).
Proof.
  intros Hm Hk s Hs. unfold bind. destruct (Hm s Hs) as [Hs' HQ].
  destruct (m s) as [[a|e] s']; [|done]. apply Hk; [by apply HQ|done].
Qed.

Lemma preserves_forM_ {A} (I : S → Prop) (xs : list A) (body : A → M S unit) :
  (∀ x, preserves I (body x)) → preserves I (forM_ xs body).
Proof.
  intros Hbody. induction xs as [|x xs IH]; [apply preserves_ret|].
  simpl. apply preserves_bind; [apply Hbody|done].
Qed.

Lemma preserves_foldM {A B} (I : S → Prop) (body : B → A → M S B) (acc : B) (xs : list A) :
  (∀ acc x, preserves I (body acc x)) → preserves I (foldM body acc xs).
Proof.
  intros Hbody. revert acc. induction xs as [|x xs IH]; intros acc; [apply preserves_ret|].
  simpl. apply preserves_bind; [apply Hbody|done].
Qed.

End Monad.

(** ** The simulated commands *)

Section Simulation.
Implicit Types (s : Simulacrum) (x y : Path).

Lemma remove_first_elem_of s x y :
  NoDup s → (y ∈ remove_first x s ↔ y ∈ s ∧ y ≠ x).
Proof.
  induction 1 as [|z s Hz Hs IH]; simpl.
  - set_solver.
  - destruct (decide (x = z)) as [->|Hne].
    + split.
      * intros Hy. split; [set_solver|]. intros ->. contradiction.
      * intros [Hy Hyz]. apply elem_of_cons in Hy as [?|?]; [contradiction|done].
    + rewrite !elem_of_cons, IH. naive_solver.
Qed.

Lemma remove_first_sublist s x : remove_first x s ⊆ s.
Proof.
  induction s as [|z s IH]; simpl; [done|].
  destruct (decide (x = z)); set_solver.
Qed.

Lemma remove_first_NoDup s x : NoDup s → NoDup (remove_first x s).
Proof.
  induction 1 as [|z s Hz Hs IH]; simpl; [constructor|].
  destruct (decide (x = z)); [done|].
  constructor; [|done]. intros Hin. apply Hz. by apply remove_first_sublist in Hin.
Qed.

Lemma NoDup_snoc s x : NoDup s → x ∉ s → NoDup (s ++ [x]).
Proof.
  intros Hs Hx. apply NoDup_app. split_and!; [done| |apply NoDup_singleton].
  intros y Hy ->%list_elem_of_singleton. contradiction.
Qed.

Lemma MakeDirectory_simulate_eq d s :
  simulate (MakeDirectory d) s =
    if bool_decide (d ∈ s) then (Raise FileExistsError, s) else (Ok tt, s ++ [d]).
Proof.
  unfold simulate, MakeDirectory_simulate, bind, contains, gets; simpl.
  by case_bool_decide.
Qed.

Lemma Move_simulate_eq src dst s :
  simulate (Move src dst) s =
    if bool_decide (src ∈ s) then
      if bool_decide (dst ∈ s) then (Raise FileExistsError, s)
      else (Ok tt, remove_first src (s ++ [dst]))
    else (Raise FileNotFoundError, s).
Proof.
  unfold simulate, Move_simulate, bind, contains, gets, append, modify, remove; simpl.
  case_bool_decide as Hsrc; simpl; [|done].
  case_bool_decide as Hdst; simpl; [done|].
  rewrite bool_decide_eq_true_2; [done|]. set_solver.
Qed.

Lemma Remove_simulate_eq t s :
  simulate (Remove t) s =
    if bool_decide (t ∈ s) then
      if bool_decide (suffixes t = []) then (Raise IsADirectoryError, s)
      else (Ok tt, remove_first t s)
    else (Raise FileNotFoundError, s).
Proof.
  unfold simulate, Remove_simulate, bind, contains, gets, remove; simpl.
  case_bool_decide as Ht; simpl; [|done].
  destruct (suffixes t) as [|? ?] eqn:Hsfx; simpl; [done|].
  by rewrite bool_decide_eq_true_2.
Qed.

End Simulation.

Ltac solve_fails :=
  repeat case_bool_decide; simpl;
  (split; [intros [? ?]; try done; naive_solver
          | intros; first [exfalso; naive_solver | by eexists]]).

(** C4. On a simulacrum that lists every path once: [MakeDirectory] fails
    exactly when the path is present and otherwise adds it; [Move] fails
    exactly when the source is absent or the destination present and
    otherwise removes the source and adds the destination; [Remove] fails
    exactly when the target is absent or has no suffix and otherwise removes
    it.  A successful command leaves a simulacrum that again lists every
    path once. *)
Theorem simulate_semantics (s : Simulacrum) :
  NoDup s →
  (∀ d,
     (fails (simulate (MakeDirectory d)) s ↔ d ∈ s) ∧
     (d ∉ s → ∃ s', simulate (MakeDirectory d) s = (Ok tt, s') ∧ NoDup s' ∧
                    ∀ x, x ∈ s' ↔ x ∈ s ∨ x = d)) ∧
  (∀ src dst,
     (fails (simulate (Move src dst)) s ↔ src ∉ s ∨ dst ∈ s) ∧
     (src ∈ s → dst ∉ s →
      ∃ s', simulate (Move src dst) s = (Ok tt, s') ∧ NoDup s' ∧
            ∀ x, x ∈ s' ↔ (x ∈ s ∧ x ≠ src) ∨ x = dst)) ∧
  (∀ t,
     (fails (simulate (Remove t)) s ↔ t ∉ s ∨ suffixes t = []) ∧
     (t ∈ s → suffixes t ≠ [] →
      ∃ s', simulate (Remove t) s = (Ok tt, s') ∧ NoDup s' ∧
            ∀ x, x ∈ s' ↔ x ∈ s ∧ x ≠ t)).
Proof.
  intros Hs. split_and!.
  - intros d. unfold fails. rewrite MakeDirectory_simulate_eq. split.
    + solve_fails.
    + intros Hd. rewrite bool_decide_eq_false_2 by done.
      eexists; split_and!; [done|by apply NoDup_snoc|]. set_solver.
  - intros src dst. unfold fails. rewrite Move_simulate_eq. split.
    + solve_fails.
    + intros Hsrc Hdst.
      rewrite bool_decide_eq_true_2, bool_decide_eq_false_2 by done.
      assert (NoDup (s ++ [dst])) as Hs' by by apply NoDup_snoc.
      eexists; split_and!; [done|by apply remove_first_NoDup|].
      intros x. rewrite remove_first_elem_of by done.
      rewrite elem_of_app, list_elem_of_singleton.
      split; [naive_solver|]. intros [[? ?]| ->]; [naive_solver|].
      split; [by right|]. by intros ->.
  - intros t. unfold fails. rewrite Remove_simulate_eq. split.
    + solve_fails.
    + intros Ht Hsfx.
      rewrite bool_decide_eq_true_2, bool_decide_eq_false_2 by done.
      eexists; split_and!; [done|by apply remove_first_NoDup|].
      intros x. by rewrite remove_first_elem_of.
Qed.

Lemma simulate_semantics_witness :
  let s : Simulacrum := [["photos"; "a.jpg"]; ["photos"; "2023-05"]] in
  NoDup s ∧
  (fails (simulate (Move ["photos"; "a.jpg"] ["photos"; "2023-05"])) s ↔
     ["photos"; "a.jpg"] ∉ s ∨ ["photos"; "2023-05"] ∈ s) ∧
  (fails (simulate (Remove ["photos"; "2023-05"])) s ↔
     ["photos"; "2023-05"] ∉ s ∨ suffixes ["photos"; "2023-05"] = []).
Proof.
  simpl.
  assert (NoDup [["photos"; "a.jpg"]; ["photos"; "2023-05"]]) as Hs
    by (apply (bool_decide_unpack _); vm_compute; exact I).
  split; [exact Hs|].
  destruct (simulate_semantics _ Hs) as (_ & Hmv & Hrm).
  split; [apply (Hmv ["photos"; "a.jpg"] ["photos"; "2023-05"])|apply (Hrm ["photos"; "2023-05"])].
Defined.

(** C10. A simulated command that raises leaves the simulacrum as it was,
    and what it raises is one of the three errors of its checks. *)
Theorem simulate_failure_atomic (cmd : Command) (s s' : Simulacrum) (e : exn) :
  simulate cmd s = (Raise e, s') →
  s' = s ∧ e ∈ [FileExistsError; FileNotFoundError; IsADirectoryError].
Proof.
  destruct cmd as [d|src dst|t].
  - rewrite MakeDirectory_simulate_eq. case_bool_decide; intros [= <- <-].
    split; [done|set_solver].
  - rewrite Move_simulate_eq. repeat case_bool_decide; intros [= <- <-];
      (split; [done|set_solver]).
  - rewrite Remove_simulate_eq. repeat case_bool_decide; intros [= <- <-];
      (split; [done|set_solver]).
Qed.

Lemma simulate_failure_atomic_witness :
  let s : Simulacrum := [["photos"; "a.jpg"]] in
  simulate (Remove ["photos"; "b.jpg"]) s = (Raise FileNotFoundError, s) ∧
  (s = s ∧ FileNotFoundError ∈ [FileExistsError; FileNotFoundError; IsADirectoryError]).
Proof.
  simpl. split; [reflexivity|].
  apply (simulate_failure_atomic (Remove ["photos"; "b.jpg"])). reflexivity.
Defined.

(** ** The simulacrum lists every path once *)

Lemma Node_induction (P : Node → Prop) :
  (∀ f, P (File f)) →
  (∀ entries, Forall (λ e, P e.2) entries → P (Dir entries)) →
  ∀ node, P node.
Proof.
  intros Hfile Hdir. fix IH 1. intros [f|entries]; [apply Hfile|].
  apply Hdir. induction entries as [|[nm child] entries IHes]; constructor; [apply IH|done].
Qed.

Lemma well_formed_Dir (entries : list (string * Node)) :
  well_formed (Dir entries) ↔ NoDup entries.*1 ∧ Forall (λ e, well_formed e.2) entries.
Proof.
  simpl. apply and_iff_compat_l.
  induction entries as [|[nm child] entries IH]; [by split; [constructor|]|].
  rewrite Forall_cons, <- IH. done.
Qed.

Lemma create_simulacrum_node_Dir (path : Path) (nm : string) (child : Node)
    (entries : list (string * Node)) :
  create_simulacrum_node path (Dir ((nm, child) :: entries)) =
    joinpath path nm :: create_simulacrum_node (joinpath path nm) child
                     ++ create_simulacrum_node path (Dir entries).
Proof. by destruct child. Qed.

(** Everything below [path] is [path], then the name of an entry, then
    possibly more. *)
Lemma create_simulacrum_node_below (node : Node) (path q : Path) :
  q ∈ create_simulacrum_node path node →
  ∃ entries nm rest, node = Dir entries ∧ nm ∈ entries.*1 ∧ q = path ++ nm :: rest.
Proof.
  revert path q. induction node as [f|entries IH] using Node_induction; intros path q Hq.
  { by apply elem_of_nil in Hq. }
  exists entries. revert Hq. induction IH as [|[nm child] es Hchild _ IHes]; intros Hq.
  { by apply elem_of_nil in Hq. }
  rewrite create_simulacrum_node_Dir in Hq.
  apply elem_of_cons in Hq as [->|Hq].
  { exists nm, []. split_and!; [done|set_solver|done]. }
  apply elem_of_app in Hq as [Hq|Hq].
  - destruct (Hchild _ _ Hq) as (es' & nm' & rest & _ & _ & ->).
    exists nm, (nm' :: rest). split_and!; [done|set_solver|].
    unfold joinpath. by rewrite <- app_assoc.
  - destruct (IHes Hq) as (nm' & rest & Hes & Hnm' & ->).
    exists nm', rest. split_and!; [done|set_solver|done].
Qed.

Lemma create_simulacrum_node_NoDup (node : Node) (path : Path) :
  well_formed node → NoDup (create_simulacrum_node path node).
Proof.
  revert path. induction node as [f|entries IH] using Node_induction; intros path Hwf.
  { constructor. }
  apply well_formed_Dir in Hwf as [Hnames Hwf].
  induction IH as [|[nm child] es Hchild _ IHes].
  { constructor. }
  rewrite create_simulacrum_node_Dir.
  apply Forall_cons in Hwf as [Hwfc Hwf]. apply NoDup_cons in Hnames as [Hnm Hnames].
  assert (∀ q, q ∈ create_simulacrum_node path (Dir es) → ∃ nm' rest, nm' ∈ es.*1 ∧ q = path ++ nm' :: rest)
    as Hrest.
  { intros q Hq. destruct (create_simulacrum_node_below _ _ _ Hq) as (es' & nm' & rest & [= <-] & ? & ->).
    eauto. }
  assert (∀ q, q ∈ create_simulacrum_node (joinpath path nm) child → ∃ rest, q = path ++ nm :: rest ∧ rest ≠ [])
    as Hbelow.
  { intros q Hq. destruct (create_simulacrum_node_below _ _ _ Hq) as (es' & nm' & rest & _ & _ & ->).
    exists (nm' :: rest). unfold joinpath. by rewrite <- app_assoc. }
  apply NoDup_cons. split.
  - intros [Hq|Hq]%elem_of_app.
    + destruct (Hbelow _ Hq) as (rest & Heq & Hne). unfold joinpath in Heq.
      apply app_inv_head in Heq. by injection Heq as <-.
    + destruct (Hrest _ Hq) as (nm' & rest & Hnm' & Heq). unfold joinpath in Heq.
      apply app_inv_head in Heq. injection Heq as -> _. contradiction.
  - apply NoDup_app. split_and!; [by apply Hchild| |by apply IHes].
    intros q Hq1 Hq2.
    destruct (Hbelow _ Hq1) as (rest & -> & _).
    destruct (Hrest _ Hq2) as (nm' & rest' & Hnm' & Heq).
    apply app_inv_head in Heq. injection Heq as -> _. contradiction.
Qed.

Lemma simulate_NoDup (cmd : Command) (s : Simulacrum) :
  NoDup s → NoDup (simulate cmd s).2.
Proof.
  intros Hs. destruct cmd as [d|src dst|t].
  - rewrite MakeDirectory_simulate_eq. case_bool_decide; simpl; [done|by apply NoDup_snoc].
  - rewrite Move_simulate_eq. repeat case_bool_decide; simpl; try done.
    by apply remove_first_NoDup, NoDup_snoc.
  - rewrite Remove_simulate_eq. repeat case_bool_decide; simpl; try done.
    by apply remove_first_NoDup.
Qed.

(** The simulacrum of a well-formed tree lists every path once, at the start
    and after any number of simulated commands. *)
Lemma simulate_all_NoDup (cmds : list Command) (path : Path) (node : Node) :
  well_formed node →
  NoDup (simulate_all cmds (create_simulacrum_node path node)).2.
Proof.
  intros Hwf. pose proof (create_simulacrum_node_NoDup node path Hwf) as Hs.
  revert Hs. generalize (create_simulacrum_node path node).
  induction cmds as [|cmd cmds IH]; intros s Hs; [done|].
  unfold simulate_all in *. rewrite forM__cons.
  pose proof (simulate_NoDup cmd s Hs) as Hs'.
  destruct (simulate cmd s) as [[[]|e] s']; simpl in *; [by apply IH|done].
Qed.

(** ** The order on photos *)

Section Ordering.

Lemma lex_ltb_irrefl (a : list Z) : lex_ltb a a = false.
Proof.
  induction a as [|x a IH]; simpl; [done|].
  by rewrite Z.ltb_irrefl, Z.eqb_refl.
Qed.

Lemma lex_ltb_trans (a b c : list Z) :
  lex_ltb a b = true → lex_ltb b c = true → lex_ltb a c = true.
Proof.
  revert b c. induction a as [|x a IH]; intros [|y b] [|z c]; simpl; try done.
  destruct (Z.ltb_spec x y), (Z.eqb_spec x y), (Z.ltb_spec y z), (Z.eqb_spec y z);
    destruct (Z.ltb_spec x z), (Z.eqb_spec x z); try done; try lia.
  apply IH.
Qed.



Lemma datetime_ltb_irrefl d : datetime_ltb d d = false.
Proof. apply lex_ltb_irrefl. Qed.

Lemma datetime_ltb_trans d1 d2 d3 :
  datetime_ltb d1 d2 = true → datetime_ltb d2 d3 = true → datetime_ltb d1 d3 = true.
Proof. apply lex_ltb_trans. Qed.


Lemma ascii_compare_refl (a : ascii) : Ascii.compare a a = Eq.
Proof. apply N.compare_refl. Qed.

Lemma ascii_compare_lt_trans (a b c : ascii) :
  Ascii.compare a b = Lt → Ascii.compare b c = Lt → Ascii.compare a c = Lt.
Proof. unfold Ascii.compare. rewrite !N.compare_lt_iff. lia. Qed.

Lemma string_compare_refl (s : string) : String.compare s s = Eq.
Proof. induction s as [|a s IH]; simpl; [done|]. by rewrite ascii_compare_refl. Qed.

Lemma string_compare_lt_trans (s1 s2 s3 : string) :
  String.compare s1 s2 = Lt → String.compare s2 s3 = Lt → String.compare s1 s3 = Lt.
Proof.
  revert s2 s3. induction s1 as [|a s1 IH]; intros [|b s2] [|c s3]; simpl; try done.
  destruct (Ascii.compare a b) eqn:Hab; try done;
    destruct (Ascii.compare b c) eqn:Hbc; try done; intros H1 H2.
  - apply Ascii.compare_eq_iff in Hab as ->. rewrite Hbc. by eapply IH.
  - apply Ascii.compare_eq_iff in Hab as ->. by rewrite Hbc.
  - apply Ascii.compare_eq_iff in Hbc as <-. by rewrite Hab.
  - by rewrite (ascii_compare_lt_trans a b c).
Qed.

Lemma string_ltb_lt (s1 s2 : string) : String.ltb s1 s2 = true ↔ String.compare s1 s2 = Lt.
Proof. unfold String.ltb. by destruct (String.compare s1 s2). Qed.

Lemma string_ltb_irrefl s : String.ltb s s = false.
Proof. unfold String.ltb. by rewrite string_compare_refl. Qed.

Lemma string_ltb_trans s1 s2 s3 :
  String.ltb s1 s2 = true → String.ltb s2 s3 = true → String.ltb s1 s3 = true.
Proof. rewrite !string_ltb_lt. apply string_compare_lt_trans. Qed.


(** [Photo.__lt__] is the lexicographic order on the time, the depth
    (deeper first) and the name. *)
Lemma Photo_lt_spec (a b : Photo) :
  Photo_lt a b = true ↔
    datetime_ltb (p_datetime a) (p_datetime b) = true ∨
    (p_datetime a = p_datetime b ∧
     ((parents_len (p_path b) < parents_len (p_path a))%nat ∨
      (parents_len (p_path a) = parents_len (p_path b) ∧
       String.ltb (name (p_path a)) (name (p_path b)) = true))).
Proof.
  unfold Photo_lt. case_bool_decide as Hd; simpl.
  - rewrite Hd, datetime_ltb_irrefl.
    destruct (Nat.eqb_spec (parents_len (p_path a)) (parents_len (p_path b))) as [He|He]; simpl.
    + rewrite He. split; [naive_solver|]. intros [?|[_ [?|[_ ?]]]]; [done|lia|done].
    + rewrite Nat.ltb_lt. split; [naive_solver|]. intros [?|[_ [?|[? ?]]]]; [done|lia|done].
  - split; [naive_solver|]. intros [?|[? _]]; done.
Qed.

Lemma Photo_lt_irrefl (a : Photo) : Photo_lt a a = false.
Proof.
  apply not_true_is_false. rewrite Photo_lt_spec.
  rewrite datetime_ltb_irrefl, string_ltb_irrefl. intros [?|[_ [?|[_ ?]]]]; [done|lia|done].
Qed.

Lemma Photo_lt_trans (a b c : Photo) :
  Photo_lt a b = true → Photo_lt b c = true → Photo_lt a c = true.
Proof.
  rewrite !Photo_lt_spec.
  intros [Hab|[Hab Hab']] [Hbc|[Hbc Hbc']].
  - left. by eapply datetime_ltb_trans.
  - left. by rewrite <- Hbc.
  - left. by rewrite Hab.
  - right. split; [congruence|].
    destruct Hab' as [?|[? ?]], Hbc' as [?|[? ?]]; [left; lia..|].
    right. split; [lia|]. by eapply string_ltb_trans.
Qed.

Lemma Photo_lt_asym (a b : Photo) : Photo_lt a b = true → Photo_lt b a = false.
Proof.
  intros Hab. apply not_true_is_false. intros Hba.
  pose proof (Photo_lt_trans _ _ _ Hab Hba) as Haa.
  by rewrite Photo_lt_irrefl in Haa.
Qed.



End Ordering.




(** ** The capture time of a photo *)

Section CaptureTime.
Context {PF : Platform}.





(** The constructor, by cases on what the two sources give. *)
Lemma Photo_new_fields (path : Path) (f : FileData) :
  p_path (Photo_new path f) = path ∧
  p_size (Photo_new path f) = st_size f ∧
  p_hashes (Photo_new path f) = ∅ ∧
  p_datetime_src (Photo_new path f) =
    match metadata_parse f, filename_parse path with
    | Some _, _ => Exif
    | None, Some _ => Filename
    | None, None => Mtime
    end ∧
  p_datetime (Photo_new path f) =
    match metadata_parse f, filename_parse path with
    | Some d, _ => d
    | None, Some d => d
    | None, None => st_mtime f
    end.
Proof.
  unfold Photo_new, metadata_parse, filename_parse, first_tag.
  destruct (String.length (stem path) =? 23)%nat;
    [destruct (fromisoformat _)|];
    (destruct (image_exif f) as [items|]; simpl; [|done]);
    (destruct (exif_of_items items !! "DateTimeOriginal") as [s0|]; simpl;
     [destruct (strptime s0); done|]);
    (destruct (exif_of_items items !! "DateTimeDigitized") as [s1|]; simpl;
     [destruct (strptime s1); done|]);
    (destruct (exif_of_items items !! "DateTime") as [s2|]; simpl;
     [destruct (strptime s2); done|done]).
Qed.

End CaptureTime.



(** ** Digests and duplicates *)

Section Hashing.
Context {PF : Platform}.





















End Hashing.





(** ** What planning cannot do *)

Lemma untouched_plan_invariant (root : Node) (done : list Command) :
  plan_invariant (untouched root done).
Proof.
  split; unfold untouched, executed; try done.
  intros w e He [Hfs Hex]. split; [done|]. simpl. rewrite omap_app, Hex. simpl.
  destruct e; try by rewrite app_nil_r. by destruct (He cmd).
Qed.

Lemma proper_moves_plan_invariant : plan_invariant proper_moves.
Proof.
  split; unfold proper_moves; try done.
  intros w c Hc Hw s d. simpl. rewrite elem_of_app, list_elem_of_singleton.
  intros [?|<-]; [by apply Hw|by apply Hc].
Qed.

Section PlanInvariant.
Context {PF : Platform} (I : World → Prop) (HI : plan_invariant I).

Ltac pres :=
  repeat match goal with
    | |- preserves _ (ret _) => apply preserves_ret
    | |- preserves _ (raise _) => apply preserves_raise
    | |- preserves _ (gets _) => apply preserves_gets
    | |- preserves _ (bind _ _) => apply preserves_bind; [|intros ?]
    | |- preserves _ (forM_ _ _) => apply preserves_forM_; intros ?
    | |- preserves _ (foldM _ _ _) => apply preserves_foldM; intros ? ?
    | |- preserves _ (match ?x with _ => _ end) => destruct x
    end.

Lemma preserves_emit (e : Event) : (∀ c, e ≠ EvExecute c) → preserves I (emit e).
Proof. intros He. apply preserves_modify. intros w. by apply (inv_event _ HI). Qed.

Lemma preserves_commands_append (c : Command) :
  (∀ s d, c = Move s d → s ≠ d) → preserves I (commands_append c).
Proof. intros Hc. apply preserves_modify. intros w. by apply (inv_command _ HI). Qed.

Lemma preserves_update_photo (r : ref) (f : Photo → Photo) : preserves I (update_photo r f).
Proof. apply preserves_modify. intros w. by apply (inv_heap _ HI). Qed.

Lemma preserves_alloc (p : Photo) : preserves I (alloc p).
Proof. intros w Hw. by apply (inv_heap _ HI). Qed.

Lemma preserves_dict_getitem {K V} `{EqDecision K} (k : K) (d : dict K V) :
  preserves I (dict_getitem k d).
Proof. unfold dict_getitem. pres. Qed.

Lemma preserves_Photo_init (path : Path) : preserves I (Photo_init path).
Proof. unfold Photo_init. pres. apply preserves_alloc. Qed.

Lemma preserves_get_hash (r : ref) (alg : string) : preserves I (get_hash r alg).
Proof.
  unfold get_hash, get_photo, read_file. pres.
  - by apply preserves_emit.
  - apply preserves_update_photo.
Qed.

Lemma preserves_is_duplicate_of (a b : ref) (alg : string) :
  preserves I (is_duplicate_of a b alg).
Proof. unfold is_duplicate_of, get_photo. pres; apply preserves_get_hash. Qed.

Lemma datetime_uncertain_loop_preserves (photo : ref) (answer : option string)
    (lines : list string) (w : World) :
  I w → I (datetime_uncertain_loop photo answer lines w).2.
Proof.
  remember (length lines) as n eqn:Hn. revert answer lines w Hn.
  induction (lt_wf n) as [n _ IH]. intros answer lines w -> Hw.
  destruct lines as [|line lines]; simpl.
  { destruct (answer_in _ _); simpl; by apply (inv_stdin _ HI). }
  destruct (answer_in _ _); simpl; [by apply (inv_stdin _ HI)|].
  case_bool_decide.
  - destruct lines as [|datetime_input lines]; [by apply (inv_stdin _ HI)|].
    destruct (fromisoformat datetime_input);
      (eapply IH; [|done|]; [simpl; lia|]); [by apply (inv_heap _ HI)|done].
  - eapply IH; [|done..]. simpl; lia.
Qed.

Lemma preserves_datetime_uncertain (self : UserPrompter) (photo : ref) :
  preserves I (datetime_uncertain self photo).
Proof.
  unfold datetime_uncertain. pres.
  - by apply preserves_emit.
  - intros w Hw. by apply datetime_uncertain_loop_preserves.
Qed.

(** The prompter keeps the invariant, and what it returns is a [Remove]. *)
Lemma returns_duplicate_found (self : UserPrompter) (original duplicate : ref) :
  returns I (duplicate_found self original duplicate)
          (λ r, ∀ c, r = Some c → ∃ t, c = Remove t).
Proof.
  intros w Hw. unfold duplicate_found, bind, emit, modify, get_photo, gets, ret, raise; simpl.
  pose proof (inv_event _ HI w (EvPromptDuplicate original duplicate)) as Hev.
  set (w1 := set_trace _ w) in *.
  destruct (duplicate_found_loop _ _) as [[answer|e] lines]; simpl.
  - repeat case_bool_decide; simpl;
      (split; [apply (inv_stdin _ HI); by apply Hev|]); intros a [= <-] c [= <-]; by eexists.
  - split; [|done]. apply (inv_stdin _ HI). by apply Hev.
Qed.

Lemma preserves_found_photo (self : Organizer) (child : Path) :
  preserves I (found_photo self child).
Proof.
  unfold found_photo, get_photo. pres.
  - apply preserves_Photo_init.
  - apply preserves_datetime_uncertain.
Qed.

Lemma preserves_find_photos (self : Organizer) : preserves I (find_photos self).
Proof. unfold find_photos, iterdir, is_dir, is_file, get_photo. pres. apply preserves_found_photo. Qed.

Lemma preserves_check_existing_dirs (self : Organizer) (dirs : list Path)
    (disorganized_photos : dict date (list ref)) :
  preserves I (check_existing_dirs self dirs disorganized_photos).
Proof.
  unfold check_existing_dirs, iterdir, is_file. pres.
  - by apply preserves_commands_append.
  - apply preserves_found_photo.
  - apply preserves_dict_getitem.
Qed.

Lemma preserves_find_duplicate (self : Organizer) (photo : ref) (others : list ref) :
  preserves I (find_duplicate self photo others).
Proof.
  induction others as [|other others IH]; simpl; [apply preserves_ret|].
  apply preserves_bind; [apply preserves_is_duplicate_of|]. intros [|]; [|done].
  eapply preserves_bind_returns; [apply returns_duplicate_found|].
  intros [c|] Hc; pres. destruct (Hc c eq_refl) as [t ->].
  by apply preserves_commands_append.
Qed.

Lemma preserves_check_duplicates (self : Organizer)
    (disorganized_photos organized_photos : dict date (list ref)) :
  preserves I (check_duplicates self disorganized_photos organized_photos).
Proof.
  unfold check_duplicates, check_photo. pres.
  - apply preserves_dict_getitem.
  - apply preserves_find_duplicate.
  - apply preserves_find_duplicate.
Qed.

Lemma preserves_merge_and_order (organized_photos unique_photos : dict date (list ref)) :
  preserves I (merge_and_order organized_photos unique_photos).
Proof. unfold merge_and_order, sort_photos. pres; apply preserves_dict_getitem. Qed.

Lemma preserves_prepare_move (self : Organizer) (month : date) (acc : Z * string) (photo : ref) :
  preserves I (prepare_move self month acc photo).
Proof.
  unfold prepare_move, get_photo. destruct acc as [n last].
  apply preserves_bind; [apply preserves_gets|]. intros p.
  destruct (bool_decide (last = _)); (apply preserves_bind; [|intros; apply preserves_ret]);
    (case_bool_decide as Hdest; [apply preserves_ret|]);
    apply preserves_commands_append; by intros ? ? [= <- <-].
Qed.

Lemma preserves_prepare_moves (self : Organizer) (unique_photos : dict date (list ref)) :
  preserves I (prepare_moves self unique_photos).
Proof.
  unfold prepare_moves. apply preserves_forM_. intros [month photos].
  apply preserves_bind; [|intros; apply preserves_ret].
  apply preserves_foldM. apply preserves_prepare_move.
Qed.

(** Planning keeps every plan invariant, however it ends. *)
Lemma preserves_prepare (self : Organizer) : preserves I (prepare self).
Proof.
  unfold prepare. apply preserves_bind; [apply preserves_find_photos|]. intros [dirs dis].
  apply preserves_bind; [apply preserves_check_existing_dirs|]. intros org.
  apply preserves_bind; [apply preserves_check_duplicates|]. intros uniq.
  apply preserves_bind; [apply preserves_merge_and_order|]. intros uniq'.
  apply preserves_prepare_moves.
Qed.

End PlanInvariant.

(** ** Planning an organized directory *)

Section Idempotence.
Context {PF : Platform}.

Lemma find_photos_loop_nothing (self : Organizer) (w : World) (children dirs : list Path) :
  (∀ child, child ∈ children → not_disorganized self w child) →
  ∃ dirs',
    foldM (λ (acc : list Path * dict date (list ref)) child,
             let '(dirs, disorganized_photos) := acc in
             d <- is_dir child ;;
             if d then ret (dirs ++ [child], disorganized_photos)
             else
               f <- is_file child ;;
               if f && has_extention self child then
                 photo <- found_photo self child ;;
                 p <- get_photo photo ;;
                 ret (dirs, setdefault_append (photo_month (p_datetime p)) photo disorganized_photos)
               else ret (dirs, disorganized_photos))
          (dirs, []) children w = (Ok (dirs', []), w).
Proof.
  revert dirs. induction children as [|child children IH]; intros dirs Hc.
  { by exists dirs. }
  rewrite foldM_cons. unfold bind at 1, is_dir, is_file, gets; simpl.
  destruct (Hc child) as [Hd|Hf]; [set_solver| |].
  - rewrite Hd. simpl. apply IH. intros c ?. apply Hc. set_solver.
  - destruct (fs_is_dir (fs w) child); simpl.
    + apply IH. intros c ?. apply Hc. set_solver.
    + unfold bind at 1. simpl. rewrite Hf. simpl. apply IH. intros c ?. apply Hc. set_solver.
Qed.

Lemma find_photos_nothing (self : Organizer) (w : World) (entries : list (string * Node)) :
  fs_lookup (fs w) (o_path self) = Some (Dir entries) →
  (∀ child, child ∈ (λ e, joinpath (o_path self) e.1) <$> entries →
            not_disorganized self w child) →
  ∃ dirs, find_photos self w = (Ok (dirs, []), w).
Proof.
  intros Hdir Hnone.
  destruct (find_photos_loop_nothing self w _ [] Hnone) as [dirs Hloop].
  exists dirs. unfold find_photos.
  erewrite bind_ok; [exact Hloop|]. unfold iterdir, bind, gets; simpl. by rewrite Hdir.
Qed.

End Idempotence.

(** C9. When no child of the target directory is a photo to organize,
    planning returns without any effect, so that a fresh organizer ends
    with no command at all; and planning never adds a move of a file onto
    itself. *)
Theorem prepare_idempotent `{PF : Platform} (self : Organizer) (w : World) :
  (∀ entries,
     fs_lookup (fs w) (o_path self) = Some (Dir entries) →
     (∀ child, child ∈ (λ e, joinpath (o_path self) e.1) <$> entries →
               not_disorganized self w child) →
     prepare self w = (Ok tt, w)) ∧
  (proper_moves w → proper_moves (prepare self w).2).
Proof.
  split.
  - intros entries Hdir Hnone.
    destruct (find_photos_nothing self w entries Hdir Hnone) as [dirs Hfind].
    unfold prepare. by rewrite (bind_ok _ _ _ _ _ Hfind).
  - apply preserves_prepare, proper_moves_plan_invariant.
Qed.

Lemma prepare_idempotent_witness :
  let root := Dir [("photos", Dir [
    ("2023-05", Dir [("2023-05-01 10:00:00 001.jpg", Demo.image "A" "2023:05:01 10:00:00")]);
    ("notes.txt", Demo.image "B" "2023:05:01 10:00:00")])] in
  let w := initial_world root [] in
  proper_moves w ∧
  prepare (PF:=Demo.platform) (Demo.organizer None) w = (Ok tt, w) ∧
  proper_moves (prepare (PF:=Demo.platform) (Demo.organizer None) w).2.
Proof.
  simpl.
  assert (proper_moves (initial_world (Dir [("photos", Dir [
    ("2023-05", Dir [("2023-05-01 10:00:00 001.jpg", Demo.image "A" "2023:05:01 10:00:00")]);
    ("notes.txt", Demo.image "B" "2023:05:01 10:00:00")])]) [])) as Hw.
  { intros s d Hin. simpl in Hin. by apply elem_of_nil in Hin. }
  split; [exact Hw|].
  destruct (prepare_idempotent (PF:=Demo.platform) (Demo.organizer None)
              (initial_world (Dir [("photos", Dir [
                 ("2023-05", Dir [("2023-05-01 10:00:00 001.jpg",
                                   Demo.image "A" "2023:05:01 10:00:00")]);
                 ("notes.txt", Demo.image "B" "2023:05:01 10:00:00")])]) []))
    as [Hnone Hmoves].
  split; [|exact (Hmoves Hw)].
  eapply Hnone; [reflexivity|].
  intros child Hc. simpl in Hc.
  apply elem_of_cons in Hc as [->|Hc]; [by left|].
  apply elem_of_cons in Hc as [->|Hc]; [by right|].
  by apply elem_of_nil in Hc.
Defined.

(** ** The run controller *)

Section Run.
Context {PF : Platform}.

Lemma Organizer_simulate_eq (self : Organizer) (w : World) :
  Organizer_simulate self w =
    match fs_lookup (fs w) (o_path self) with
    | Some (Dir entries) =>
        ((simulate_all (commands w) (create_simulacrum_node (o_path self) (Dir entries))).1, w)
    | Some (File _) => (Raise NotADirectoryError, w)
    | None => (Raise FileNotFoundError, w)
    end.
Proof.
  unfold Organizer_simulate, create_simulacrum, bind, gets; simpl.
  by destruct (fs_lookup (fs w) (o_path self)) as [[f|entries]|].
Qed.

Lemma Organizer_simulate_state (self : Organizer) (w : World) :
  (Organizer_simulate self w).2 = w.
Proof.
  rewrite Organizer_simulate_eq.
  by destruct (fs_lookup (fs w) (o_path self)) as [[f|entries]|].
Qed.

Lemma run_eq (self : Organizer) (simulate_only : bool) (w : World) :
  run self simulate_only w =
    match prepare self w with
    | (Ok _, w1) =>
        if (length (commands w1) =? 0)%nat then (Ok tt, w1)
        else
          match Organizer_simulate self w1 with
          | (Ok _, _) => if simulate_only then (Ok tt, w1) else Organizer_execute self w1
          | (Raise e, _) => (Raise e, w1)
          end
    | (Raise e, w1) => (Raise e, w1)
    end.
Proof.
  unfold run. unfold bind at 1. destruct (prepare self w) as [[[]|e] w1]; [|done].
  unfold bind at 1, gets at 1. simpl. destruct (length (commands w1) =? 0)%nat; [done|].
  unfold bind. pose proof (Organizer_simulate_state self w1) as Hst.
  destruct (Organizer_simulate self w1) as [[[]|e] w1']; simpl in Hst; subst w1'; [|done].
  by destruct simulate_only.
Qed.

(** A move whose destination is there when its turn comes fails the
    simulation of the whole list. *)
Lemma simulate_all_move_onto_present (pre post : list Command) (source dest : Path)
    (s0 s1 : Simulacrum) :
  simulate_all pre s0 = (Ok tt, s1) → dest ∈ s1 →
  ∃ e, (simulate_all (pre ++ Move source dest :: post) s0).1 = Raise e.
Proof.
  intros Hpre Hdest. unfold simulate_all in *. rewrite forM__app, Hpre, forM__cons.
  rewrite Move_simulate_eq. case_bool_decide; [|by eexists].
  rewrite bool_decide_eq_true_2 by done. by eexists.
Qed.

End Run.

(** C1. Planning changes neither the files nor the list of executed
    commands.  When the plan is not empty and its simulation raises, the
    run ends with that error in the state planning left: nothing has been
    executed.  A plan with a move whose destination is present in the
    simulacrum when the move is simulated does make the simulation raise.
    Conversely, whenever a run has changed a file or executed a command, it
    was not a dry run and the simulation of the whole plan had succeeded. *)
Theorem run_executes_only_after_simulation `{PF : Platform}
    (self : Organizer) (simulate_only : bool) (w : World) :
  let w1 := (prepare self w).2 in
  (fs w1 = fs w ∧ executed w1 = executed w) ∧
  (∀ e, (prepare self w).1 = Ok tt → commands w1 ≠ [] →
        (Organizer_simulate self w1).1 = Raise e →
        run self simulate_only w = (Raise e, w1)) ∧
  (∀ entries pre source dest post s1,
        fs_lookup (fs w1) (o_path self) = Some (Dir entries) →
        commands w1 = pre ++ Move source dest :: post →
        simulate_all pre (create_simulacrum_node (o_path self) (Dir entries)) = (Ok tt, s1) →
        dest ∈ s1 →
        ∃ e, (Organizer_simulate self w1).1 = Raise e) ∧
  (let w2 := (run self simulate_only w).2 in
   fs w2 ≠ fs w ∨ executed w2 ≠ executed w →
   simulate_only = false ∧ (prepare self w).1 = Ok tt ∧
   Organizer_simulate self w1 = (Ok tt, w1)).
Proof.
  intros w1.
  assert (fs w1 = fs w ∧ executed w1 = executed w) as Hkept.
  { by apply (preserves_prepare _ (untouched_plan_invariant (fs w) (executed w)) self w). }
  split; [exact Hkept|]. split_and!.
  - intros e Hprep Hcmds Hsim. rewrite run_eq. subst w1.
    destruct (prepare self w) as [[[]|e'] w1]; simpl in *; [|done].
    destruct (commands w1) as [|c cmds] eqn:Hc; [done|]. simpl.
    pose proof (Organizer_simulate_state self w1) as Hst.
    destruct (Organizer_simulate self w1) as [[[]|e'] w1']; simpl in *; [done|].
    by injection Hsim as ->.
  - intros entries pre source dest post s1 Hdir Hcmds Hpre Hdest.
    rewrite Organizer_simulate_eq, Hdir, Hcmds. simpl.
    by eapply simulate_all_move_onto_present.
  - intros w2 Hchanged. subst w2. rewrite run_eq in Hchanged. subst w1.
    destruct Hkept as [Hfs Hex].
    destruct (prepare self w) as [[[]|e'] w1]; simpl in *; [|rewrite Hfs, Hex in Hchanged; naive_solver].
    destruct (length (commands w1) =? 0)%nat; simpl in *;
      [rewrite Hfs, Hex in Hchanged; naive_solver|].
    pose proof (Organizer_simulate_state self w1) as Hst.
    destruct (Organizer_simulate self w1) as [[[]|e'] w1']; simpl in *; subst w1';
      [|rewrite Hfs, Hex in Hchanged; naive_solver].
    destruct simulate_only; simpl in *; [rewrite Hfs, Hex in Hchanged; naive_solver|done].
Qed.

Lemma run_executes_only_after_simulation_witness :
  let w := initial_world Demo.root_conflict [] in
  let self := Demo.organizer None in
  let w1 := (prepare (PF:=Demo.platform) self w).2 in
  commands w1 =
    [Move ["photos"; "img002.jpg"] ["photos"; "2023-05"; "2023-05-01 10:00:00 001.jpg"];
     Move ["photos"; "2023-05"; "2023-05-01 10:00:00 001.jpg"]
          ["photos"; "2023-05"; "2023-05-02 09:00:00 001.jpg"]] ∧
  run (PF:=Demo.platform) self false w = (Raise FileExistsError, w1) ∧
  fs w1 = fs w ∧ executed w1 = [].
Proof.
  cbv zeta.
  destruct (run_executes_only_after_simulation (PF:=Demo.platform)
              (Demo.organizer None) false (initial_world Demo.root_conflict []))
    as ([Hfs Hex] & Hfail & _ & _).
  split; [by vm_compute|]. split; [|split; [exact Hfs|exact Hex]].
  apply Hfail; by vm_compute.
Defined.

(** ** The duplicate check of the planner *)



Section Duplicates.
Context {PF : Platform}.






End Duplicates.




(** ** Sequence numbers *)

(** One step of the numbering loop: the number is one more than the last
    when the time stamp is the one remembered, and 1 otherwise; the time
    stamp remembered next is the one of this photo. *)
Lemma prepare_move_number `{PF : Platform} (self : Organizer) (month : date)
    (n : Z) (last : string) (photo : ref) (w : World) :
  let stamp := isoformat (p_datetime (heap w !!! photo)) in
  ∃ w', prepare_move self month (n, last) photo w =
          (Ok (if bool_decide (last = stamp) then n + 1 else 1, stamp), w') ∧
        heap w' = heap w.
Proof.
  intros stamp. unfold prepare_move, bind, get_photo, gets, ret, commands_append, modify; simpl.
  fold stamp. case_bool_decide as Hlast; [subst last|]; case_bool_decide; by eexists.
Qed.

(** C6 at a month whose first capture time is [datetime.min]: the first
    three records, taken in the same second, are numbered 002, 003 and 004,
    not 001, 002 and 003. *)
Theorem sequence_numbers_at_datetime_min :
  Demo.planned (Demo.root_burst "0001:01:01 00:00:00" "0001:01:01 00:00:01") None =
    (Ok tt,
     mk_world (Demo.root_burst "0001:01:01 00:00:00" "0001:01:01 00:00:01")
       (heap (Demo.planned (Demo.root_burst "0001:01:01 00:00:00" "0001:01:01 00:00:01") None).2)
       []
       [MakeDirectory ["photos"; "0001-01"];
        Move ["photos"; "a.jpg"] ["photos"; "0001-01"; "0001-01-01 00:00:00 002.jpg"];
        Move ["photos"; "b.jpg"] ["photos"; "0001-01"; "0001-01-01 00:00:00 003.jpg"];
        Move ["photos"; "c.jpg"] ["photos"; "0001-01"; "0001-01-01 00:00:00 004.jpg"];
        Move ["photos"; "d.jpg"] ["photos"; "0001-01"; "0001-01-01 00:00:01 001.jpg"]]
       []).
Proof. by vm_compute. Qed.

(** At any other time the same four records are numbered 001, 002, 003 and
    001. *)
Lemma sequence_numbers_elsewhere :
  commands (Demo.planned (Demo.root_burst "2023:05:01 10:00:00" "2023:05:01 10:00:01") None).2 =
    [MakeDirectory ["photos"; "2023-05"];
     Move ["photos"; "a.jpg"] ["photos"; "2023-05"; "2023-05-01 10:00:00 001.jpg"];
     Move ["photos"; "b.jpg"] ["photos"; "2023-05"; "2023-05-01 10:00:00 002.jpg"];
     Move ["photos"; "c.jpg"] ["photos"; "2023-05"; "2023-05-01 10:00:00 003.jpg"];
     Move ["photos"; "d.jpg"] ["photos"; "2023-05"; "2023-05-01 10:00:01 001.jpg"]].
Proof. by vm_compute. Qed.

(** The slip next to C3: a record that has a duplicate in the pool is
    checked against the disorganized records all the same, prompted a
    second time and removed twice, and the plan fails its simulation. *)
Lemma pool_duplicate_checked_again :
  let w := (Demo.ran Demo.root_three_copies (Some "d")).2 in
  (Demo.ran Demo.root_three_copies (Some "d")).1 = Raise FileNotFoundError ∧
  commands w = [Remove ["photos"; "a.jpg"]; Remove ["photos"; "b.jpg"];
                Remove ["photos"; "b.jpg"]] ∧
  duplicate_prompts w = [(2%nat, 0%nat); (2%nat, 1%nat); (0%nat, 1%nat)] ∧
  executed w = [].
Proof. cbv zeta. split_and!; by vm_compute. Qed.

(** ** Dictionaries and sorting *)

Section DictFacts.
Context {K A : Type} `{EqDecision K}.
Implicit Types (d : dict K (list A)) (k : K) (x : A).

Lemma dict_get_None k (d : dict K (list A)) : dict_get k d = None ↔ k ∉ dict_keys d.
Proof.
  unfold dict_keys. induction d as [|[k' l] d IH]; simpl.
  - split; [intros _; apply not_elem_of_nil|done].
  - destruct (decide (k = k')) as [->|Hne].
    + split; [done|]. intros Hk. exfalso. apply Hk. left.
    + rewrite IH, not_elem_of_cons. naive_solver.
Qed.

Lemma dict_get_set_eq k (v : list A) d :
  is_Some (dict_get k d) → dict_get k (dict_set k v d) = Some v.
Proof.
  induction d as [|[k' l] d IH]; simpl; [by intros [? ?]|].
  destruct (decide (k = k')) as [->|Hne]; simpl.
  - by rewrite decide_True.
  - rewrite decide_False by done. apply IH.
Qed.

Lemma dict_get_set_ne k k' (v : list A) d :
  k' ≠ k → dict_get k' (dict_set k v d) = dict_get k' d.
Proof.
  intros Hne. induction d as [|[k'' l] d IH]; simpl.
  - by rewrite decide_False.
  - destruct (decide (k = k'')) as [->|Hne']; simpl.
    + by rewrite !decide_False.
    + destruct (decide (k' = k'')); [done|apply IH].
Qed.

Lemma dict_keys_set k (v : list A) d :
  is_Some (dict_get k d) → dict_keys (dict_set k v d) = dict_keys d.
Proof.
  unfold dict_keys. induction d as [|[k' l] d IH]; simpl; [by intros [? ?]|].
  destruct (decide (k = k')) as [->|Hne]; simpl; [done|].
  intros Hk. f_equal. by apply IH.
Qed.

Lemma dict_get_app_fresh k k' (v : list A) d :
  dict_get k d = None →
  dict_get k' (d ++ [(k, v)]) = if decide (k' = k) then Some v else dict_get k' d.
Proof.
  induction d as [|[k'' l] d IH]; simpl; [done|].
  destruct (decide (k = k'')) as [->|Hne]; [done|]. intros Hk.
  destruct (decide (k' = k'')) as [->|Hne'].
  - by rewrite decide_False.
  - by apply IH.
Qed.

End DictFacts.

(** X1. [d.setdefault(k, list()).append(x)] adds [x] at the end of the list
    under [k], which is the empty list when [k] is new; it leaves the lists
    under the other keys as they are; and it keeps the keys in their order,
    a new key coming last, so that keys that were all different stay so. *)
Theorem setdefault_append_lookup {K A : Type} `{EqDecision K}
    (k : K) (x : A) (d : dict K (list A)) :
  dict_get k (setdefault_append k x d) = Some (default [] (dict_get k d) ++ [x]) ∧
  (∀ k', k' ≠ k → dict_get k' (setdefault_append k x d) = dict_get k' d) ∧
  dict_keys (setdefault_append k x d) =
    dict_keys d ++ (if bool_decide (k ∈ dict_keys d) then [] else [k]) ∧
  (NoDup (dict_keys d) → NoDup (dict_keys (setdefault_append k x d))).
Proof.
  unfold setdefault_append. destruct (dict_get k d) as [l|] eqn:Hk.
  - assert (k ∈ dict_keys d) as Hin.
    { destruct (decide (k ∈ dict_keys d)) as [|Hn]; [done|].
      apply dict_get_None in Hn. congruence. }
    split_and!.
    + by apply dict_get_set_eq.
    + intros k' Hne. by apply dict_get_set_ne.
    + rewrite bool_decide_eq_true_2, app_nil_r by done. by apply dict_keys_set.
    + by rewrite dict_keys_set.
  - pose proof (proj1 (dict_get_None k d) Hk) as Hnot.
    split_and!.
    + rewrite (dict_get_app_fresh _ _ _ _ Hk). by rewrite decide_True.
    + intros k' Hne. rewrite (dict_get_app_fresh _ _ _ _ Hk). by rewrite decide_False.
    + rewrite bool_decide_eq_false_2 by done. unfold dict_keys. by rewrite fmap_app.
    + intros Hnd. unfold dict_keys in *. rewrite fmap_app. simpl.
      apply NoDup_app. split_and!; [done| |apply NoDup_singleton].
      intros k' Hk' ->%list_elem_of_singleton. contradiction.
Qed.

Lemma setdefault_append_lookup_witness :
  let d : dict Z (list Z) := [(5, [1]); (6, [2])] in
  NoDup (dict_keys d) ∧
  dict_get 6 (setdefault_append 6 3 d) = Some [2; 3] ∧
  NoDup (dict_keys (setdefault_append 7 3 d)).
Proof.
  cbv zeta.
  assert (NoDup (dict_keys ([(5, [1]); (6, [2])] : dict Z (list Z)))) as Hd.
  { apply (bool_decide_unpack _). by vm_compute. }
  split; [exact Hd|].
  destruct (setdefault_append_lookup 6 3 ([(5, [1]); (6, [2])] : dict Z (list Z)))
    as (Hget & _).
  destruct (setdefault_append_lookup 7 3 ([(5, [1]); (6, [2])] : dict Z (list Z)))
    as (_ & _ & _ & Hkeys).
  split; [exact Hget|exact (Hkeys Hd)].
Defined.

Section Sorting.
Context {A : Type} (lt : A → A → bool).
Hypothesis lt_trans : ∀ a b c, lt a b = true → lt b c = true → lt a c = true.
Hypothesis lt_asym : ∀ a b, lt a b = true → lt b a = false.

Lemma ordered_nil : ordered lt [].
Proof. intros i j a b _ Hi. by rewrite lookup_nil in Hi. Qed.

Lemma ordered_cons (x : A) (l : list A) :
  ordered lt (x :: l) ↔ (∀ y, y ∈ l → lt y x = false) ∧ ordered lt l.
Proof.
  split.
  - intros Hord. split.
    + intros y [j Hj]%list_elem_of_lookup. by apply (Hord 0%nat (S j) x y); [lia|..].
    + intros i j a b Hij Hi Hj. by apply (Hord (S i) (S j) a b); [lia|..].
  - intros [Hx Hl] [|i] [|j] a b Hij Hi Hj; simpl in *; try lia.
    + injection Hi as <-. apply Hx. by eapply list_elem_of_lookup_2.
    + apply (Hl i j a b); [lia|done..].
Qed.

Lemma insert_sorted_perm (x : A) (l : list A) : insert_sorted lt x l ≡ₚ x :: l.
Proof.
  induction l as [|y l IH]; simpl; [done|].
  destruct (lt x y); [done|]. rewrite IH. apply Permutation_swap.
Qed.

Lemma insert_sorted_ordered (x : A) (l : list A) :
  ordered lt l → ordered lt (insert_sorted lt x l).
Proof.
  induction l as [|y l IH]; simpl; intros Hl.
  { apply ordered_cons. split; [by intros y ?%elem_of_nil|apply ordered_nil]. }
  apply ordered_cons in Hl as [Hy Hl].
  destruct (lt x y) eqn:Hxy.
  - apply ordered_cons. split; [|by apply ordered_cons].
    intros z [->|Hz]%elem_of_cons; [by apply lt_asym|].
    apply not_true_is_false. intros Hzx.
    specialize (Hy z Hz). by rewrite (lt_trans z x y) in Hy.
  - apply ordered_cons. split; [|by apply IH].
    intros z Hz. rewrite insert_sorted_perm in Hz.
    apply elem_of_cons in Hz as [->|Hz]; [done|by apply Hy].
Qed.

Lemma list_sort_perm_ordered (l : list A) :
  list_sort lt l ≡ₚ l ∧ ordered lt (list_sort lt l).
Proof.
  unfold list_sort.
  assert (∀ acc, ordered lt acc →
            foldl (λ acc x, insert_sorted lt x acc) acc l ≡ₚ acc ++ l ∧
            ordered lt (foldl (λ acc x, insert_sorted lt x acc) acc l)) as Hgen.
  { induction l as [|x l IH]; intros acc Hacc; simpl.
    - by rewrite app_nil_r.
    - destruct (IH (insert_sorted lt x acc)) as [Hp Ho]; [by apply insert_sorted_ordered|].
      split; [|done]. rewrite Hp, insert_sorted_perm.
      by rewrite <- Permutation_middle. }
  destruct (Hgen [] ordered_nil) as [Hp Ho]. done.
Qed.

End Sorting.

Lemma sort_photos_sorted (photos : list ref) (w : World) :
  ∃ sorted,
    sort_photos photos w = (Ok sorted, w) ∧
    sorted ≡ₚ photos ∧
    ordered (λ a b, Photo_lt (heap w !!! a) (heap w !!! b)) sorted.
Proof.
  eexists. split; [reflexivity|].
  apply list_sort_perm_ordered.
  - intros a b c. apply Photo_lt_trans.
  - intros a b. apply Photo_lt_asym.
Qed.





(** ** More on the simulation and on the execution of a plan *)

Lemma simulate_raise_state (cmd : Command) (s s' : Simulacrum) (e : exn) :
  simulate cmd s = (Raise e, s') → s' = s.
Proof.
  destruct cmd as [d|src dst|t].
  - rewrite MakeDirectory_simulate_eq. by case_bool_decide; intros [= <- <-].
  - rewrite Move_simulate_eq. by repeat case_bool_decide; intros [= <- <-].
  - rewrite Remove_simulate_eq. by repeat case_bool_decide; intros [= <- <-].
Qed.

(** X3. A simulation that raises has simulated the commands before the
    failing one, in their order, and stopped there: the error is the one of
    the first command that fails in the state its predecessors left, and
    that state is what remains. *)
Theorem simulate_all_first_failure (cmds : list Command) (s s' : Simulacrum) (e : exn) :
  simulate_all cmds s = (Raise e, s') →
  ∃ pre cmd post,
    cmds = pre ++ cmd :: post ∧
    simulate_all pre s = (Ok tt, s') ∧
    simulate cmd s' = (Raise e, s').
Proof.
  revert s. induction cmds as [|cmd cmds IH]; intros s; [done|].
  unfold simulate_all in *. rewrite forM__cons.
  destruct (simulate cmd s) as [[[]|e1] s1] eqn:Hcmd.
  - intros Hrest. destruct (IH _ Hrest) as (pre & c & post & -> & Hpre & Hc).
    exists (cmd :: pre), c, post. split; [done|]. split; [|done].
    by rewrite forM__cons, Hcmd.
  - intros [= -> ->]. pose proof (simulate_raise_state _ _ _ _ Hcmd) as ->.
    by exists [], cmd, cmds.
Qed.

Lemma simulate_all_first_failure_witness :
  let s : Simulacrum := [["photos"; "a.jpg"]] in
  let cmds := [MakeDirectory ["photos"; "2023-05"];
               Move ["photos"; "b.jpg"] ["photos"; "2023-05"; "b.jpg"];
               Remove ["photos"; "a.jpg"]] in
  simulate_all cmds s = (Raise FileNotFoundError, s ++ [["photos"; "2023-05"]]) ∧
  ∃ pre cmd post,
    cmds = pre ++ cmd :: post ∧
    simulate_all pre s = (Ok tt, s ++ [["photos"; "2023-05"]]) ∧
    simulate cmd (s ++ [["photos"; "2023-05"]])
      = (Raise FileNotFoundError, s ++ [["photos"; "2023-05"]]).
Proof.
  cbv zeta. split; [reflexivity|].
  apply (simulate_all_first_failure
           [MakeDirectory ["photos"; "2023-05"];
            Move ["photos"; "b.jpg"] ["photos"; "2023-05"; "b.jpg"];
            Remove ["photos"; "a.jpg"]] [["photos"; "a.jpg"]]).
  reflexivity.
Defined.

(** X4. Moving a file and moving it back succeeds twice and leaves a
    simulacrum with the same paths; moving it a second time without moving
    it back fails, the source being gone. *)
Theorem simulate_move_there_and_back (source dest : Path) (s : Simulacrum) :
  NoDup s → source ∈ s → dest ∉ s →
  ∃ s1 s2,
    simulate (Move source dest) s = (Ok tt, s1) ∧
    simulate (Move dest source) s1 = (Ok tt, s2) ∧
    NoDup s2 ∧ (∀ x, x ∈ s2 ↔ x ∈ s) ∧
    simulate (Move source dest) s1 = (Raise FileNotFoundError, s1).
Proof.
  intros Hs Hsrc Hdst.
  assert (source ≠ dest) as Hne by (by intros ->).
  assert (NoDup (s ++ [dest])) as Hs0 by by apply NoDup_snoc.
  set (s1 := remove_first source (s ++ [dest])).
  assert (NoDup s1) as Hs1 by by apply remove_first_NoDup.
  assert (∀ x, x ∈ s1 ↔ (x ∈ s ∧ x ≠ source) ∨ x = dest) as Hin1.
  { intros x. unfold s1. rewrite remove_first_elem_of by done.
    rewrite elem_of_app, list_elem_of_singleton. naive_solver. }
  assert (dest ∈ s1) as Hd1 by (apply Hin1; by right).
  assert (source ∉ s1) as Hs1' by (rewrite Hin1; naive_solver).
  exists s1, (remove_first dest (s1 ++ [source])). split_and!.
  - rewrite Move_simulate_eq. by rewrite bool_decide_eq_true_2, bool_decide_eq_false_2.
  - rewrite Move_simulate_eq. by rewrite bool_decide_eq_true_2, bool_decide_eq_false_2.
  - by apply remove_first_NoDup, NoDup_snoc.
  - intros x. rewrite remove_first_elem_of by by apply NoDup_snoc.
    rewrite elem_of_app, list_elem_of_singleton, Hin1.
    destruct (decide (x = source)) as [->|]; naive_solver.
  - rewrite Move_simulate_eq. by rewrite bool_decide_eq_false_2.
Qed.

Lemma simulate_move_there_and_back_witness :
  let s : Simulacrum := [["photos"; "a.jpg"]; ["photos"; "2023-05"]] in
  NoDup s ∧ ["photos"; "a.jpg"] ∈ s ∧ (["photos"; "2023-05"; "a.jpg"] ∉ s) ∧
  ∃ s1 s2,
    simulate (Move ["photos"; "a.jpg"] ["photos"; "2023-05"; "a.jpg"]) s = (Ok tt, s1) ∧
    simulate (Move ["photos"; "2023-05"; "a.jpg"] ["photos"; "a.jpg"]) s1 = (Ok tt, s2) ∧
    ∀ x, x ∈ s2 ↔ x ∈ s.
Proof.
  cbv zeta.
  assert (NoDup ([["photos"; "a.jpg"]; ["photos"; "2023-05"]] : Simulacrum)) as Hs
    by (apply (bool_decide_unpack _); vm_compute; exact I).
  assert (["photos"; "a.jpg"] ∈ ([["photos"; "a.jpg"]; ["photos"; "2023-05"]] : Simulacrum))
    as Hsrc by (apply (bool_decide_unpack _); vm_compute; exact I).
  assert (["photos"; "2023-05"; "a.jpg"] ∉
          ([["photos"; "a.jpg"]; ["photos"; "2023-05"]] : Simulacrum))
    as Hdst by (apply (bool_decide_unpack _); vm_compute; exact I).
  split; [exact Hs|]. split; [exact Hsrc|]. split; [exact Hdst|].
  destruct (simulate_move_there_and_back _ _ _ Hs Hsrc Hdst)
    as (s1 & s2 & H1 & H2 & _ & Hsame & _).
  exists s1, s2. split; [exact H1|]. split; [exact H2|exact Hsame].
Defined.

(** *** The simulacrum of a directory tree *)

Lemma find_entry_elem_of (nm : string) (node : Node) (entries : list (string * Node)) :
  NoDup entries.*1 → (find_entry nm entries = Some node ↔ (nm, node) ∈ entries).
Proof.
  induction entries as [|[nm' n'] entries IH]; simpl; intros Hnd.
  { split; [done|by intros ?%elem_of_nil]. }
  apply NoDup_cons in Hnd as [Hnm Hnd]. rewrite elem_of_cons.
  destruct (decide (nm = nm')) as [->|Hne].
  - split; [intros [= ->]; by left|]. intros [[= ->]|Hin]; [done|].
    exfalso. apply Hnm. apply list_elem_of_fmap. by exists (nm', node).
  - rewrite IH by done. split; [by right|]. by intros [[= -> ->]|?].
Qed.

Lemma create_simulacrum_node_elem (path q : Path) (entries : list (string * Node)) :
  q ∈ create_simulacrum_node path (Dir entries) ↔
    ∃ nm child, (nm, child) ∈ entries ∧
                (q = joinpath path nm ∨ q ∈ create_simulacrum_node (joinpath path nm) child).
Proof.
  induction entries as [|[nm child] entries IH].
  { split; [by intros ?%elem_of_nil|]. by intros (? & ? & ?%elem_of_nil & _). }
  rewrite create_simulacrum_node_Dir, elem_of_cons, elem_of_app, IH. split.
  - intros [->|[Hq|(nm' & child' & Hin & Hq)]].
    + exists nm, child. split; [left|by left].
    + exists nm, child. split; [left|by right].
    + exists nm', child'. split; [by right|done].
  - intros (nm' & child' & [[= -> ->]|Hin]%elem_of_cons & Hq).
    + destruct Hq; auto.
    + right. right. by exists nm', child'.
Qed.

Lemma fs_lookup_app (root : Node) (p q : Path) :
  fs_lookup root (p ++ q) = (fs_lookup root p ≫= (λ node, fs_lookup node q)).
Proof.
  revert root. induction p as [|c p IH]; intros root; simpl; [done|].
  destruct root as [f|entries]; [done|].
  destruct (find_entry c entries) as [node|]; [apply IH|done].
Qed.

Lemma find_entry_Some_elem_of (nm : string) (node : Node) (entries : list (string * Node)) :
  find_entry nm entries = Some node → (nm, node) ∈ entries.
Proof.
  induction entries as [|[nm' n'] entries IH]; simpl; [done|].
  destruct (decide (nm = nm')) as [->|Hne]; [intros [= ->]; left|].
  intros Hf. right. by apply IH.
Qed.

Lemma well_formed_lookup (root node : Node) (p : Path) :
  well_formed root → fs_lookup root p = Some node → well_formed node.
Proof.
  revert root. induction p as [|c p IH]; intros root Hwf; simpl; [by intros [= <-]|].
  destruct root as [f|entries]; [done|].
  destruct (find_entry c entries) as [child|] eqn:Hc; [|done].
  apply IH. apply well_formed_Dir in Hwf as [_ Hall].
  rewrite Forall_forall in Hall. apply (Hall (c, child)).
  by apply find_entry_Some_elem_of.
Qed.

(** What is listed below [path] is what the tree holds there. *)
Lemma create_simulacrum_node_lookup (node : Node) (path q : Path) :
  well_formed node →
  (q ∈ create_simulacrum_node path node ↔
     ∃ rest, rest ≠ [] ∧ q = path ++ rest ∧ is_Some (fs_lookup node rest)).
Proof.
  revert path q. induction node as [f|entries IH] using Node_induction; intros path q Hwf.
  { split; [by intros ?%elem_of_nil|]. intros ([|c rest] & Hne & _ & [n Hn]); done. }
  apply well_formed_Dir in Hwf as [Hnames Hall].
  rewrite Forall_forall in IH, Hall. rewrite create_simulacrum_node_elem. split.
  - intros (nm & child & Hin & [->|Hq]).
    + exists [nm]. split_and!; [done..|]. simpl.
      rewrite (proj2 (find_entry_elem_of nm child entries Hnames) Hin). by eexists.
    + apply (IH (nm, child) Hin) in Hq as (rest & Hne & -> & Hrest); [|by apply (Hall (nm, child))].
      exists (nm :: rest). split_and!; [done|unfold joinpath; by rewrite <- app_assoc|]. simpl.
      by rewrite (proj2 (find_entry_elem_of nm child entries Hnames) Hin).
  - intros ([|nm rest] & Hne & -> & Hrest); [done|]. simpl in Hrest.
    destruct (find_entry nm entries) as [child|] eqn:Hchild; [|by destruct Hrest].
    apply find_entry_Some_elem_of in Hchild as Hin.
    exists nm, child. split; [done|].
    destruct rest as [|c rest]; [by left|]. right.
    apply (IH (nm, child) Hin); [by apply (Hall (nm, child))|].
    exists (c :: rest). split_and!; [done| |done]. unfold joinpath. by rewrite <- app_assoc.
Qed.

(** X5. On a tree whose directories hold each name once, the simulacrum of
    a directory lists every path once, and it lists exactly the paths that
    exist strictly below the directory; any number of simulated commands
    later it still lists every path once. *)
Theorem create_simulacrum_lists_tree (w : World) (path : Path)
    (entries : list (string * Node)) :
  well_formed (fs w) →
  fs_lookup (fs w) path = Some (Dir entries) →
  ∃ s, create_simulacrum path w = (Ok s, w) ∧
       NoDup s ∧
       (∀ q, q ∈ s ↔ ∃ rest, rest ≠ [] ∧ q = path ++ rest ∧ fs_exists (fs w) q = true) ∧
       ∀ cmds, NoDup (simulate_all cmds s).2.
Proof.
  intros Hwf Hdir. pose proof (well_formed_lookup _ _ _ Hwf Hdir) as Hwfd.
  exists (create_simulacrum_node path (Dir entries)). split_and!.
  - unfold create_simulacrum, bind, gets; simpl. by rewrite Hdir.
  - by apply create_simulacrum_node_NoDup.
  - intros q. rewrite create_simulacrum_node_lookup by done.
    split; intros (rest & Hne & -> & Hrest); exists rest; (split_and!; [done..|]).
    + unfold fs_exists. rewrite fs_lookup_app, Hdir. simpl. by destruct Hrest as [n ->].
    + unfold fs_exists in Hrest. rewrite fs_lookup_app, Hdir in Hrest. simpl in Hrest.
      destruct (fs_lookup (Dir entries) rest); [by eexists|done].
  - intros cmds. by apply simulate_all_NoDup.
Qed.

Lemma create_simulacrum_lists_tree_witness :
  let w := initial_world Demo.root_conflict [] in
  well_formed (fs w) ∧
  create_simulacrum ["photos"] w =
    (Ok [["photos"; "2023-05"]; ["photos"; "2023-05"; "2023-05-01 10:00:00 001.jpg"];
         ["photos"; "img002.jpg"]], w).
Proof.
  cbv zeta.
  assert (well_formed (fs (initial_world Demo.root_conflict []))) as Hwf.
  { simpl. repeat split; apply (bool_decide_unpack _); by vm_compute. }
  split; [exact Hwf|].
  destruct (create_simulacrum_lists_tree (initial_world Demo.root_conflict [])
              ["photos"] _ Hwf eq_refl) as (s & Heq & _).
  rewrite Heq. vm_compute in Heq. by injection Heq as <-.
Defined.

(** *** Simulation and execution *)

(** X6. When the simulacrum and the file system agree on the paths of a
    command and the simulation of the command raises for a path that is
    missing or in the way, its execution raises the same error and changes
    no file.  ([Remove] is simulated by the name of its target and executed
    by its kind, so that [IsADirectoryError] is left out.) *)
Theorem simulate_failure_predicts_execute (cmd : Command) (s : Simulacrum) (w : World)
    (e : exn) :
  (∀ p, p ∈ command_paths cmd → agrees s (fs w) p) →
  (simulate cmd s).1 = Raise e → e ≠ IsADirectoryError →
  execute cmd w = (Raise e, set_trace (trace w ++ [EvExecute cmd]) w).
Proof.
  intros Hagree Hsim He.
  unfold execute, bind at 1, emit, modify. simpl.
  destruct cmd as [d|src dst|t].
  - rewrite MakeDirectory_simulate_eq in Hsim.
    case_bool_decide as Hd; simpl in Hsim; [|done]. injection Hsim as <-.
    apply (Hagree d) in Hd; [|set_solver].
    unfold MakeDirectory_execute, bind, exists_, gets; simpl. by rewrite Hd.
  - rewrite Move_simulate_eq in Hsim.
    unfold Move_execute, bind, exists_, gets; simpl.
    case_bool_decide as Hsrc.
    + case_bool_decide as Hdst; simpl in Hsim; [|done]. injection Hsim as <-.
      apply (Hagree src) in Hsrc; [|set_solver]. apply (Hagree dst) in Hdst; [|set_solver].
      rewrite Hsrc. simpl. by rewrite Hdst.
    + simpl in Hsim. injection Hsim as <-.
      destruct (fs_exists (fs w) src) eqn:Hex; [|done].
      exfalso. apply Hsrc. apply (Hagree src); [set_solver|done].
  - rewrite Remove_simulate_eq in Hsim.
    unfold Remove_execute, bind, exists_, gets; simpl.
    case_bool_decide as Ht.
    + case_bool_decide; simpl in Hsim; [|done]. by injection Hsim as <-.
    + simpl in Hsim. injection Hsim as <-.
      destruct (fs_exists (fs w) t) eqn:Hex; [|done].
      exfalso. apply Ht. apply (Hagree t); [set_solver|done].
Qed.

Lemma simulate_failure_predicts_execute_witness :
  let w := initial_world Demo.root_conflict [] in
  let cmd := Move ["photos"; "img002.jpg"] ["photos"; "2023-05"; "2023-05-01 10:00:00 001.jpg"] in
  let s : Simulacrum :=
    [["photos"; "2023-05"]; ["photos"; "2023-05"; "2023-05-01 10:00:00 001.jpg"];
     ["photos"; "img002.jpg"]] in
  (∀ p, p ∈ command_paths cmd → agrees s (fs w) p) ∧
  (simulate cmd s).1 = Raise FileExistsError ∧
  execute cmd w = (Raise FileExistsError, set_trace [EvExecute cmd] w).
Proof.
  cbv zeta.
  assert (∀ p, p ∈ command_paths
            (Move ["photos"; "img002.jpg"] ["photos"; "2023-05"; "2023-05-01 10:00:00 001.jpg"]) →
          agrees [["photos"; "2023-05"]; ["photos"; "2023-05"; "2023-05-01 10:00:00 001.jpg"];
                  ["photos"; "img002.jpg"]]
                 (fs (initial_world Demo.root_conflict [])) p) as Hagree.
  { intros p Hp. simpl in Hp.
    apply elem_of_cons in Hp as [->|Hp]; [|apply list_elem_of_singleton in Hp as ->];
      (split; [intros _; by vm_compute|intros _; apply (bool_decide_unpack _); by vm_compute]). }
  split; [exact Hagree|]. split; [reflexivity|].
  apply (simulate_failure_predicts_execute _ _ _ _ Hagree); [reflexivity|done].
Defined.

Lemma execute_eq (cmd : Command) (w : World) :
  execute cmd w =
    match cmd with
    | MakeDirectory d => MakeDirectory_execute d
    | Move s d => Move_execute s d
    | Remove t => Remove_execute t
    end (set_trace (trace w ++ [EvExecute cmd]) w).
Proof. reflexivity. Qed.

Lemma execute_executed (cmd : Command) (w : World) :
  executed (execute cmd w).2 = executed w ++ [cmd] ∧
  commands (execute cmd w).2 = commands w.
Proof.
  assert (∀ w0 (m : M World unit),
            preserves (λ w', trace w' = trace w0 ∧ commands w' = commands w0) m →
            ∀ w1, trace w1 = trace w0 → commands w1 = commands w0 →
                  trace (m w1).2 = trace w0 ∧ commands (m w1).2 = commands w0) as Hkeep.
  { intros w0 m Hm w1 Ht Hc. by apply Hm. }
  assert (∀ w0 dir f,
            preserves (λ w', trace w' = trace w0 ∧ commands w' = commands w0) (os_update dir f))
    as Hos.
  { intros w0 dir f. unfold os_update. apply preserves_bind; [apply preserves_gets|].
    intros root. destruct (fs_update root dir f); [|apply preserves_raise].
    by apply preserves_modify. }
  rewrite execute_eq.
  set (w1 := set_trace _ w).
  assert (trace (match cmd with
                 | MakeDirectory d => MakeDirectory_execute d
                 | Move s d => Move_execute s d
                 | Remove t => Remove_execute t
                 end w1).2 = trace w1 ∧
          commands (match cmd with
                    | MakeDirectory d => MakeDirectory_execute d
                    | Move s d => Move_execute s d
                    | Remove t => Remove_execute t
                    end w1).2 = commands w1) as [Ht Hc].
  { apply Hkeep; [|done..]. destruct cmd as [d|src dst|t].
    - unfold MakeDirectory_execute, exists_, mkdir.
      apply preserves_bind; [apply preserves_gets|]. intros [|]; [apply preserves_raise|apply Hos].
    - unfold Move_execute, exists_, rename.
      apply preserves_bind; [apply preserves_gets|]. intros [|]; [|apply preserves_raise].
      apply preserves_bind; [apply preserves_gets|]. intros [|]; [apply preserves_raise|].
      apply preserves_bind; [apply preserves_gets|]. intros [n|]; [|apply preserves_raise].
      apply preserves_bind; [apply preserves_gets|]. intros root.
      destruct (fs_update root _ _) as [root'|]; [|apply preserves_raise].
      destruct (fs_update root' _ _) as [root''|]; [|apply preserves_raise].
      by apply preserves_modify.
    - unfold Remove_execute, exists_, is_dir, unlink.
      apply preserves_bind; [apply preserves_gets|]. intros [|]; [|apply preserves_raise].
      apply preserves_bind; [apply preserves_gets|]. intros [|]; [apply preserves_raise|apply Hos]. }
  unfold executed. rewrite Ht, Hc. unfold w1. simpl. by rewrite omap_app.
Qed.

(** X7. Execution attempts the commands of the plan in their order, and
    stops at the first that raises: what has been executed is a beginning
    of the plan, the whole plan when execution returns, and at least the
    failing command when it raises.  The plan itself is not changed. *)
Theorem Organizer_execute_prefix (self : Organizer) (w : World) :
  ∃ n : nat,
    executed (Organizer_execute self w).2 = executed w ++ take n (commands w) ∧
    commands (Organizer_execute self w).2 = commands w ∧
    match (Organizer_execute self w).1 with
    | Ok _ => n = length (commands w)
    | Raise _ => (0 < n ≤ length (commands w))%nat
    end.
Proof.
  unfold Organizer_execute, bind, gets. simpl.
  assert (∀ cmds w0, ∃ n : nat,
            executed (forM_ cmds execute w0).2 = executed w0 ++ take n cmds ∧
            commands (forM_ cmds execute w0).2 = commands w0 ∧
            match (forM_ cmds execute w0).1 with
            | Ok _ => n = length cmds
            | Raise _ => (0 < n ≤ length cmds)%nat
            end) as Hloop.
  { induction cmds as [|cmd cmds IH]; intros w0.
    { exists 0%nat. simpl. by rewrite app_nil_r. }
    rewrite forM__cons. destruct (execute_executed cmd w0) as [Hex Hc].
    destruct (execute cmd w0) as [[[]|e] w1]; simpl in *.
    - destruct (IH w1) as (n & Hn & Hcn & Hr). exists (S n). simpl.
      split_and!; [by rewrite Hn, Hex, <- app_assoc|congruence|].
      destruct (forM_ cmds execute w1).1; lia.
    - exists 1%nat. split; [exact Hex|]. split; [exact Hc|simpl; lia]. }
  apply Hloop.
Qed.

(** ** Duplicates once more, and the prompts *)



Section Prompts.
Context {PF : Platform}.

Lemma datetime_uncertain_loop_answered (photo : ref) (answer : option string)
    (lines : list string) (w : World) :
  answer_in answer ["k"; "i"; "a"] = true →
  datetime_uncertain_loop photo answer lines w = (Ok answer, set_stdin lines w).
Proof. intros Ha. destruct lines; simpl; by rewrite Ha. Qed.

(** The loop of [datetime_uncertain]: what it leaves alone, what it reads
    and what it may change. *)
Lemma datetime_uncertain_loop_spec (photo : ref) (answer : option string)
    (lines : list string) (w : World) :
  ∃ r w', datetime_uncertain_loop photo answer lines w = (r, w') ∧
    fs w' = fs w ∧ commands w' = commands w ∧ trace w' = trace w ∧
    (∃ consumed, lines = consumed ++ stdin w') ∧
    (heap w' = heap w ∨
     ∃ line d, line ∈ lines ∧ fromisoformat line = Some d ∧ r = Ok (Some "i") ∧
               heap w' = <[photo := set_datetime d User (heap w !!! photo)]> (heap w)) ∧
    match r with
    | Ok a => answer_in a ["k"; "i"; "a"] = true
    | Raise e => e = EOFError
    end.
Proof.
  remember (length lines) as n eqn:Hn. revert answer lines w Hn.
  induction (lt_wf n) as [n _ IH]. intros answer lines w ->.
  destruct (answer_in answer ["k"; "i"; "a"]) eqn:Ha.
  { rewrite datetime_uncertain_loop_answered by done.
    do 2 eexists. split; [done|]. split_and!; try done; [by exists []|by left]. }
  destruct lines as [|line lines]; simpl; rewrite Ha.
  { do 2 eexists. split; [done|]. split_and!; try done; [by exists []|by left]. }
  case_bool_decide as Hi.
  - destruct lines as [|datetime_input lines].
    { do 2 eexists. split; [done|]. split_and!; try done; [by exists [line]|by left]. }
    destruct (fromisoformat datetime_input) as [d|] eqn:Hd.
    + rewrite datetime_uncertain_loop_answered by (by rewrite Hi).
      do 2 eexists. split; [done|]. simpl. split_and!; try done.
      * by exists [line; datetime_input].
      * right. exists datetime_input, d. rewrite Hi. split_and!; try done. set_solver.
      * by rewrite Hi.
    + destruct (IH (length lines) ltac:(simpl; lia) None lines w eq_refl)
        as (r & w' & -> & ? & ? & ? & [consumed Hc] & Hheap & Hr).
      do 2 eexists. split; [done|]. split_and!; try done.
      * exists (line :: datetime_input :: consumed). by rewrite Hc at 1.
      * destruct Hheap as [?|(l & d & ? & ? & ? & ?)]; [by left|].
        right. exists l, d. split_and!; try done. set_solver.
  - destruct (IH (length lines) ltac:(simpl; lia) (Some (lower line)) lines w eq_refl)
      as (r & w' & -> & ? & ? & ? & [consumed Hc] & Hheap & Hr).
    do 2 eexists. split; [done|]. split_and!; try done.
    + exists (line :: consumed). by rewrite Hc at 1.
    + destruct Hheap as [?|(l & d & ? & ? & ? & ?)]; [by left|].
      right. exists l, d. split_and!; try done. set_solver.
Qed.

Lemma duplicate_found_loop_answered (answer : option string) (lines : list string) :
  answer_in answer ["k"; "d"; "a"] = true →
  duplicate_found_loop answer lines = (Ok answer, lines).
Proof. intros Ha. destruct lines; simpl; by rewrite Ha. Qed.

Lemma duplicate_found_loop_skips (answer : option string)
    (skipped : list string) (line : string) (rest : list string) :
  answer_in answer ["k"; "d"; "a"] = false →
  Forall (λ l, recognized ["k"; "d"; "a"] l = false) skipped →
  recognized ["k"; "d"; "a"] line = true →
  duplicate_found_loop answer (skipped ++ line :: rest) = (Ok (Some (lower line)), rest).
Proof.
  intros Ha Hskip Hline. revert answer Ha.
  induction Hskip as [|l skipped Hl _ IH]; intros answer Ha; simpl; rewrite Ha.
  - by apply duplicate_found_loop_answered.
  - by apply IH.
Qed.

Lemma duplicate_found_loop_eof (answer : option string) (lines : list string) :
  answer_in answer ["k"; "d"; "a"] = false →
  Forall (λ l, recognized ["k"; "d"; "a"] l = false) lines →
  duplicate_found_loop answer lines = (Raise EOFError, []).
Proof.
  intros Ha Hlines. revert answer Ha.
  induction Hlines as [|l lines Hl _ IH]; intros answer Ha; simpl; rewrite Ha; [done|].
  by apply IH.
Qed.

Lemma duplicate_found_eq (self : UserPrompter) (original duplicate : ref) (w : World) :
  duplicate_found self original duplicate w =
    let w1 := set_trace (trace w ++ [EvPromptDuplicate original duplicate]) w in
    match duplicate_found_loop (assume self) (stdin w) with
    | (Ok answer, lines) =>
        let w2 := set_stdin lines w1 in
        if bool_decide (answer = Some "k") then (Ok None, w2)
        else if bool_decide (answer = Some "d")
             then (Ok (Some (Remove (p_path (heap w !!! duplicate)))), w2)
        else if bool_decide (answer = Some "a")
             then (Raise (SystemExit "Duplicate found. Aborted."), w2)
        else (Ok None, w2)
    | (Raise e, lines) => (Raise e, set_stdin lines w1)
    end.
Proof.
  unfold duplicate_found, bind, emit, modify, get_photo, gets, ret, raise; simpl.
  destruct (duplicate_found_loop _ _) as [[answer|e] lines]; [|done].
  by repeat case_bool_decide.
Qed.

End Prompts.

(** X9. The prompt for an uncertain time changes no file, no command and
    no photo but the one it asks about; of that photo it changes at most
    the time, and then to a time read from a line of the input, with the
    source [User].  It takes its lines from the front of the input, and it
    ends by returning, by [SystemExit] or, at the end of the input, by
    [EOFError].  With an assumed answer it reads nothing and changes no
    photo. *)
Theorem datetime_uncertain_frame `{PF : Platform} (self : UserPrompter) (photo : ref)
    (w : World) :
  ∃ r w', datetime_uncertain self photo w = (r, w') ∧
    fs w' = fs w ∧ commands w' = commands w ∧
    trace w' = trace w ++ [EvPromptDatetime photo] ∧
    (∃ consumed, stdin w = consumed ++ stdin w') ∧
    (heap w' = heap w ∨
     ∃ line d, line ∈ stdin w ∧ fromisoformat line = Some d ∧ r = Ok tt ∧
               heap w' = <[photo := set_datetime d User (heap w !!! photo)]> (heap w)) ∧
    (r = Ok tt ∨ r = Raise EOFError ∨
     r = Raise (SystemExit "Photo's datetime uncertain. Aborted.")) ∧
    (answer_in (assume self) ["k"; "i"; "a"] = true → stdin w' = stdin w ∧ heap w' = heap w).
Proof.
  unfold datetime_uncertain, bind, emit, modify, ret, raise. simpl.
  set (w1 := set_trace _ w).
  destruct (datetime_uncertain_loop_spec photo (assume self) (stdin w) w1)
    as (r & w' & Hloop & Hfs & Hcmds & Htrace & Hin & Hheap & Hr).
  pose proof (datetime_uncertain_loop_answered photo (assume self) (stdin w) w1) as Hassumed.
  change (stdin w1) with (stdin w). rewrite Hloop in *. destruct r as [answer|e].
  - case_bool_decide as Ha; do 2 eexists; (split; [done|]);
      (split_and!; try done; [|by auto|]).
    + destruct Hheap as [?|(l & d & ? & ? & [= ->] & ?)]; [by left|done].
    + intros Has. specialize (Hassumed Has). by injection Hassumed as _ ->.
    + destruct Hheap as [?|(l & d & ? & ? & [= ->] & ?)]; [by left|].
      right. by exists l, d.
    + intros Has. specialize (Hassumed Has). by injection Hassumed as _ ->.
  - subst e. do 2 eexists. split; [done|]. split_and!; try done; [|by auto|].
    + destruct Hheap as [?|(l & d & ? & ? & [=] & ?)]. by left.
    + intros Has. by specialize (Hassumed Has).
Qed.

(** X10. The prompt for a duplicate, without an assumed answer, skips the
    lines of the input that answer nothing and decides by the first line
    that is, in any case of its letters, one of k, d and a: it keeps the
    duplicate, returns the removal of the duplicate (never of the
    original), or leaves with [SystemExit].  The lines after that one stay
    in the input.  When no line answers, it raises [EOFError]. *)
Theorem duplicate_found_answer (self : UserPrompter)
    (original duplicate : ref) (w : World) :
  answer_in (assume self) ["k"; "d"; "a"] = false →
  let prompted := set_trace (trace w ++ [EvPromptDuplicate original duplicate]) w in
  (∀ skipped line rest,
     stdin w = skipped ++ line :: rest →
     Forall (λ l, recognized ["k"; "d"; "a"] l = false) skipped →
     (lower line = "k" →
      duplicate_found self original duplicate w = (Ok None, set_stdin rest prompted)) ∧
     (lower line = "d" →
      duplicate_found self original duplicate w =
        (Ok (Some (Remove (p_path (heap w !!! duplicate)))), set_stdin rest prompted)) ∧
     (lower line = "a" →
      duplicate_found self original duplicate w =
        (Raise (SystemExit "Duplicate found. Aborted."), set_stdin rest prompted))) ∧
  (Forall (λ l, recognized ["k"; "d"; "a"] l = false) (stdin w) →
   duplicate_found self original duplicate w = (Raise EOFError, set_stdin [] prompted)).
Proof.
  intros Hassume prompted. split.
  - intros skipped line rest Hstdin Hskip.
    assert (∀ a, a ∈ ["k"; "d"; "a"] → lower line = a →
                 duplicate_found_loop (assume self) (stdin w) = (Ok (Some a), rest)) as Hloop.
    { intros a Ha Hline. rewrite Hstdin, <- Hline.
      apply duplicate_found_loop_skips; [done..|].
      unfold recognized. rewrite Hline. by apply bool_decide_eq_true_2. }
    split_and!; intros Hline;
      (assert (lower line ∈ ["k"; "d"; "a"]) as Hin by (rewrite Hline; set_solver));
      rewrite duplicate_found_eq, (Hloop (lower line) Hin eq_refl), Hline; done.
  - intros Hnone. rewrite duplicate_found_eq.
    by rewrite (duplicate_found_loop_eof _ _ Hassume Hnone).
Qed.

Lemma duplicate_found_answer_witness :
  let w := set_stdin ["what?"; "D"; "k"] Demo.listing_world in
  let self := UserPrompter_init None in
  answer_in (assume self) ["k"; "d"; "a"] = false ∧
  duplicate_found self 0 1 w =
    (Ok (Some (Remove ["photos"; "a.jpg"])),
     set_stdin ["k"] (set_trace [EvPromptDuplicate 0 1] w)).
Proof.
  cbv zeta. split; [reflexivity|].
  destruct (duplicate_found_answer (UserPrompter_init None) 0%nat 1%nat
              (set_stdin ["what?"; "D"; "k"] Demo.listing_world) eq_refl) as [Hanswer _].
  destruct (Hanswer ["what?"] "D" ["k"] eq_refl) as (_ & Hd & _).
  { constructor; [reflexivity|constructor]. }
  rewrite (Hd eq_refl). reflexivity.
Defined.

(** ** The names the planner gives *)

Section Strings.










Lemma rfind_lt (c : ascii) (s : string) (i : nat) :
  rfind c s = Some i → (i < String.length s)%nat.
Proof.
  revert i. induction s as [|x s IH]; intros i; simpl; [done|].
  destruct (rfind c s) as [j|].
  - intros [= <-]. specialize (IH j eq_refl). lia.
  - destruct (Ascii.eqb x c); [|done]. intros [= <-]. lia.
Qed.









End Strings.



(** ** What the planner plans *)

Section DictEntries.
Context {K V : Type} `{EqDecision K}.

Lemma dict_get_Some_elem_of (k : K) (v : V) (d : dict K V) :
  dict_get k d = Some v → (k, v) ∈ d.
Proof.
  induction d as [|[k' v'] d IH]; simpl; [done|].
  destruct (decide (k = k')) as [->|Hne]; [intros [= ->]; left|].
  intros Hget. right. by apply IH.
Qed.

Lemma dict_set_elem_of (k k' : K) (v v' : V) (d : dict K V) :
  (k', v') ∈ dict_set k v d → (k' = k ∧ v' = v) ∨ (k', v') ∈ d.
Proof.
  induction d as [|[k0 v0] d IH]; simpl.
  { intros [= -> ->]%list_elem_of_singleton. by left. }
  destruct (decide (k = k0)) as [->|Hne].
  - intros [[= -> ->]|Hin]%elem_of_cons; [by left|]. right. by right.
  - intros [[= -> ->]|Hin]%elem_of_cons; [right; by left|].
    destruct (IH Hin) as [?|?]; [by left|]. right. by right.
Qed.

End DictEntries.

Lemma setdefault_append_elem_of {K A} `{EqDecision K} (k k' : K) (x y : A) (l : list A)
    (d : dict K (list A)) :
  (k', l) ∈ setdefault_append k x d → y ∈ l →
  (k' = k ∧ y = x) ∨ ∃ l', (k', l') ∈ d ∧ y ∈ l'.
Proof.
  unfold setdefault_append. destruct (dict_get k d) as [l0|] eqn:Hget.
  - intros [[-> ->]|Hin]%dict_set_elem_of Hy; [|by eauto].
    apply elem_of_app in Hy as [Hy| ->%list_elem_of_singleton]; [|by left].
    right. exists l0. split; [|done]. by apply dict_get_Some_elem_of.
  - intros [Hin|[= -> ->]%list_elem_of_singleton]%elem_of_app Hy; [by eauto|].
    apply list_elem_of_singleton in Hy as ->. by left.
Qed.

(** The directories among the children of a directory are among the paths
    it lists. *)
Lemma fs_is_dir_listed (root : Node) (p : Path) (nm : string) (es : list (string * Node)) :
  fs_lookup root p = Some (Dir es) → fs_is_dir root (joinpath p nm) = true →
  joinpath p nm ∈ (λ e, joinpath p e.1) <$> es.
Proof.
  intros Hp. unfold fs_is_dir, joinpath. rewrite fs_lookup_app, Hp. simpl.
  destruct (find_entry nm es) as [node|] eqn:Hnm; [|done]. intros _.
  apply find_entry_Some_elem_of in Hnm.
  apply (list_elem_of_fmap_2 (λ e : string * Node, p ++ [e.1])) in Hnm. done.
Qed.

Lemma dict_keys_elem_of {K V} (k : K) (d : dict K V) :
  k ∈ dict_keys d ↔ ∃ v, (k, v) ∈ d.
Proof.
  unfold dict_keys. rewrite list_elem_of_fmap. split.
  - intros ([k' v] & -> & Hin). by exists v.
  - intros (v & Hin). by exists (k, v).
Qed.

Lemma dict_set_keys {K V} `{EqDecision K} (k k' : K) (v : V) (d : dict K V) :
  k' ∈ dict_keys (dict_set k v d) → k' = k ∨ k' ∈ dict_keys d.
Proof.
  rewrite !dict_keys_elem_of. intros (v' & [[-> ->]|Hin]%dict_set_elem_of); [by left|].
  right. by exists v'.
Qed.

Lemma setdefault_append_keys {K A} `{EqDecision K} (k k' : K) (x : A) (d : dict K (list A)) :
  k' ∈ dict_keys (setdefault_append k x d) → k' = k ∨ k' ∈ dict_keys d.
Proof.
  unfold setdefault_append. destruct (dict_get k d) as [l|]; [apply dict_set_keys|].
  unfold dict_keys. rewrite fmap_app, elem_of_app. simpl.
  intros [?| ->%list_elem_of_singleton]; [by right|by left].
Qed.

Section PlanSafety.
Context {PF : Platform} (self : Organizer) (root : Node) (ok : Command → Prop)
        (quiet : Prop).
Hypothesis quiet_datetime :
  quiet → answer_in (assume (prompter self)) ["k"; "i"; "a"] = true.
Hypothesis quiet_duplicate :
  quiet → answer_in (assume (prompter self)) ["k"; "d"; "a"] = true.

Local Abbreviation grows := (grows ok quiet).
Local Abbreviation stable := (stable ok quiet).
Local Abbreviation triple := (triple root ok quiet).
Local Abbreviation loose := (loose self root).
Local Abbreviation filed := (filed self root).

Lemma grows_refl (w : World) : grows w w.
Proof.
  split_and!; [done|by eauto| |by exists []|done]. exists []. by rewrite app_nil_r.
Qed.

Lemma grows_trans (w1 w2 w3 : World) : grows w1 w2 → grows w2 w3 → grows w1 w3.
Proof.
  intros (Hfs1 & Hheap1 & (more1 & Hc1 & Hs1) & (in1 & Hin1) & Hq1)
         (Hfs2 & Hheap2 & (more2 & Hc2 & Hs2) & (in2 & Hin2) & Hq2).
  split_and!.
  - congruence.
  - intros r p Hp. destruct (Hheap1 r p Hp) as (p' & Hp' & Hpath').
    destruct (Hheap2 r p' Hp') as (p'' & Hp'' & Hpath''). exists p''. split; congruence.
  - exists (more1 ++ more2). rewrite Hc2, Hc1, app_assoc. split; [done|].
    by apply Forall_app.
  - exists (in1 ++ in2). by rewrite Hin1, Hin2, app_assoc.
  - intros Hq. by rewrite (Hq2 Hq), (Hq1 Hq).
Qed.

Lemma grows_set_trace (w : World) (t : list Event) : grows w (set_trace t w).
Proof. split_and!; [done|by eauto| |by exists []|done]. exists []. by rewrite app_nil_r. Qed.

Lemma grows_set_stdin (w : World) (consumed rest : list string) :
  stdin w = consumed ++ rest → (quiet → consumed = []) → grows w (set_stdin rest w).
Proof.
  intros Hin Hq. split_and!; [done|by eauto| |by exists consumed|].
  - exists []. by rewrite app_nil_r.
  - intros ->%Hq. done.
Qed.

Lemma grows_command (w : World) (cmd : Command) :
  ok cmd → grows w (set_commands (commands w ++ [cmd]) w).
Proof.
  intros Hcmd. split_and!; [done|by eauto| |by exists []|done].
  exists [cmd]. split; [done|]. by apply Forall_singleton.
Qed.

Lemma grows_update (w : World) (r : ref) (f : Photo → Photo) :
  (∀ p, p_path (f p) = p_path p) →
  grows w (set_heap (<[r := f (heap w !!! r)]> (heap w)) w).
Proof.
  intros Hf. split_and!; [done| | |by exists []|done]; [|exists []; by rewrite app_nil_r].
  intros r' p Hp. simpl. destruct (decide (r = r')) as [<-|Hne].
  - exists (f p). rewrite (list_lookup_total_correct _ _ _ Hp). split; [|done].
    apply list_lookup_insert_eq. by eapply lookup_lt_Some.
  - exists p. split; [|done]. by rewrite list_lookup_insert_ne.
Qed.

Lemma grows_alloc (w : World) (p : Photo) : grows w (set_heap (heap w ++ [p]) w).
Proof.
  split_and!; [done| | |by exists []|done]; [|exists []; by rewrite app_nil_r].
  intros r p' Hp'. exists p'. split; [|done]. simpl. by apply lookup_app_l_Some.
Qed.

Lemma stable_and (P Q : World → Prop) : stable P → stable Q → stable (λ w, P w ∧ Q w).
Proof. intros HP HQ w w' Hg [? ?]. split; [by eapply HP|by eapply HQ]. Qed.

Lemma stable_pure (φ : Prop) : stable (λ _, φ).
Proof. by intros w w' _ ?. Qed.

Lemma stable_photo_at (P : Path → Prop) (r : ref) : stable (λ w, photo_at P w r).
Proof.
  intros w w' (_ & Hheap & _) (p & Hp & HP).
  destruct (Hheap r p Hp) as (p' & Hp' & Hpath). exists p'. split; [done|]. by rewrite Hpath.
Qed.

Lemma stable_photos_at (P : Path → Prop) (l : list ref) :
  stable (λ w, ∀ r, r ∈ l → photo_at P w r).
Proof. intros w w' Hg Hl r Hr. eapply (stable_photo_at P r); [done|]. by apply Hl. Qed.

Lemma stable_dict_all (P : date → Path → Prop) (d : dict date (list ref)) :
  stable (λ w, dict_all P w d).
Proof.
  intros w w' Hg Hd month l r Hl Hr. eapply (stable_photo_at (P month) r); [done|].
  by eapply Hd.
Qed.

Lemma months_ready_app (months : list date) (mkdirs more : list Command) :
  months_ready self root months mkdirs → months_ready self root months (mkdirs ++ more).
Proof.
  intros Hready month Hmonth. destruct (Hready month Hmonth) as [?|?]; [by left|].
  right. apply elem_of_app. by left.
Qed.

Lemma stable_months_ready (c0 : list Command) (months : list date) :
  stable (planned_since c0 (months_ready self root months)).
Proof.
  intros w w' (_ & _ & (more & Hc & _) & _) (mk & Hmk & Hready).
  exists (mk ++ more). split; [by rewrite Hc, Hmk, app_assoc|]. by apply months_ready_app.
Qed.

Ltac stability :=
  repeat (cbv beta;
          first [ apply stable_and | apply stable_dict_all | apply stable_photos_at
                | apply stable_photo_at | apply stable_months_ready | apply stable_pure ]).

(** *** The rules *)

Lemma triple_conseq {A} (P P' : World → Prop) (Q Q' : A → World → Prop) (m : M World A) :
  (∀ w, fs w = root → P' w → P w) → (∀ a w, fs w = root → Q a w → Q' a w) →
  triple P m Q → triple P' m Q'.
Proof.
  intros HP HQ Hm w Hfs Hw. destruct (Hm w Hfs (HP w Hfs Hw)) as [Hg Hq].
  split; [done|]. intros a Ha. apply HQ; [|by apply Hq].
  destruct Hg as (-> & _). done.
Qed.

Lemma triple_ret {A} (P : World → Prop) (a : A) (Q : A → World → Prop) :
  (∀ w, fs w = root → P w → Q a w) → triple P (ret a) Q.
Proof.
  intros HQ w Hfs Hw. split; [apply grows_refl|]. intros a' [= <-]. by apply HQ.
Qed.

Lemma triple_raise {A} (P : World → Prop) (e : exn) (Q : A → World → Prop) :
  triple P (raise e) Q.
Proof. intros w Hfs Hw. split; [apply grows_refl|done]. Qed.

Lemma triple_gets {A} (P : World → Prop) (f : World → A) (Q : A → World → Prop) :
  (∀ w, fs w = root → P w → Q (f w) w) → triple P (gets f) Q.
Proof.
  intros HQ w Hfs Hw. split; [apply grows_refl|]. intros a' [= <-]. by apply HQ.
Qed.

Lemma triple_modify (P : World → Prop) (f : World → World) (Q : unit → World → Prop) :
  (∀ w, fs w = root → P w → grows w (f w) ∧ Q tt (f w)) → triple P (modify f) Q.
Proof.
  intros Hf w Hfs Hw. destruct (Hf w Hfs Hw) as [Hg Hq]. split; [done|].
  by intros [] _.
Qed.

(** Sequencing; what was known before the first step and is stable is
    still known after it. *)
Lemma triple_bind {A B} (P : World → Prop) (Q : A → World → Prop) (Q' : B → World → Prop)
    (m : M World A) (k : A → M World B) :
  stable P → triple P m Q → (∀ a, triple (λ w, P w ∧ Q a w) (k a) Q') →
  triple P (bind m k) Q'.
Proof.
  intros HP Hm Hk w Hfs Hw. unfold bind. destruct (Hm w Hfs Hw) as [Hg Hq].
  destruct (m w) as [[a|e] w1] eqn:Hmw; simpl in *; [|done].
  assert (fs w1 = root) as Hfs1 by (destruct Hg as (-> & _); done).
  destruct (Hk a w1 Hfs1) as [Hg' Hq']; [split; [by eapply HP|by apply Hq]|].
  split; [by eapply grows_trans|done].
Qed.

(** A loop, with what holds after the elements gone through so far. *)
Lemma triple_foldM_prefix {A B} (J : list A → B → World → Prop) (body : B → A → M World B)
    (xs : list A) :
  (∀ pre x post acc, xs = pre ++ x :: post →
     triple (J pre acc) (body acc x) (J (pre ++ [x]))) →
  ∀ acc, triple (J [] acc) (foldM body acc xs) (J xs).
Proof.
  intros Hbody.
  assert (∀ rest pre acc, xs = pre ++ rest →
            triple (J pre acc) (foldM body acc rest) (J xs)) as Hgen.
  { induction rest as [|x rest IH]; intros pre acc Hxs.
    - rewrite app_nil_r in Hxs. subst pre. by apply triple_ret.
    - intros w Hfs Hw. simpl. unfold bind.
      destruct (Hbody pre x rest acc Hxs w Hfs Hw) as [Hg Hq].
      destruct (body acc x w) as [[acc'|e] w1] eqn:Hb; simpl in *; [|done].
      assert (fs w1 = root) as Hfs1 by (destruct Hg as (-> & _); done).
      destruct (IH (pre ++ [x]) acc' ltac:(by rewrite <- app_assoc) w1 Hfs1 (Hq _ eq_refl))
        as [Hg' Hq'].
      split; [by eapply grows_trans|done]. }
  intros acc. by apply (Hgen xs []).
Qed.

(** A loop that keeps [J]. *)
Lemma triple_foldM {A B} (J : B → World → Prop) (body : B → A → M World B) (xs : list A) :
  (∀ acc x, x ∈ xs → triple (J acc) (body acc x) J) →
  ∀ acc, triple (J acc) (foldM body acc xs) J.
Proof.
  intros Hbody. apply (triple_foldM_prefix (λ _, J)).
  intros pre x post acc ->. apply Hbody. set_solver.
Qed.

Lemma triple_forM_ {A} (J : World → Prop) (body : A → M World unit) (xs : list A) :
  (∀ x, x ∈ xs → triple J (body x) (λ _, J)) →
  triple J (forM_ xs body) (λ _, J).
Proof.
  induction xs as [|x xs IH]; intros Hbody; [by apply triple_ret|].
  intros w Hfs Hw. simpl. unfold bind.
  destruct (Hbody x ltac:(set_solver) w Hfs Hw) as [Hg Hq].
  destruct (body x w) as [[[]|e] w1] eqn:Hb; simpl in *; [|done].
  assert (fs w1 = root) as Hfs1 by (destruct Hg as (-> & _); done).
  destruct (IH ltac:(intros; apply Hbody; set_solver) w1 Hfs1 (Hq _ eq_refl)) as [Hg' Hq'].
  split; [by eapply grows_trans|done].
Qed.

(** Sequencing after a step whose result does not depend on the state. *)
Lemma triple_bind_pure {A B} (P : World → Prop) (φ : A → Prop) (Q' : B → World → Prop)
    (m : M World A) (k : A → M World B) :
  stable P → triple P m (λ a _, φ a) → (∀ a, φ a → triple P (k a) Q') →
  triple P (bind m k) Q'.
Proof.
  intros HP Hm Hk. apply (triple_bind P (λ a _, φ a)); [done..|].
  intros a w Hfs [Hw Ha]. by apply Hk.
Qed.

Lemma triple_weaken {A} (P : World → Prop) (Q : A → World → Prop) (m : M World A) :
  triple (λ _, True) m Q → triple P m Q.
Proof. apply triple_conseq; done. Qed.

Lemma triple_forget {A} (P : World → Prop) (Q : A → World → Prop) (m : M World A) :
  triple P m Q → triple P m (λ _ _, True).
Proof. apply triple_conseq; done. Qed.

(** What is stable can be carried around a computation. *)
Lemma triple_frame {A} (F P : World → Prop) (Q : A → World → Prop) (m : M World A) :
  stable F → triple P m Q → triple (λ w, F w ∧ P w) m (λ a w, F w ∧ Q a w).
Proof.
  intros HF Hm w Hfs [Hf Hw]. destruct (Hm w Hfs Hw) as [Hg Hq]. split; [done|].
  intros a Ha. split; [by eapply HF|by apply Hq].
Qed.

(** *** The primitives *)

Lemma triple_emit (P : World → Prop) (e : Event) : triple P (emit e) (λ _ _, True).
Proof. apply triple_modify. intros w _ _. split; [apply grows_set_trace|done]. Qed.

Lemma triple_commands_append (P : World → Prop) (cmd : Command) :
  ok cmd → triple P (commands_append cmd) (λ _ _, True).
Proof. intros Hcmd. apply triple_modify. intros w _ _. split; [by apply grows_command|done]. Qed.

Lemma triple_update_photo (P : World → Prop) (r : ref) (f : Photo → Photo) :
  (∀ p, p_path (f p) = p_path p) → triple P (update_photo r f) (λ _ _, True).
Proof. intros Hf. apply triple_modify. intros w _ _. split; [by apply grows_update|done]. Qed.

Lemma triple_get_photo (P : World → Prop) (Pp : Path → Prop) (r : ref) :
  (∀ w, P w → photo_at Pp w r) → triple P (get_photo r) (λ p _, Pp (p_path p)).
Proof.
  intros HP. apply triple_gets. intros w _ Hw. destruct (HP w Hw) as (p & Hp & Hpath).
  by rewrite (list_lookup_total_correct _ _ _ Hp).
Qed.

Lemma triple_is_dir (P : World → Prop) (p : Path) :
  triple P (is_dir p) (λ b _, b = fs_is_dir root p).
Proof. apply triple_gets. by intros w -> _. Qed.

Lemma triple_is_file (P : World → Prop) (p : Path) :
  triple P (is_file p) (λ b _, b = fs_is_file root p).
Proof. apply triple_gets. by intros w -> _. Qed.

Lemma triple_iterdir (P : World → Prop) (p : Path) :
  triple P (iterdir p)
         (λ children _, ∃ es, fs_lookup root p = Some (Dir es) ∧
                              children = (λ e, joinpath p e.1) <$> es).
Proof.
  intros w Hfs Hw. unfold iterdir, bind, gets, ret, raise. simpl. rewrite Hfs.
  destruct (fs_lookup root p) as [[f|es]|]; simpl; (split; [apply grows_refl|]); try done.
  intros a [= <-]. eauto.
Qed.

Lemma triple_dict_getitem {V} (P : World → Prop) (k : date) (d : dict date V) :
  triple P (dict_getitem k d) (λ v _, dict_get k d = Some v).
Proof.
  unfold dict_getitem. destruct (dict_get k d) as [v|]; [|apply triple_raise].
  by apply triple_ret.
Qed.

(** *** The constructor and the prompts *)

Lemma triple_Photo_init (P : World → Prop) (path : Path) :
  triple P (Photo_init path) (λ r w, photo_at (eq path) w r).
Proof.
  intros w Hfs Hw. unfold Photo_init, bind, gets, alloc, raise. simpl.
  destruct (fs_lookup (fs w) path) as [[f|es]|]; simpl;
    [|split; [apply grows_refl|done]..].
  split; [apply grows_alloc|]. intros a [= <-]. exists (Photo_new path f). split.
  - simpl. by rewrite lookup_app_r, Nat.sub_diag.
  - symmetry. apply Photo_new_fields.
Qed.

Lemma datetime_uncertain_loop_grows (photo : ref) (answer : option string)
    (lines : list string) (w0 w : World) :
  grows w0 w → (∃ consumed, stdin w = consumed ++ lines) →
  (quiet → answer_in answer ["k"; "i"; "a"] = true ∧ lines = stdin w) →
  grows w0 (datetime_uncertain_loop photo answer lines w).2.
Proof.
  remember (length lines) as n eqn:Hn. revert answer lines w Hn.
  induction (lt_wf n) as [n _ IH]. intros answer lines w -> Hw [consumed Hin] Hq.
  assert (answer_in answer ["k"; "i"; "a"] = true → grows w0 (set_stdin lines w)) as Hout.
  { intros Hanswer. eapply grows_trans; [done|]. apply (grows_set_stdin w consumed); [done|].
    intros [_ Hlines]%Hq. rewrite Hlines in Hin.
    apply (f_equal length) in Hin. rewrite length_app in Hin.
    destruct consumed; [done|simpl in Hin; lia]. }
  assert (answer_in answer ["k"; "i"; "a"] = false →
          ∀ rest, (∃ c, stdin w = c ++ rest) → grows w0 (set_stdin rest w)) as Heof.
  { intros Hanswer rest [c Hc]. eapply grows_trans; [done|].
    apply (grows_set_stdin w c); [done|]. intros [? _]%Hq. congruence. }
  destruct lines as [|line lines]; simpl.
  { destruct (answer_in answer _) eqn:Hanswer; simpl; [by apply Hout|].
    apply Heof; [done|]. exists (stdin w). by rewrite app_nil_r. }
  destruct (answer_in answer _) eqn:Hanswer; simpl; [by apply Hout|].
  assert (¬ quiet) as Hloud by (intros [? _]%Hq; congruence).
  case_bool_decide.
  - destruct lines as [|datetime_input lines].
    { apply Heof; [done|]. exists (stdin w). by rewrite app_nil_r. }
    destruct (fromisoformat datetime_input) as [d|];
      (eapply IH; [|done| | |]; [simpl; lia| | |done]).
    + eapply grows_trans; [done|]. by apply (grows_update w photo (set_datetime d User)).
    + exists (consumed ++ [line; datetime_input]). simpl. by rewrite Hin, <- app_assoc.
    + done.
    + exists (consumed ++ [line; datetime_input]). by rewrite Hin, <- app_assoc.
  - eapply IH; [|done| | |done]; [simpl; lia|done|].
    exists (consumed ++ [line]). by rewrite Hin, <- app_assoc.
Qed.

Lemma triple_datetime_uncertain (P : World → Prop) (photo : ref) :
  triple P (datetime_uncertain (prompter self) photo) (λ _ _, True).
Proof.
  intros w Hfs Hw. split; [|done].
  unfold datetime_uncertain, bind, emit, modify. simpl.
  set (w1 := set_trace _ w).
  pose proof (datetime_uncertain_loop_grows photo (assume (prompter self)) (stdin w) w w1
                (grows_set_trace _ _)) as Hloop.
  destruct (datetime_uncertain_loop _ _ _ _) as [[answer|e] w2]; simpl in *.
  - case_bool_decide; apply Hloop; try (by exists []); intros Hq; split; auto.
  - apply Hloop; [by exists []|]. intros Hq. split; auto.
Qed.

Lemma duplicate_found_loop_consumes (answer : option string) (lines : list string) :
  (∃ consumed, lines = consumed ++ (duplicate_found_loop answer lines).2) ∧
  (answer_in answer ["k"; "d"; "a"] = true → (duplicate_found_loop answer lines).2 = lines).
Proof.
  revert answer. induction lines as [|line lines IH]; intros answer; simpl.
  { destruct (answer_in answer _); simpl; (split; [by exists []|done]). }
  destruct (answer_in answer _); simpl; [split; [by exists []|done]|].
  split; [|done]. destruct (IH (Some (lower line))) as [[consumed Hc] _].
  exists (line :: consumed). simpl. by rewrite <- Hc.
Qed.

Lemma triple_duplicate_found (original duplicate : ref) :
  triple (λ w, photo_at loose w duplicate)
         (duplicate_found (prompter self) original duplicate)
         (λ cmd _, ∀ c, cmd = Some c → removes_loose self root c).
Proof.
  unfold duplicate_found.
  apply (triple_bind_pure _ (λ _, True)); [stability|apply triple_emit|intros _ _].
  apply (triple_bind_pure _ (λ _, True)); [stability| |intros answer _].
  { intros w Hfs Hw.
    destruct (duplicate_found_loop_consumes (assume (prompter self)) (stdin w))
      as [[consumed Hc] Hq].
    destruct (duplicate_found_loop _ _) as [r lines]. simpl in *.
    split; [|done]. apply (grows_set_stdin w consumed); [done|].
    intros Hquiet%quiet_duplicate%Hq. rewrite Hquiet in Hc.
    apply (f_equal length) in Hc. rewrite length_app in Hc.
    destruct consumed; [done|simpl in Hc; lia]. }
  repeat case_bool_decide; try (by apply triple_ret); [|apply triple_raise].
  apply (triple_bind_pure _ (λ p, loose (p_path p))); [stability| |intros p Hp].
  { by apply triple_get_photo. }
  apply triple_ret. intros w _ _ c [= <-]. by eexists.
Qed.

(** *** Hashing and comparing *)

Lemma triple_get_hash (P : World → Prop) (r : ref) (alg : string) :
  triple P (get_hash r alg) (λ _ _, True).
Proof.
  apply triple_weaken. unfold get_hash, read_file.
  apply (triple_bind_pure _ (λ _, True)); [stability|by apply triple_gets|intros photo _].
  apply (triple_bind_pure _ (λ _, True)); [stability| |intros _ _].
  { case_bool_decide; [|by apply triple_ret].
    apply (triple_bind_pure _ (λ _, True)); [stability| |intros d _].
    { apply (triple_bind_pure _ (λ _, True)); [stability|by apply triple_gets|intros node _].
      destruct node as [[f|es]|]; [by apply triple_ret|apply triple_raise..]. }
    apply (triple_bind_pure _ (λ _, True)); [stability|apply triple_emit|intros _ _].
    by apply triple_update_photo. }
  apply (triple_bind_pure _ (λ _, True)); [stability|by apply triple_gets|intros photo' _].
  destruct (p_hashes photo' !! alg); [by apply triple_ret|apply triple_raise].
Qed.

Lemma triple_is_duplicate_of (P : World → Prop) (a b : ref) (alg : string) :
  triple P (is_duplicate_of a b alg) (λ _ _, True).
Proof.
  apply triple_weaken. unfold is_duplicate_of.
  apply (triple_bind_pure _ (λ _, True)); [stability|by apply triple_gets|intros pa _].
  apply (triple_bind_pure _ (λ _, True)); [stability|by apply triple_gets|intros pb _].
  destruct (negb _); [by apply triple_ret|].
  apply (triple_bind_pure _ (λ _, True)); [stability|apply triple_get_hash|intros h1 _].
  apply (triple_bind_pure _ (λ _, True)); [stability|apply triple_get_hash|intros h2 _].
  by apply triple_ret.
Qed.

(** *** The dictionaries of photos *)

Lemma dict_all_nil (P : date → Path → Prop) (w : World) : dict_all P w [].
Proof. by intros month l r ?%elem_of_nil. Qed.

Lemma dict_all_mono (P P' : date → Path → Prop) (w : World) (d : dict date (list ref)) :
  (∀ month path, P month path → P' month path) → dict_all P w d → dict_all P' w d.
Proof.
  intros HP Hd month l r Hl Hr. destruct (Hd month l r Hl Hr) as (p & Hp & Hpath).
  exists p. split; [done|]. by apply HP.
Qed.

Lemma dict_all_set (P : date → Path → Prop) (w : World) (d : dict date (list ref))
    (month : date) (l : list ref) :
  dict_all P w d → (∀ r, r ∈ l → photo_at (P month) w r) → dict_all P w (dict_set month l d).
Proof.
  intros Hd Hl month' l' r [[-> ->]|Hin]%dict_set_elem_of Hr; [by apply Hl|].
  by eapply Hd.
Qed.

Lemma dict_all_setdefault_append (P : date → Path → Prop) (w : World)
    (d : dict date (list ref)) (month : date) (photo : ref) :
  dict_all P w d → photo_at (P month) w photo →
  dict_all P w (setdefault_append month photo d).
Proof.
  intros Hd Hphoto month' l r Hl Hr.
  destruct (setdefault_append_elem_of _ _ _ _ _ _ Hl Hr) as [[-> ->]|(l' & Hl' & Hr')];
    [done|by eapply Hd].
Qed.

Lemma dict_all_get (P : date → Path → Prop) (w : World) (d : dict date (list ref))
    (month : date) (l : list ref) (r : ref) :
  dict_all P w d → dict_get month d = Some l → r ∈ l → photo_at (P month) w r.
Proof. intros Hd Hl Hr. eapply Hd; [|done]. by apply dict_get_Some_elem_of. Qed.

(** *** The steps of [prepare] *)

Lemma triple_found_photo (P : World → Prop) (child : Path) :
  triple P (found_photo self child) (λ r w, photo_at (eq child) w r).
Proof.
  apply triple_weaken. unfold found_photo.
  apply (triple_bind _ (λ r w, photo_at (eq child) w r));
    [stability|apply triple_Photo_init|intros photo].
  apply (triple_bind_pure _ (λ _, True)); [stability|by apply triple_gets|intros p _].
  apply (triple_bind_pure _ (λ _, True)); [stability| |intros _ _].
  { destruct (negb _); [apply triple_datetime_uncertain|by apply triple_ret]. }
  apply triple_ret. by intros w _ [_ ?].
Qed.

Lemma triple_find_photos :
  triple (λ _, True) (find_photos self)
         (λ found w,
            (∀ nm, fs_is_dir root (joinpath (o_path self) nm) = true →
                   joinpath (o_path self) nm ∈ found.1) ∧
            (∀ c, c ∈ found.1 → fs_is_dir root c = true) ∧
            dict_all (λ _, loose) w found.2).
Proof.
  unfold find_photos.
  eapply triple_bind_pure; [stability|apply triple_iterdir|].
  intros children (es & Hes & ->).
  eapply triple_conseq;
    [| |apply (triple_foldM_prefix
                 (λ pre (acc : list Path * dict date (list ref)) w,
                    (∀ c, c ∈ acc.1 ↔ c ∈ pre ∧ fs_is_dir root c = true) ∧
                    dict_all (λ _, loose) w acc.2))].
  - intros w _ _. split; [|apply dict_all_nil]. intros c. simpl. set_solver.
  - intros [dirs dis] w _ [Hdirs Hdis]. simpl in *. split_and!; [|by intros c [_ ?]%Hdirs|done].
    intros nm Hnm. apply Hdirs. split; [|done]. by apply (fs_is_dir_listed root).
  - intros pre child post [dirs dis] Hchild.
    assert (∃ nm, child = joinpath (o_path self) nm) as Hnm.
    { assert (child ∈ (λ e : string * Node, joinpath (o_path self) e.1) <$> es) as Hin
        by (rewrite Hchild; set_solver).
      apply list_elem_of_fmap in Hin as (e & -> & _). by eexists. }
    eapply triple_bind_pure; [stability|apply triple_is_dir|]. intros d ->.
    destruct (fs_is_dir root child) eqn:Hdir.
    { apply triple_ret. intros w _ [Hdirs Hdis]. split; [|done]. simpl in *.
      intros c. rewrite !elem_of_app, list_elem_of_singleton, Hdirs.
      split; [intros [[? ?]| ->]; auto|intros [[?| ->] ?]; auto]. }
    assert (∀ dirs : list Path,
              (∀ c, c ∈ dirs ↔ c ∈ pre ∧ fs_is_dir root c = true) →
              (∀ c, c ∈ dirs ↔ c ∈ pre ++ [child] ∧ fs_is_dir root c = true)) as Hskip.
    { intros dirs' Hdirs c. rewrite elem_of_app, list_elem_of_singleton, Hdirs.
      split; [intros [? ?]; auto|intros [[?| ->] ?]; [auto|congruence]]. }
    eapply triple_bind_pure; [stability|apply triple_is_file|]. intros f ->.
    destruct (fs_is_file root child && has_extention self child) eqn:Hphoto.
    + apply andb_true_iff in Hphoto as [Hfile Hext].
      apply (triple_bind _ (λ r w, photo_at (eq child) w r));
        [stability|apply triple_found_photo|intros photo].
      apply (triple_bind_pure _ (λ _, True)); [stability|by apply triple_gets|intros p _].
      apply triple_ret. intros w _ [[Hdirs Hdis] (p' & Hp' & Hpath)]. simpl in *.
      split; [by apply (Hskip dirs)|].
      apply dict_all_setdefault_append; [done|]. exists p'. split; [done|].
      by rewrite <- Hpath.
    + apply triple_ret. intros w _ [Hdirs Hdis]. split; [|done]. by apply (Hskip dirs).
Qed.

Lemma triple_check_existing_dirs (c0 : list Command) (dirs : list Path)
    (disorganized_photos : dict date (list ref)) :
  (∀ cmd, makes_month self root cmd → ok cmd) →
  (∀ nm, fs_is_dir root (joinpath (o_path self) nm) = true →
         joinpath (o_path self) nm ∈ dirs) →
  (∀ c, c ∈ dirs → fs_is_dir root c = true) →
  triple (λ w, commands w = c0) (check_existing_dirs self dirs disorganized_photos)
         (λ organized_photos w,
            dict_all filed w organized_photos ∧
            planned_since c0 (months_ready self root (dict_keys disorganized_photos)) w).
Proof.
  intros Hok Hlisted Hdirs. unfold check_existing_dirs.
  eapply triple_conseq;
    [| |apply (triple_foldM_prefix
                 (λ pre organized_photos w,
                    dict_all filed w organized_photos ∧
                    planned_since c0 (months_ready self root pre) w))].
  { intros w _ Hc. split; [apply dict_all_nil|]. exists []. rewrite app_nil_r.
    split; [done|]. by intros month ?%elem_of_nil. }
  { done. }
  intros pre month post organized_photos _. cbv zeta.
  destruct (negb _) eqn:Hin.
  - intros w Hfs [Horg (mk & Hmk & Hready)].
    unfold bind, commands_append, modify, ret. simpl. split.
    + apply grows_command, Hok. exists month. split; [done|].
      apply not_true_is_false. intros Hdir%Hlisted.
      apply negb_true_iff, bool_decide_eq_false in Hin. done.
    + intros a [= <-]. split.
      * apply dict_all_set; [done|]. by intros r ?%elem_of_nil.
      * exists (mk ++ [MakeDirectory (joinpath (o_path self) (strftime_Ym month))]).
        simpl. split; [by rewrite Hmk, app_assoc|].
        intros month' [Hmonth'| ->%list_elem_of_singleton]%elem_of_app.
        -- by apply (months_ready_app pre mk _ Hready).
        -- right. apply elem_of_app. right. by apply list_elem_of_singleton.
  - apply negb_false_iff, bool_decide_eq_true, Hdirs in Hin.
    assert (∀ mk, months_ready self root pre mk →
                  months_ready self root (pre ++ [month]) mk) as Hmore.
    { intros mk Hready month' [Hmonth'| ->%list_elem_of_singleton]%elem_of_app;
        [by apply Hready|by left]. }
    eapply triple_bind_pure; [stability|apply triple_iterdir|].
    intros children (es & Hes & ->).
    eapply triple_conseq;
      [| |apply (triple_foldM
                   (λ organized_photos w,
                      dict_all filed w organized_photos ∧
                      planned_since c0 (months_ready self root (pre ++ [month])) w))];
      [|done|].
    { intros w _ [Horg (mk & Hmk & Hready)]. split.
      - apply dict_all_set; [done|]. by intros r ?%elem_of_nil.
      - exists mk. split; [done|]. by apply Hmore. }
    intros organized child Hchild.
    assert (∃ nm, child = joinpath (month_directory self month) nm) as Hnm.
    { apply list_elem_of_fmap in Hchild as (e & -> & _). by eexists. }
    eapply triple_bind_pure; [stability|apply triple_is_file|]. intros f ->.
    destruct (_ && _) eqn:Hphoto; [|by apply triple_ret].
    apply andb_true_iff in Hphoto as [Hfile Hext].
    eapply (triple_bind _ (λ r w, photo_at (eq child) w r));
      [stability|apply triple_found_photo|intros photo].
    eapply triple_bind_pure; [stability|apply triple_dict_getitem|]. intros l Hl.
    apply triple_ret. intros w _ [[Horg Hplanned] (p & Hp & Hpath)]. split; [|done].
    apply dict_all_set; [done|].
    intros r [Hr| ->%list_elem_of_singleton]%elem_of_app.
    + by apply (dict_all_get filed w organized month l r).
    + exists p. split; [done|]. by rewrite <- Hpath.
Qed.

Lemma triple_find_duplicate (photo : ref) (others : list ref) :
  (∀ cmd, removes_loose self root cmd → ok cmd) →
  triple (λ w, photo_at loose w photo) (find_duplicate self photo others) (λ _ _, True).
Proof.
  intros Hok.
  induction others as [|other others IH]; simpl; [by apply triple_ret|].
  eapply (triple_bind_pure _ (λ _, True));
    [stability|apply triple_is_duplicate_of|intros dup _].
  destruct dup; [|done].
  eapply triple_bind_pure; [stability|apply triple_duplicate_found|]. intros remove_cmd Hcmd.
  eapply (triple_bind_pure _ (λ _, True)); [stability| |intros _ _; by apply triple_ret].
  destruct remove_cmd as [cmd|]; [|by apply triple_ret].
  apply triple_commands_append. by apply Hok, Hcmd.
Qed.

Lemma triple_check_photo (ready : date → Prop) (organized_photos : dict date (list ref))
    (month : date) (photos_for_month : list ref) (unique_photos : dict date (list ref))
    (i : nat) (photo : ref) :
  (∀ cmd, removes_loose self root cmd → ok cmd) →
  ready month → (∀ m, m ∈ dict_keys unique_photos → ready m) →
  triple (λ w, dict_all (λ _, loose) w unique_photos ∧ photo_at loose w photo)
         (check_photo self organized_photos month photos_for_month unique_photos i photo)
         (λ unique_photos w, dict_all (λ _, loose) w unique_photos ∧
                             ∀ m, m ∈ dict_keys unique_photos → ready m).
Proof.
  intros Hok Hmonth Hkeys. unfold check_photo.
  eapply (triple_bind_pure _ (λ _, True)); [stability| |intros organized _].
  { eapply triple_forget, triple_dict_getitem. }
  eapply (triple_bind_pure _ (λ _, True)); [stability| |intros in_organized _].
  { eapply triple_conseq; [| |by apply triple_find_duplicate]; [by intros w _ [_ ?]|done]. }
  eapply (triple_bind_pure _ (λ _, True)); [stability| |intros in_disorganized _].
  { eapply triple_conseq; [| |by apply triple_find_duplicate]; [by intros w _ [_ ?]|done]. }
  cbv zeta. destruct (negb _); apply triple_ret; intros w _ [Hunique Hphoto]; [|done].
  split; [by apply dict_all_setdefault_append|].
  intros m [->|Hm]%setdefault_append_keys; [done|by apply Hkeys].
Qed.

Lemma triple_check_duplicates (ready : date → Prop)
    (disorganized_photos organized_photos : dict date (list ref)) :
  (∀ cmd, removes_loose self root cmd → ok cmd) →
  (∀ m, m ∈ dict_keys disorganized_photos → ready m) →
  triple (λ w, dict_all (λ _, loose) w disorganized_photos)
         (check_duplicates self disorganized_photos organized_photos)
         (λ unique_photos w, dict_all (λ _, loose) w unique_photos ∧
                             ∀ m, m ∈ dict_keys unique_photos → ready m).
Proof.
  intros Hok Hready. unfold check_duplicates.
  eapply triple_conseq;
    [| |apply (triple_foldM (λ unique_photos w,
                               dict_all (λ _, loose) w disorganized_photos ∧
                               dict_all (λ _, loose) w unique_photos ∧
                               ∀ m, m ∈ dict_keys unique_photos → ready m))].
  - intros w _ Hdis. split_and!; [done|apply dict_all_nil|by intros m ?%elem_of_nil].
  - by intros unique_photos w _ [_ ?].
  - intros unique_photos [month photos_for_month] Hentry.
    assert (ready month) as Hmonth.
    { apply Hready, dict_keys_elem_of. by eexists. }
    apply (triple_foldM (λ unique_photos w,
                           dict_all (λ _, loose) w disorganized_photos ∧
                           dict_all (λ _, loose) w unique_photos ∧
                           ∀ m, m ∈ dict_keys unique_photos → ready m)).
    intros unique_photos' [i photo] Hphoto. simpl.
    assert (photo ∈ photos_for_month) as Hin.
    { apply list_elem_of_lookup in Hphoto as [j Hj].
      rewrite list_lookup_imap in Hj.
      destruct (photos_for_month !! j) as [photo'|] eqn:Hj'; simplify_eq/=.
      by eapply list_elem_of_lookup_2. }
    intros w Hfs (Hdis & Hunique & Hkeys).
    destruct (triple_frame (λ w, dict_all (λ _, loose) w disorganized_photos) _ _ _
                ltac:(stability)
                (triple_check_photo ready organized_photos month photos_for_month
                   unique_photos' i photo Hok Hmonth Hkeys) w Hfs) as [Hg Hq].
    { split; [done|]. split; [done|]. by eapply Hdis. }
    split; [done|]. intros a Ha. destruct (Hq a Ha) as (? & ? & ?). done.
Qed.

Lemma triple_merge_and_order (ready : date → Prop)
    (organized_photos unique_photos : dict date (list ref)) :
  (∀ m, m ∈ dict_keys unique_photos → ready m) →
  triple (λ w, dict_all filed w organized_photos ∧ dict_all (λ _, loose) w unique_photos)
         (merge_and_order organized_photos unique_photos)
         (λ unique_photos w,
            dict_all (λ month path, loose path ∨ filed month path) w unique_photos ∧
            ∀ m, m ∈ dict_keys unique_photos → ready m).
Proof.
  intros Hready. unfold merge_and_order.
  eapply triple_conseq;
    [| |apply (triple_foldM
                 (λ unique_photos w,
                    dict_all filed w organized_photos ∧
                    dict_all (λ month path, loose path ∨ filed month path) w
                             unique_photos ∧
                    ∀ m, m ∈ dict_keys unique_photos → ready m))].
  - intros w _ [Horg Hunique]. split_and!; [done| |done].
    eapply dict_all_mono; [|done]. by left.
  - by intros unique w _ [_ ?].
  - intros unique month Hmonth.
    eapply triple_bind_pure; [stability|apply triple_dict_getitem|]. intros l Hl.
    eapply triple_bind_pure; [stability|apply triple_dict_getitem|]. intros organized Horg.
    eapply (triple_bind_pure _ (λ sorted, sorted ≡ₚ l ++ organized));
      [stability| |intros sorted Hsorted].
    { intros w Hfs Hw. destruct (sort_photos_sorted (l ++ organized) w) as (sorted & -> & Hp & _).
      split; [apply grows_refl|]. by intros a [= <-]. }
    apply triple_ret. intros w _ (Horganized & Hunique & Hkeys). split_and!; [done| |].
    + apply dict_all_set; [done|]. intros r Hr. rewrite Hsorted in Hr.
      apply elem_of_app in Hr as [Hr|Hr].
      * by apply (dict_all_get (λ month path, loose path ∨ filed month path) w unique month l r).
      * destruct (dict_all_get filed w organized_photos month organized r Horganized Horg Hr)
          as (p & Hp & Hpath).
        exists p. split; [done|]. by right.
    + intros m [->|Hm]%dict_set_keys; [by apply Hready|by apply Hkeys].
Qed.

Lemma destination_in_month (month : date) (stamp : string) (n : Z) (p : Photo) :
  ∃ nm, destination self month stamp n p = joinpath (month_directory self month) nm.
Proof.
  eexists. unfold destination, month_directory, joinpath. by rewrite <- app_assoc.
Qed.

Lemma triple_prepare_move (ready : date → Prop) (month : date) (acc : Z * string)
    (photo : ref) :
  (∀ cmd, moves_photo self root ready cmd → ok cmd) → ready month →
  triple (λ w, photo_at (λ path, loose path ∨ filed month path) w photo)
         (prepare_move self month acc photo) (λ _ _, True).
Proof.
  intros Hok Hmonth. unfold prepare_move. destruct acc as [n last].
  eapply (triple_bind_pure _ (λ p, loose (p_path p) ∨ filed month (p_path p)));
    [stability|by apply (triple_get_photo _ (λ path, loose path ∨ filed month path))|].
  intros p Hp.
  destruct (bool_decide (last = _));
    (eapply (triple_bind_pure _ (λ _, True)); [stability| |intros _ _; by apply triple_ret]);
    (case_bool_decide as Hdest; [by apply triple_ret|]);
    apply triple_commands_append, Hok;
    match goal with
    | |- context [destination self month ?stamp ?k p] =>
        destruct (destination_in_month month stamp k p) as [nm Hnm]
    end;
    rewrite Hnm in *; exists (p_path p), month, nm; split_and!; try done; by intros <-.
Qed.

Lemma triple_prepare_moves (ready : date → Prop) (unique_photos : dict date (list ref)) :
  (∀ cmd, moves_photo self root ready cmd → ok cmd) →
  (∀ m, m ∈ dict_keys unique_photos → ready m) →
  triple (λ w, dict_all (λ month path, loose path ∨ filed month path) w unique_photos)
         (prepare_moves self unique_photos)
         (λ _ _, True).
Proof.
  intros Hok Hready. unfold prepare_moves.
  eapply triple_forget,
    (triple_forM_ (λ w, dict_all (λ month path, loose path ∨ filed month path) w
                                 unique_photos)).
  intros [month photos_for_month] Hentry.
  assert (ready month) as Hmonth.
  { apply Hready, dict_keys_elem_of. by eexists. }
  eapply (triple_bind_pure _ (λ _, True));
    [stability| |intros _ _; apply triple_ret; by intros w _ ?].
  eapply triple_forget,
    (triple_foldM (λ _ w, dict_all (λ month path, loose path ∨ filed month path) w
                                   unique_photos)).
  intros acc photo Hphoto.
  eapply (triple_conseq
            (λ w, dict_all (λ month path, loose path ∨ filed month path) w unique_photos ∧
                  photo_at (λ path, loose path ∨ filed month path) w photo));
    [| |apply (triple_frame
                 (λ w, dict_all (λ month path, loose path ∨ filed month path) w
                                unique_photos));
        [stability|by apply (triple_prepare_move ready month acc photo)]].
  - intros w _ Hunique. split; [done|]. by eapply Hunique.
  - by intros a w _ [? _].
Qed.

End PlanSafety.

Section PlanPhases.
Context {PF : Platform} (self : Organizer).

Lemma grows_nothing (quiet : Prop) (w w' : World) :
  grows (λ _, False) quiet w w' → commands w' = commands w.
Proof.
  intros (_ & _ & (more & -> & Hmore) & _).
  destruct more as [|cmd more]; [by rewrite app_nil_r|]. by apply Forall_cons in Hmore as [[] _].
Qed.

Lemma answer_in_more (answer : option string) (choices choices' : list string) :
  choices ⊆ choices' → answer_in answer choices = true → answer_in answer choices' = true.
Proof.
  intros Hsub. destruct answer as [a|]; simpl; [|done].
  intros Ha%bool_decide_eq_true. apply bool_decide_eq_true. by apply Hsub.
Qed.

(** The plan grows in three phases: directories, removals, moves; and a
    move goes into a directory that is there or that the first phase
    makes.  With an assumed answer no line of the input is taken. *)
Lemma prepare_phases (w : World) :
  (∃ mkdirs removes moves,
     commands (prepare self w).2 = commands w ++ mkdirs ++ removes ++ moves ∧
     Forall (makes_month self (fs w)) mkdirs ∧
     Forall (removes_loose self (fs w)) removes ∧
     Forall (moves_photo self (fs w) (month_ready self (fs w) mkdirs)) moves) ∧
  (answer_in (assume (prompter self)) ["k"; "a"] = true →
   stdin (prepare self w).2 = stdin w).
Proof.
  set (root := fs w).
  set (quiet := answer_in (assume (prompter self)) ["k"; "a"] = true).
  assert (quiet → answer_in (assume (prompter self)) ["k"; "i"; "a"] = true) as Hq1.
  { apply answer_in_more. set_solver. }
  assert (quiet → answer_in (assume (prompter self)) ["k"; "d"; "a"] = true) as Hq2.
  { apply answer_in_more. set_solver. }
  unfold prepare.
  (* find photos *)
  destruct (triple_find_photos self root (λ _, False) quiet Hq1 Hq2 w eq_refl I) as [Hg1 Hq].
  destruct (find_photos self w) as [[[dirs dis]|e] w1] eqn:H1; simpl in Hg1, Hq;
    [rewrite (bind_ok _ _ _ _ _ H1)|rewrite (bind_raise _ _ _ _ _ H1)]; cbv beta iota.
  2: { split; [|apply Hg1]. exists [], [], []. simpl. rewrite app_nil_r.
       by rewrite (grows_nothing _ _ _ Hg1). }
  pose proof (grows_nothing _ _ _ Hg1) as Hc1.
  assert (fs w1 = root) as Hfs1 by apply Hg1.
  assert (quiet → stdin w1 = stdin w) as Hin1 by apply Hg1.
  destruct (Hq _ eq_refl) as (Hlisted & Hdirs & Hdis). simpl in Hlisted, Hdirs, Hdis.
  clear Hq.
  (* existing directories *)
  destruct (triple_check_existing_dirs self root (makes_month self root) quiet Hq1 Hq2
              (commands w1) dirs dis (λ _ H, H) Hlisted Hdirs w1 Hfs1 eq_refl) as [Hg2 Hq].
  destruct (check_existing_dirs self dirs dis w1) as [[org|e] w2] eqn:H2; simpl in Hg2, Hq;
    [rewrite (bind_ok _ _ _ _ _ H2)|rewrite (bind_raise _ _ _ _ _ H2)]; cbv beta iota.
  2: { destruct Hg2 as (_ & _ & (mkdirs & Hc2 & Hmk) & _ & Hin2).
       split; [|intros Hquiet; simpl; by rewrite Hin2, Hin1].
       exists mkdirs, [], []. simpl. rewrite app_nil_r, Hc2, Hc1. done. }
  assert (fs w2 = root) as Hfs2 by (destruct Hg2 as (-> & _); done).
  pose proof (stable_dict_all _ _ _ dis w1 w2 Hg2 Hdis) as Hdis2.
  destruct Hg2 as (_ & _ & (mkdirs & Hc2 & Hmk) & _ & Hin2).
  assert (quiet → stdin w2 = stdin w) as Hin2' by (intros Hquiet; simpl; by rewrite Hin2, Hin1).
  destruct (Hq _ eq_refl) as (Horg & mk & Hmk' & Hready). clear Hq.
  rewrite Hc2 in Hmk'. apply app_inv_head in Hmk' as <-.
  (* duplicates *)
  destruct (triple_check_duplicates self root (removes_loose self root) quiet Hq1 Hq2
              (month_ready self root mkdirs) dis org (λ _ H, H) Hready w2 Hfs2 Hdis2)
    as [Hg3 Hq].
  destruct (check_duplicates self dis org w2) as [[unique|e] w3] eqn:H3; simpl in Hg3, Hq;
    [rewrite (bind_ok _ _ _ _ _ H3)|rewrite (bind_raise _ _ _ _ _ H3)]; cbv beta iota.
  2: { destruct Hg3 as (_ & _ & (removes & Hc3 & Hrm) & _ & Hin3).
       split; [|intros Hquiet; simpl; by rewrite Hin3, Hin2'].
       exists mkdirs, removes, []. simpl.
       rewrite app_nil_r, Hc3, Hc2, Hc1, <- app_assoc. done. }
  assert (fs w3 = root) as Hfs3 by (destruct Hg3 as (-> & _); done).
  pose proof (stable_dict_all _ _ _ org w2 w3 Hg3 Horg) as Horg3.
  destruct Hg3 as (_ & _ & (removes & Hc3 & Hrm) & _ & Hin3).
  assert (quiet → stdin w3 = stdin w) as Hin3' by (intros Hquiet; simpl; by rewrite Hin3, Hin2').
  destruct (Hq _ eq_refl) as (Hunique & Hkeys). clear Hq.
  (* merge and order *)
  destruct (triple_merge_and_order self root (λ _, False) quiet Hq1 Hq2
              (month_ready self root mkdirs) org unique Hkeys w3 Hfs3 (conj Horg3 Hunique))
    as [Hg4 Hq].
  destruct (merge_and_order org unique w3) as [[merged|e] w4] eqn:H4; simpl in Hg4, Hq;
    [rewrite (bind_ok _ _ _ _ _ H4)|rewrite (bind_raise _ _ _ _ _ H4)]; cbv beta iota.
  2: { split; [|intros Hquiet; simpl; destruct Hg4 as (_ & _ & _ & _ & ->); auto].
       exists mkdirs, removes, []. simpl.
       rewrite app_nil_r, (grows_nothing _ _ _ Hg4), Hc3, Hc2, Hc1, <- app_assoc. done. }
  pose proof (grows_nothing _ _ _ Hg4) as Hc4.
  assert (fs w4 = root) as Hfs4 by (destruct Hg4 as (-> & _); done).
  assert (quiet → stdin w4 = stdin w) as Hin4'.
  { intros Hquiet. destruct Hg4 as (_ & _ & _ & _ & ->); auto. }
  destruct (Hq _ eq_refl) as (Hmerged & Hkeys'). clear Hq.
  (* moves *)
  destruct (triple_prepare_moves self root
              (moves_photo self root (month_ready self root mkdirs)) quiet Hq1 Hq2
              (month_ready self root mkdirs) merged (λ _ H, H) Hkeys' w4 Hfs4 Hmerged)
    as [(_ & _ & (moves & Hc5 & Hmv) & _ & Hin5) _].
  split; [|intros Hquiet; simpl; by rewrite Hin5, Hin4'].
  exists mkdirs, removes, moves. rewrite Hc5, Hc4, Hc3, Hc2, Hc1, <- !app_assoc. done.
Qed.

End PlanPhases.

(** ** The file system under the commands *)

Section Entries.
Implicit Types (es : list (string * Node)) (nm c : string) (n : Node).

Lemma find_entry_None nm es : find_entry nm es = None ↔ nm ∉ es.*1.
Proof.
  induction es as [|[nm' n'] es IH]; simpl; [split; [by intros _ ?%elem_of_nil|done]|].
  rewrite not_elem_of_cons. destruct (decide (nm = nm')); [naive_solver|]. rewrite IH. naive_solver.
Qed.

Lemma find_entry_app c nm n es :
  find_entry c (es ++ [(nm, n)]) =
    match find_entry c es with
    | Some x => Some x
    | None => if decide (c = nm) then Some n else None
    end.
Proof.
  induction es as [|[nm' n'] es IH]; simpl; [done|]. by destruct (decide (c = nm')).
Qed.

Lemma find_entry_delete c nm es :
  NoDup es.*1 →
  find_entry c (delete_entry nm es) = if decide (c = nm) then None else find_entry c es.
Proof.
  induction es as [|[nm' n'] es IH]; simpl; intros Hnd; [by destruct (decide (c = nm))|].
  apply NoDup_cons in Hnd as [Hnm' Hnd].
  destruct (decide (nm = nm')) as [->|Hne].
  - destruct (decide (c = nm')) as [->|?]; [by apply find_entry_None|done].
  - simpl. rewrite IH by done.
    destruct (decide (c = nm')) as [->|?]; [by rewrite decide_False|done].
Qed.

Lemma find_entry_replace c nm n n0 es :
  find_entry nm es = Some n0 →
  find_entry c (replace_entry nm n es) = if decide (c = nm) then Some n else find_entry c es.
Proof.
  induction es as [|[nm' n'] es IH]; simpl; [done|].
  destruct (decide (nm = nm')) as [->|Hne]; simpl.
  - intros _. by destruct (decide (c = nm')).
  - intros Hfind. rewrite IH by done.
    destruct (decide (c = nm')) as [->|?]; [by rewrite decide_False|done].
Qed.

Lemma replace_entry_names nm n es : (replace_entry nm n es).*1 = es.*1.
Proof.
  induction es as [|[nm' n'] es IH]; csimpl; [done|].
  destruct (decide (nm = nm')) as [->|?]; csimpl; [done|]. by rewrite IH.
Qed.

Lemma replace_entry_Forall (P : string * Node → Prop) nm n es :
  Forall P es → P (nm, n) → Forall P (replace_entry nm n es).
Proof.
  intros Hes Hn. induction Hes as [|[nm' n'] es Hx Hes IH]; simpl; [constructor|].
  destruct (decide (nm = nm')); constructor; done.
Qed.

Lemma delete_entry_sublist nm es : delete_entry nm es `sublist_of` es.
Proof.
  induction es as [|[nm' n'] es IH]; simpl; [done|].
  destruct (decide (nm = nm')); [by apply sublist_cons|by apply sublist_skip].
Qed.

Lemma delete_entry_Forall (P : string * Node → Prop) nm es :
  Forall P es → Forall P (delete_entry nm es).
Proof.
  induction 1 as [|[nm' n'] es Hx Hes IH]; simpl; [constructor|].
  destruct (decide (nm = nm')); [done|by constructor].
Qed.

Lemma well_formed_delete nm es :
  well_formed (Dir es) → well_formed (Dir (delete_entry nm es)).
Proof.
  rewrite !well_formed_Dir. intros [Hnd Hall]. split.
  - eapply sublist_NoDup; [done|]. apply fmap_sublist, delete_entry_sublist.
  - by apply delete_entry_Forall.
Qed.

Lemma well_formed_add nm n es :
  well_formed (Dir es) → find_entry nm es = None → well_formed n →
  well_formed (Dir (es ++ [(nm, n)])).
Proof.
  rewrite !well_formed_Dir. intros [Hnd Hall] Hnm%find_entry_None Hn. split.
  - rewrite fmap_app. apply NoDup_app. split_and!; [done| |apply NoDup_singleton].
    intros x Hx ->%list_elem_of_singleton. done.
  - apply Forall_app. split; [done|]. by apply Forall_singleton.
Qed.

End Entries.

Section Update.
Implicit Types (root : Node) (dir p q : Path) (f : list (string * Node) → list (string * Node)).

Lemma kind_nil root : kind root [] = Some (if root is Dir _ then true else false).
Proof. by destruct root. Qed.

Lemma kind_cons_Dir es c p :
  kind (Dir es) (c :: p) = match find_entry c es with Some n => kind n p | None => None end.
Proof. unfold kind. simpl. by destruct (find_entry c es). Qed.

Lemma kind_cons_File fd c p : kind (File fd) (c :: p) = None.
Proof. done. Qed.

Lemma kind_app root dir q node :
  fs_lookup root dir = Some node → kind root (dir ++ q) = kind node q.
Proof. intros Hdir. unfold kind. by rewrite fs_lookup_app, Hdir. Qed.

Lemma kind_dir_lookup root p : kind root p = Some true → ∃ es, fs_lookup root p = Some (Dir es).
Proof. unfold kind. destruct (fs_lookup root p) as [[fd|es]|]; [done|by eauto|done]. Qed.

Lemma kind_file_lookup root p : kind root p = Some false → ∃ fd, fs_lookup root p = Some (File fd).
Proof. unfold kind. destruct (fs_lookup root p) as [[fd|es]|]; [by eauto|done..]. Qed.

Lemma fs_exists_kind root p : fs_exists root p = true ↔ kind root p ≠ None.
Proof. unfold fs_exists, kind. by destruct (fs_lookup root p) as [[fd|es]|]. Qed.

Lemma fs_is_dir_kind root p : fs_is_dir root p = true ↔ kind root p = Some true.
Proof. unfold fs_is_dir, kind. by destruct (fs_lookup root p) as [[fd|es]|]. Qed.

Lemma fs_is_file_kind root p : fs_is_file root p = true ↔ kind root p = Some false.
Proof. unfold fs_is_file, kind. by destruct (fs_lookup root p) as [[fd|es]|]. Qed.

(** A change of the entries of a directory that is there succeeds. *)
Lemma fs_update_Some root dir f es :
  fs_lookup root dir = Some (Dir es) → is_Some (fs_update root dir f).
Proof.
  revert root. induction dir as [|c dir IH]; intros root; simpl.
  - intros [= ->]. by eexists.
  - destruct root as [fd|es0]; [done|].
    destruct (find_entry c es0) as [n|]; [|done]. intros Hn.
    destruct (IH n Hn) as [n' ->]. by eexists.
Qed.

(** What a change of the entries of the directory [dir] changes: what is
    inside [dir] is looked up in the new entries, and all the rest is of
    the kind it was. *)
Lemma fs_update_lookup root root' dir f :
  fs_update root dir f = Some root' →
  ∃ es, fs_lookup root dir = Some (Dir es) ∧
        (∀ q, fs_lookup root' (dir ++ q) = fs_lookup (Dir (f es)) q) ∧
        (∀ p, ¬ dir `prefix_of` p → kind root' p = kind root p).
Proof.
  revert root root'. induction dir as [|c dir IH]; intros root root'; simpl.
  - destruct root as [fd|es]; [done|]. intros [= <-]. exists es. split_and!; [done..|].
    intros p []. apply prefix_nil.
  - destruct root as [fd|es0]; [done|].
    destruct (find_entry c es0) as [n|] eqn:Hc; [|done].
    destruct (fs_update n dir f) as [n'|] eqn:Hn; [|done]. intros [= <-].
    destruct (IH n n' Hn) as (es & Hes & Hin & Hout). exists es. split_and!; [done| |].
    + intros q. simpl. rewrite (find_entry_replace c c n' n es0 Hc), decide_True by done.
      apply Hin.
    + intros [|c' p] Hp; [done|]. rewrite !kind_cons_Dir.
      rewrite (find_entry_replace c' c n' n es0 Hc).
      destruct (decide (c' = c)) as [->|Hne]; [|done]. rewrite Hc. apply Hout.
      intros Hpre. apply Hp. by apply prefix_cons.
Qed.

Lemma fs_update_well_formed root root' dir f :
  well_formed root → fs_update root dir f = Some root' →
  (∀ es, fs_lookup root dir = Some (Dir es) → well_formed (Dir es) → well_formed (Dir (f es))) →
  well_formed root'.
Proof.
  revert root root'. induction dir as [|c dir IH]; intros root root' Hwf; simpl.
  - destruct root as [fd|es]; [done|]. intros [= <-] Hf. by apply Hf.
  - destruct root as [fd|es0]; [done|].
    destruct (find_entry c es0) as [n|] eqn:Hc; [|done].
    destruct (fs_update n dir f) as [n'|] eqn:Hn; [|done]. intros [= <-] Hf.
    apply well_formed_Dir in Hwf as [Hnd Hall]. apply well_formed_Dir.
    split; [by rewrite replace_entry_names|].
    apply replace_entry_Forall; [done|]. simpl.
    rewrite Forall_forall in Hall.
    apply (IH n n'); [|done|done].
    apply (Hall (c, n)). by apply find_entry_Some_elem_of.
Qed.

End Update.

Section Operations.
Implicit Types (root : Node) (dir p q : Path) (es : list (string * Node)) (nm : string).

Lemma prefix_cases dir p : (∃ q, p = dir ++ q) ∨ ¬ dir `prefix_of` p.
Proof. destruct (decide (dir `prefix_of` p)) as [[q ->]|?]; eauto. Qed.

Lemma path_split p : p ≠ [] → p = parent p ++ [name p].
Proof. intros Hp. unfold parent, name. by apply app_removelast_last. Qed.

Lemma kind_child root dir nm es :
  fs_lookup root dir = Some (Dir es) →
  kind root (dir ++ [nm]) = match find_entry nm es with Some n => kind n [] | None => None end.
Proof. intros Hdir. by rewrite (kind_app _ _ _ _ Hdir), kind_cons_Dir. Qed.

(** A new entry that is a file or an empty directory: only its own path
    changes. *)
Lemma fs_add_leaf root dir nm (n : Node) es :
  well_formed root → fs_lookup root dir = Some (Dir es) → find_entry nm es = None →
  (n = Dir [] ∨ ∃ fd, n = File fd) →
  ∃ root', fs_update root dir (λ es, es ++ [(nm, n)]) = Some root' ∧ well_formed root' ∧
           ∀ p, kind root' p = if decide (p = dir ++ [nm]) then kind n [] else kind root p.
Proof.
  intros Hwf Hdir Hnm Hleaf.
  destruct (fs_update_Some root dir (λ es, es ++ [(nm, n)]) es Hdir) as [root' Hup].
  exists root'. split; [done|]. split.
  - eapply fs_update_well_formed; [done..|]. intros es' Hes' Hwf'.
    rewrite Hdir in Hes'. injection Hes' as <-. apply well_formed_add; [done..|].
    destruct Hleaf as [->|[fd ->]]; [|done]. apply well_formed_Dir. split; constructor.
  - destruct (fs_update_lookup _ _ _ _ Hup) as (es' & Hes' & Hin & Hout).
    rewrite Hdir in Hes'. injection Hes' as <-.
    intros p. destruct (prefix_cases dir p) as [[q ->]|Hp].
    + rewrite (kind_app root dir q (Dir es) Hdir).
      replace (kind root' (dir ++ q)) with (kind (Dir (es ++ [(nm, n)])) q)
        by (unfold kind; by rewrite Hin).
      destruct q as [|c q].
      { rewrite decide_False; [done|]. by intros ?%app_inv_head. }
      rewrite !kind_cons_Dir, find_entry_app.
      destruct (find_entry c es) as [x|] eqn:Hc.
      { rewrite decide_False; [done|]. intros [= -> ->]%app_inv_head. congruence. }
      destruct (decide (c = nm)) as [->|Hne].
      * destruct q as [|c' q]; [by rewrite decide_True|].
        rewrite decide_False by (by intros ?%app_inv_head).
        destruct Hleaf as [->|[fd ->]]; done.
      * rewrite decide_False; [done|]. by intros [= ->]%app_inv_head.
    + rewrite Hout by done. rewrite decide_False; [done|]. intros ->. apply Hp. by exists [nm].
Qed.

(** Without the entry of a file: only its own path changes. *)
Lemma fs_delete_file root dir nm es fd :
  well_formed root → fs_lookup root dir = Some (Dir es) → find_entry nm es = Some (File fd) →
  ∃ root', fs_update root dir (delete_entry nm) = Some root' ∧ well_formed root' ∧
           ∀ p, kind root' p = if decide (p = dir ++ [nm]) then None else kind root p.
Proof.
  intros Hwf Hdir Hnm.
  destruct (fs_update_Some root dir (delete_entry nm) es Hdir) as [root' Hup].
  exists root'. split; [done|]. split.
  - eapply fs_update_well_formed; [done..|]. intros es' Hes' Hwf'. by apply well_formed_delete.
  - destruct (fs_update_lookup _ _ _ _ Hup) as (es' & Hes' & Hin & Hout).
    rewrite Hdir in Hes'. injection Hes' as <-.
    assert (NoDup es.*1) as Hnd.
    { by apply (well_formed_lookup root (Dir es) dir) in Hdir as [? _]%well_formed_Dir. }
    intros p. destruct (prefix_cases dir p) as [[q ->]|Hp].
    + rewrite (kind_app root dir q (Dir es) Hdir).
      replace (kind root' (dir ++ q)) with (kind (Dir (delete_entry nm es)) q)
        by (unfold kind; by rewrite Hin).
      destruct q as [|c q].
      { rewrite decide_False; [done|]. by intros ?%app_inv_head. }
      rewrite !kind_cons_Dir, find_entry_delete by done.
      destruct (decide (c = nm)) as [->|Hne].
      * rewrite Hnm. destruct q as [|c' q]; [by rewrite decide_True|].
        rewrite decide_False by (by intros ?%app_inv_head). done.
      * rewrite decide_False; [done|]. by intros [= ->]%app_inv_head.
    + rewrite Hout by done. rewrite decide_False; [done|]. intros ->. apply Hp. by exists [nm].
Qed.

End Operations.

Section Execution.
Context {PF : Platform}.
Implicit Types (w : World) (d t src dst p : Path).

Lemma MakeDirectory_execute_ok d w :
  well_formed (fs w) → d ≠ [] → kind (fs w) d = None → kind (fs w) (parent d) = Some true →
  ∃ root', MakeDirectory_execute d w = (Ok tt, set_fs root' w) ∧ well_formed root' ∧
           ∀ p, kind root' p = if decide (p = d) then Some true else kind (fs w) p.
Proof.
  intros Hwf Hd Hnone [es Hes]%kind_dir_lookup.
  assert (find_entry (name d) es = None) as Hnm.
  { rewrite (path_split d Hd), (kind_child _ _ _ _ Hes) in Hnone.
    destruct (find_entry (name d) es) as [n|]; [|done]. by rewrite kind_nil in Hnone. }
  destruct (fs_add_leaf (fs w) (parent d) (name d) (Dir []) es Hwf Hes Hnm (or_introl eq_refl))
    as (root' & Hup & Hwf' & Hkind).
  exists root'. rewrite <- (path_split d Hd) in Hkind. split_and!; [|done..].
  unfold MakeDirectory_execute, exists_, mkdir, os_update.
  rewrite (bind_ok _ _ w w false).
  2: { unfold gets. f_equal. f_equal. apply not_true_is_false.
       rewrite fs_exists_kind. by intros []. }
  rewrite (bind_ok _ _ w w (fs w)) by done. by rewrite Hup.
Qed.

Lemma Remove_execute_ok t w :
  well_formed (fs w) → t ≠ [] → kind (fs w) t = Some false →
  ∃ root', Remove_execute t w = (Ok tt, set_fs root' w) ∧ well_formed root' ∧
           ∀ p, kind root' p = if decide (p = t) then None else kind (fs w) p.
Proof.
  intros Hwf Ht Hfile.
  assert (∃ es fd, fs_lookup (fs w) (parent t) = Some (Dir es) ∧
                   find_entry (name t) es = Some (File fd)) as (es & fd & Hes & Hnm).
  { apply kind_file_lookup in Hfile as [fd Hfd].
    rewrite (path_split t Ht), fs_lookup_app in Hfd.
    destruct (fs_lookup (fs w) (parent t)) as [[fd'|es]|]; simpl in Hfd; try done.
    exists es, fd. split; [done|]. by destruct (find_entry (name t) es) as [n|]. }
  destruct (fs_delete_file (fs w) (parent t) (name t) es fd Hwf Hes Hnm)
    as (root' & Hup & Hwf' & Hkind).
  exists root'. rewrite <- (path_split t Ht) in Hkind. split_and!; [|done..].
  unfold Remove_execute, exists_, is_dir, unlink, os_update.
  rewrite (bind_ok _ _ w w true).
  2: { unfold gets. f_equal. f_equal. apply fs_exists_kind. by rewrite Hfile. }
  simpl. rewrite (bind_ok _ _ w w false).
  2: { unfold gets. f_equal. f_equal. apply not_true_is_false.
       rewrite fs_is_dir_kind. by rewrite Hfile. }
  rewrite (bind_ok _ _ w w (fs w)) by done. by rewrite Hup.
Qed.

Lemma Move_execute_ok src dst w :
  well_formed (fs w) → src ≠ [] → dst ≠ [] →
  kind (fs w) src = Some false → kind (fs w) dst = None →
  kind (fs w) (parent dst) = Some true →
  ∃ root', Move_execute src dst w = (Ok tt, set_fs root' w) ∧ well_formed root' ∧
           ∀ p, kind root' p =
                  if decide (p = dst) then Some false
                  else if decide (p = src) then None else kind (fs w) p.
Proof.
  intros Hwf Hsrc Hdst Hfile Hnone Hparent.
  assert (∃ es fd, fs_lookup (fs w) (parent src) = Some (Dir es) ∧
                   find_entry (name src) es = Some (File fd) ∧
                   fs_lookup (fs w) src = Some (File fd)) as (es & fd & Hes & Hnm & Hfd).
  { apply kind_file_lookup in Hfile as [fd Hfd]. pose proof Hfd as Hfd'.
    rewrite (path_split src Hsrc), fs_lookup_app in Hfd.
    destruct (fs_lookup (fs w) (parent src)) as [[fd'|es]|]; simpl in Hfd; try done.
    exists es, fd. split_and!; [done| |done]. by destruct (find_entry (name src) es) as [n|]. }
  destruct (fs_delete_file (fs w) (parent src) (name src) es fd Hwf Hes Hnm)
    as (root1 & Hup1 & Hwf1 & Hkind1).
  rewrite <- (path_split src Hsrc) in Hkind1.
  assert (parent dst ≠ src) as Hne by (intros <-; congruence).
  assert (dst ≠ src) as Hne' by (intros <-; congruence).
  assert (kind root1 (parent dst) = Some true) as [es1 Hes1]%kind_dir_lookup.
  { by rewrite Hkind1, decide_False. }
  assert (find_entry (name dst) es1 = None) as Hnm1.
  { pose proof (Hkind1 dst) as Hk. rewrite decide_False, Hnone in Hk by done.
    rewrite (path_split dst Hdst), (kind_child _ _ _ _ Hes1) in Hk.
    destruct (find_entry (name dst) es1) as [n|]; [|done]. by rewrite kind_nil in Hk. }
  destruct (fs_add_leaf root1 (parent dst) (name dst) (File fd) es1 Hwf1 Hes1 Hnm1
              (or_intror (ex_intro _ fd eq_refl))) as (root2 & Hup2 & Hwf2 & Hkind2).
  rewrite <- (path_split dst Hdst) in Hkind2.
  exists root2. split_and!; [|done|].
  - unfold Move_execute, exists_, rename.
    rewrite (bind_ok _ _ w w true).
    2: { unfold gets. f_equal. f_equal. apply fs_exists_kind. by rewrite Hfile. }
    simpl. rewrite (bind_ok _ _ w w false).
    2: { unfold gets. f_equal. f_equal. apply not_true_is_false.
         rewrite fs_exists_kind. by intros []. }
    rewrite (bind_ok _ _ w w (Some (File fd))) by (unfold gets; by rewrite Hfd).
    rewrite (bind_ok _ _ w w (fs w)) by done. by rewrite Hup1, Hup2.
  - intros p. rewrite Hkind2, Hkind1. by destruct (decide (p = dst)).
Qed.

End Execution.

Section Faithful.
Context {PF : Platform} (target : Path).
Implicit Types (w : World) (s : Simulacrum) (p : Path).

Lemma below_not_nil p : below target p → p ≠ [].
Proof. intros (rest & Hrest & ->) Hnil. by apply app_eq_nil in Hnil as [_ ->]. Qed.

Lemma kind_None_not_exists (root : Node) p : kind root p = None ↔ fs_exists root p = false.
Proof. unfold fs_exists, kind. by destruct (fs_lookup root p) as [[fd|es]|]. Qed.

Lemma models_elem_of s (root : Node) p :
  models target s root → below target p → (p ∈ s ↔ kind root p ≠ None).
Proof. intros [_ Hs] Hp. rewrite Hs, fs_exists_kind. tauto. Qed.

Lemma kind_not_dir (root : Node) p :
  kind root p ≠ None → fs_is_dir root p = false → kind root p = Some false.
Proof.
  intros Hsome Hdir. destruct (kind root p) as [[|]|] eqn:Hk; [|done..].
  apply fs_is_dir_kind in Hk. congruence.
Qed.

(** One command that the simulation has followed: its execution succeeds,
    changes the kind of the paths of the command only, and the simulacrum
    still lists what is there. *)
Lemma execute_step (cmd : Command) s s' w :
  well_formed (fs w) → models target s (fs w) → feasible target (fs w) cmd →
  simulate cmd s = (Ok tt, s') →
  ∃ root',
    execute cmd w = (Ok tt, set_fs root' (set_trace (trace w ++ [EvExecute cmd]) w)) ∧
    well_formed root' ∧ models target s' root' ∧
    match cmd with
    | MakeDirectory d =>
        kind (fs w) d = None ∧
        ∀ p, kind root' p = if decide (p = d) then Some true else kind (fs w) p
    | Remove t =>
        kind (fs w) t = Some false ∧
        ∀ p, kind root' p = if decide (p = t) then None else kind (fs w) p
    | Move src dst =>
        kind (fs w) src = Some false ∧ kind (fs w) dst = None ∧
        ∀ p, kind root' p = if decide (p = dst) then Some false
                            else if decide (p = src) then None else kind (fs w) p
    end.
Proof.
  intros Hwf Hmodels Hfeasible Hsim. rewrite execute_eq.
  set (w1 := set_trace (trace w ++ [EvExecute cmd]) w).
  destruct Hmodels as [Hnd Hs]. pose proof (conj Hnd Hs : models target s (fs w)) as Hmodels.
  destruct cmd as [d|src dst|t]; simpl in Hfeasible.
  - destruct Hfeasible as [Hd Hparent%fs_is_dir_kind].
    rewrite MakeDirectory_simulate_eq in Hsim.
    case_bool_decide as Hin; [done|]. injection Hsim as <-.
    assert (kind (fs w) d = None) as Hnone.
    { rewrite (models_elem_of s (fs w) d Hmodels Hd) in Hin.
      destruct (kind (fs w) d); [exfalso; by apply Hin|done]. }
    destruct (MakeDirectory_execute_ok d w1 Hwf (below_not_nil d Hd) Hnone Hparent)
      as (root' & Hex & Hwf' & Hkind).
    exists root'. split_and!; [done|done| |done|done].
    split; [by apply NoDup_snoc|]. intros p.
    rewrite elem_of_app, list_elem_of_singleton, Hs, !fs_exists_kind, Hkind.
    destruct (decide (p = d)) as [->|?]; [|tauto]. split; [done|]. by right.
  - destruct Hfeasible as (Hsrc & Hdst & Hnotdir & Hparent%fs_is_dir_kind).
    rewrite Move_simulate_eq in Hsim.
    case_bool_decide as Hin; [|done]. case_bool_decide as Hout; [done|].
    injection Hsim as <-.
    assert (kind (fs w) src = Some false) as Hfile.
    { apply kind_not_dir; [|done]. by apply (models_elem_of s (fs w) src Hmodels Hsrc). }
    assert (kind (fs w) dst = None) as Hnone.
    { rewrite (models_elem_of s (fs w) dst Hmodels Hdst) in Hout.
      destruct (kind (fs w) dst); [exfalso; by apply Hout|done]. }
    destruct (Move_execute_ok src dst w1 Hwf (below_not_nil src Hsrc) (below_not_nil dst Hdst)
                Hfile Hnone Hparent) as (root' & Hex & Hwf' & Hkind).
    exists root'. split_and!; [done|done| |done|done|done].
    assert (NoDup (s ++ [dst])) as Hnd' by (by apply NoDup_snoc).
    split; [by apply remove_first_NoDup|]. intros p.
    rewrite (remove_first_elem_of _ _ _ Hnd').
    rewrite elem_of_app, list_elem_of_singleton, Hs, !fs_exists_kind, Hkind.
    destruct (decide (p = dst)) as [->|?].
    + split; [done|]. intros _. split; [by right|]. intros <-. congruence.
    + destruct (decide (p = src)) as [->|?]; tauto.
  - destruct Hfeasible as [Ht Hnotdir].
    rewrite Remove_simulate_eq in Hsim.
    case_bool_decide as Hin; [|done]. case_bool_decide; [done|]. injection Hsim as <-.
    assert (kind (fs w) t = Some false) as Hfile.
    { apply kind_not_dir; [|done]. by apply (models_elem_of s (fs w) t Hmodels Ht). }
    destruct (Remove_execute_ok t w1 Hwf (below_not_nil t Ht) Hfile)
      as (root' & Hex & Hwf' & Hkind).
    exists root'. split_and!; [done|done| |done|done].
    split; [by apply remove_first_NoDup|]. intros p.
    rewrite (remove_first_elem_of _ _ _ Hnd), Hs, !fs_exists_kind, Hkind.
    destruct (decide (p = t)) as [->|?]; tauto.
Qed.

End Faithful.

Section Plan.
Context {PF : Platform} (self : Organizer).
Implicit Types (w : World) (s : Simulacrum) (p : Path).

Lemma parent_joinpath (dir : Path) (nm : string) : parent (joinpath dir nm) = dir.
Proof. unfold parent, joinpath. apply removelast_last. Qed.

Lemma below_month (month : date) : below (o_path self) (month_directory self month).
Proof. by exists [strftime_Ym month]. Qed.

Lemma below_child (nm : string) : below (o_path self) (joinpath (o_path self) nm).
Proof. by exists [nm]. Qed.

Lemma below_month_child (month : date) (nm : string) :
  below (o_path self) (joinpath (month_directory self month) nm).
Proof.
  exists [strftime_Ym month; nm]. split; [done|].
  unfold month_directory, joinpath. by rewrite <- app_assoc.
Qed.

Lemma executed_step (cmd : Command) (root' : Node) w :
  executed (set_fs root' (set_trace (trace w ++ [EvExecute cmd]) w)) = executed w ++ [cmd].
Proof. unfold executed. simpl. by rewrite omap_app. Qed.

(** The directories of the plan: the simulation has followed them, so that
    none of them was there, and now they are. *)
Lemma execute_mkdirs (mkdirs : list Command) s s1 w :
  Forall (λ cmd, ∃ month, cmd = MakeDirectory (month_directory self month)) mkdirs →
  well_formed (fs w) → models (o_path self) s (fs w) →
  kind (fs w) (o_path self) = Some true →
  simulate_all mkdirs s = (Ok tt, s1) →
  ∃ w1, forM_ mkdirs execute w = (Ok tt, w1) ∧
        well_formed (fs w1) ∧ models (o_path self) s1 (fs w1) ∧
        (∀ p, kind (fs w1) p = Some true ↔
              kind (fs w) p = Some true ∨ MakeDirectory p ∈ mkdirs) ∧
        (∀ p, kind (fs w) p = Some false → kind (fs w1) p = Some false) ∧
        (∀ d, MakeDirectory d ∈ mkdirs → kind (fs w) d = None) ∧
        executed w1 = executed w ++ mkdirs ∧ commands w1 = commands w.
Proof.
  intros Hall. revert s w. induction Hall as [|cmd mkdirs [month ->] _ IH];
    intros s w Hwf Hmodels Htarget Hsim.
  { injection Hsim as <-. exists w. rewrite app_nil_r. split_and!; try done.
    - intros p. split; [by left|]. by intros [?|?%elem_of_nil].
    - by intros d ?%elem_of_nil. }
  unfold simulate_all in Hsim. rewrite forM__cons in Hsim.
  destruct (simulate (MakeDirectory (month_directory self month)) s) as [[[]|e] s'] eqn:Hstep;
    [|done].
  destruct (execute_step (o_path self) (MakeDirectory (month_directory self month))
              s s' w Hwf Hmodels) as
    (root' & Hex & Hwf' & Hmodels' & Hnone & Hkind); [|done|].
  { split; [apply below_month|]. apply fs_is_dir_kind.
    unfold month_directory. by rewrite parent_joinpath. }
  set (w' := set_fs root' _) in Hex.
  destruct (IH s' w' Hwf' Hmodels') as
    (w1 & Hrest & Hwf1 & Hmodels1 & Hdirs & Hfiles & Hfresh & Hexecuted & Hcommands);
    [|done|].
  { simpl. rewrite Hkind. by destruct (decide _). }
  exists w1. rewrite forM__cons, Hex. split_and!; try done.
  - intros p. rewrite Hdirs. simpl. rewrite Hkind, elem_of_cons.
    destruct (decide (p = month_directory self month)) as [->|Hne].
    + split; [intros _; right; by left|by left].
    + split; [intros [?|?]; [by left|right; by right]|].
      intros [?|[[= ?]|?]]; [by left|done|by right].
  - intros p Hp. apply Hfiles. simpl. rewrite Hkind.
    destruct (decide (p = month_directory self month)) as [->|Hne]; [congruence|done].
  - intros d [[= ->]|Hd]%elem_of_cons; [done|].
    specialize (Hfresh d Hd). simpl in Hfresh. rewrite Hkind in Hfresh.
    by destruct (decide (d = month_directory self month)).
  - rewrite Hexecuted. unfold w'. rewrite executed_step, <- app_assoc. done.
Qed.

(** The removals and the moves of the plan, among directories [D] that
    stay what they are. *)
Lemma execute_files (D : Path → Prop) (cmds : list Command) s s' w :
  Forall (λ cmd, match cmd with
                 | MakeDirectory _ => False
                 | Remove t => below (o_path self) t ∧ ¬ D t
                 | Move src dst =>
                     below (o_path self) src ∧ below (o_path self) dst ∧
                     ¬ D src ∧ D (parent dst)
                 end) cmds →
  well_formed (fs w) → models (o_path self) s (fs w) →
  (∀ p, kind (fs w) p = Some true ↔ D p) →
  simulate_all cmds s = (Ok tt, s') →
  ∃ w', forM_ cmds execute w = (Ok tt, w') ∧
        well_formed (fs w') ∧ models (o_path self) s' (fs w') ∧
        executed w' = executed w ++ cmds ∧ commands w' = commands w.
Proof.
  intros Hall. revert s w. induction Hall as [|cmd cmds Hcmd _ IH];
    intros s w Hwf Hmodels HD Hsim.
  { injection Hsim as <-. exists w. by rewrite app_nil_r. }
  unfold simulate_all in Hsim. rewrite forM__cons in Hsim.
  destruct (simulate cmd s) as [[[]|e] s1] eqn:Hstep; [|done].
  assert (∀ p, ¬ D p → fs_is_dir (fs w) p = false) as Hnotdir.
  { intros p Hp. apply not_true_is_false. rewrite fs_is_dir_kind, HD. done. }
  destruct (execute_step (o_path self) cmd s s1 w Hwf Hmodels) as
    (root' & Hex & Hwf' & Hmodels' & Hkind); [|done|].
  { destruct cmd as [d|src dst|t]; simpl; [done| |].
    - destruct Hcmd as (? & ? & ? & ?). split_and!; [done..|by apply Hnotdir|].
      by apply fs_is_dir_kind, HD.
    - destruct Hcmd as [? ?]. split; [done|by apply Hnotdir]. }
  set (w' := set_fs root' _) in Hex.
  destruct (IH s1 w' Hwf' Hmodels') as (w2 & Hrest & Hwf2 & Hmodels2 & Hexecuted & Hcommands);
    [|done|].
  { intros p. rewrite <- HD. simpl. destruct cmd as [d|src dst|t]; [done| |].
    - destruct Hkind as (Hsrc & Hdst & ->).
      destruct (decide (p = dst)) as [->|?]; [by rewrite Hdst|].
      destruct (decide (p = src)) as [->|?]; [by rewrite Hsrc|done].
    - destruct Hkind as (Ht & ->).
      destruct (decide (p = t)) as [->|?]; [by rewrite Ht|done]. }
  exists w2. rewrite forM__cons, Hex. split_and!; try done.
  rewrite Hexecuted. unfold w'. rewrite executed_step, <- app_assoc. done.
Qed.

End Plan.

Section PhasedPlan.
Context {PF : Platform} (self : Organizer).

(** A plan in three phases that the simulation has followed to its end is
    executed to its end. *)
Lemma phased_plan_executes (mkdirs removes moves : list Command) (s s' : Simulacrum)
    (w : World) :
  well_formed (fs w) → models (o_path self) s (fs w) →
  kind (fs w) (o_path self) = Some true →
  Forall (makes_month self (fs w)) mkdirs →
  Forall (removes_loose self (fs w)) removes →
  Forall (moves_photo self (fs w) (month_ready self (fs w) mkdirs)) moves →
  simulate_all (mkdirs ++ removes ++ moves) s = (Ok tt, s') →
  ∃ w', forM_ (mkdirs ++ removes ++ moves) execute w = (Ok tt, w') ∧
        well_formed (fs w') ∧ models (o_path self) s' (fs w') ∧
        executed w' = executed w ++ mkdirs ++ removes ++ moves ∧
        commands w' = commands w.
Proof.
  intros Hwf Hmodels Htarget Hmk Hrm Hmv Hsim.
  unfold simulate_all in Hsim. rewrite forM__app in Hsim.
  destruct (forM_ mkdirs simulate s) as [[[]|e] s1] eqn:Hsim1; [|done].
  destruct (execute_mkdirs self mkdirs s s1 w) as
    (w1 & Hex1 & Hwf1 & Hmodels1 & Hdirs & Hfiles & Hfresh & Hexecuted1 & Hcommands1);
    [|done|done|done|exact Hsim1|].
  { eapply Forall_impl; [done|]. intros cmd (month & -> & _). by eexists. }
  assert (∀ p, fs_is_file (fs w) p = true →
               ¬ (kind (fs w) p = Some true ∨ MakeDirectory p ∈ mkdirs)) as Hfile.
  { intros p Hp%fs_is_file_kind [?|Hin]; [congruence|].
    apply Hfresh in Hin. congruence. }
  destruct (execute_files self (λ p, kind (fs w) p = Some true ∨ MakeDirectory p ∈ mkdirs)
              (removes ++ moves) s1 s' w1) as
    (w2 & Hex2 & Hwf2 & Hmodels2 & Hexecuted2 & Hcommands2);
    [|done|done|done|exact Hsim|].
  { apply Forall_app. split.
    - eapply Forall_impl; [done|]. intros cmd (t & -> & (nm & ->) & Ht & _).
      split; [apply below_child|by apply Hfile].
    - eapply Forall_impl; [done|].
      intros cmd (src & month & nm & -> & _ & Hsrc & Hready).
      rewrite parent_joinpath. split_and!.
      + destruct Hsrc as [((nm' & ->) & _)|((nm' & ->) & _)];
          [apply below_child|apply below_month_child].
      + apply below_month_child.
      + destruct Hsrc as [(_ & Hsrc & _)|(_ & Hsrc & _)]; by apply Hfile.
      + destruct Hready as [Hdir%fs_is_dir_kind|?]; [by left|by right]. }
  exists w2. rewrite forM__app, Hex1. split_and!; [done..| |congruence].
  by rewrite Hexecuted2, Hexecuted1, <- app_assoc.
Qed.

(** The simulacrum of a directory, as [_create_simulacrum] builds it. *)
Lemma create_simulacrum_models (root : Node) (path : Path) (entries : list (string * Node)) :
  well_formed root → fs_lookup root path = Some (Dir entries) →
  models path (create_simulacrum_node path (Dir entries)) root.
Proof.
  intros Hwf Hdir. pose proof (well_formed_lookup _ _ _ Hwf Hdir) as Hwfd.
  split; [by apply create_simulacrum_node_NoDup|].
  intros q. rewrite create_simulacrum_node_lookup by done. unfold below, fs_exists. split.
  - intros (rest & Hne & -> & [n Hrest]). split; [by exists rest|].
    by rewrite fs_lookup_app, Hdir; simpl; rewrite Hrest.
  - intros [(rest & Hne & ->) Hrest]. exists rest. split_and!; [done..|].
    rewrite fs_lookup_app, Hdir in Hrest. simpl in Hrest.
    destruct (fs_lookup (Dir entries) rest); [by eexists|done].
Qed.

Lemma prepare_untouched (w : World) :
  fs (prepare self w).2 = fs w ∧ executed (prepare self w).2 = executed w.
Proof.
  apply (preserves_prepare (untouched (fs w) (executed w))
           (untouched_plan_invariant _ _) self w). by split.
Qed.

End PhasedPlan.

Section ExecutionInput.
Context {PF : Platform}.

(** Execution takes no line of the input. *)
Lemma preserves_execute_input (input : list string) (cmd : Command) :
  preserves (λ w, stdin w = input) (execute cmd).
Proof.
  assert (∀ dir f, preserves (λ w, stdin w = input) (os_update dir f)) as Hos.
  { intros dir f. unfold os_update. apply preserves_bind; [apply preserves_gets|].
    intros root. destruct (fs_update root dir f); [|apply preserves_raise].
    by apply preserves_modify. }
  unfold execute. apply preserves_bind; [by apply preserves_modify|]. intros _.
  destruct cmd as [d|src dst|t].
  - unfold MakeDirectory_execute, exists_, mkdir.
    apply preserves_bind; [apply preserves_gets|]. intros [|]; [apply preserves_raise|apply Hos].
  - unfold Move_execute, exists_, rename.
    apply preserves_bind; [apply preserves_gets|]. intros [|]; [|apply preserves_raise].
    apply preserves_bind; [apply preserves_gets|]. intros [|]; [apply preserves_raise|].
    apply preserves_bind; [apply preserves_gets|]. intros [n|]; [|apply preserves_raise].
    apply preserves_bind; [apply preserves_gets|]. intros root.
    destruct (fs_update root _ _) as [root'|]; [|apply preserves_raise].
    destruct (fs_update root' _ _) as [root''|]; [|apply preserves_raise].
    by apply preserves_modify.
  - unfold Remove_execute, exists_, is_dir, unlink.
    apply preserves_bind; [apply preserves_gets|]. intros [|]; [|apply preserves_raise].
    apply preserves_bind; [apply preserves_gets|]. intros [|]; [apply preserves_raise|apply Hos].
Qed.

Lemma Organizer_execute_input (self : Organizer) (w : World) :
  stdin (Organizer_execute self w).2 = stdin w.
Proof.
  apply (preserves_bind (λ w', stdin w' = stdin w)); [apply preserves_gets| |done].
  intros cmds. apply preserves_forM_. intros cmd. apply preserves_execute_input.
Qed.

End ExecutionInput.

(** ** The plan and its execution *)

(** X12. Whatever the state in which planning starts and however it ends,
    [prepare] only adds commands at the end of the plan, and every command
    it adds is safe for the file system it has read: a [MakeDirectory] of
    a month directory of the target where there is no directory of that
    name, a [Remove] of a photo that is a child of the target itself, never
    of one in a month directory, or a [Move] of such a photo or of a photo
    of a month directory into a month directory, under another path than
    the one it has, a photo of a month directory staying in its
    directory. *)
Theorem prepare_plans_safely `{PF : Platform} (self : Organizer) (w : World) :
  ∃ more, commands (prepare self w).2 = commands w ++ more ∧
          Forall (safe self (fs w)) more.
Proof.
  destruct (prepare_phases self w) as [(mkdirs & removes & moves & Hc & Hmk & Hrm & Hmv) _].
  exists (mkdirs ++ removes ++ moves). split; [done|].
  rewrite !Forall_app. split_and!; (eapply Forall_impl; [done|]).
  - intros cmd (month & -> & Hdir). by exists month.
  - by intros cmd (t & -> & Ht).
  - intros cmd (src & month & nm & -> & Hne & Hsrc & _). split; [done|]. by exists month, nm.
Qed.

(** X13. The commands [prepare] adds to the plan come in the order of its
    phases: the directories to make, then the removals, then the moves; and
    every move goes into a directory that is there when planning starts, or
    that a command earlier in the plan makes. *)
Theorem prepare_plan_order `{PF : Platform} (self : Organizer) (w : World) :
  ∃ more,
    commands (prepare self w).2 = commands w ++ more ∧
    (∀ (i j : nat) a b, (i < j)%nat → more !! i = Some a → more !! j = Some b →
                        (phase a ≤ phase b)%nat) ∧
    (∀ (j : nat) src dst, more !! j = Some (Move src dst) →
       fs_is_dir (fs w) (parent dst) = true ∨
       ∃ i : nat, (i < j)%nat ∧ more !! i = Some (MakeDirectory (parent dst))).
Proof.
  destruct (prepare_phases self w) as [(mkdirs & removes & moves & Hc & Hmk & Hrm & Hmv) _].
  exists (mkdirs ++ removes ++ moves). split; [done|].
  assert (∀ (i : nat) a, (mkdirs ++ removes ++ moves) !! i = Some a →
            (makes_month self (fs w) a ∧ (i < length mkdirs)%nat) ∨
            (removes_loose self (fs w) a ∧ (length mkdirs ≤ i)%nat) ∨
            (moves_photo self (fs w) (month_ready self (fs w) mkdirs) a ∧
             (length mkdirs ≤ i)%nat ∧ phase a = 2%nat)) as Hwhere.
  { intros i a [Hi|[Hlen [Hi|[_ Hi]]%lookup_app_Some]]%lookup_app_Some.
    - left. split; [by eapply Forall_lookup_1|by eapply lookup_lt_Some].
    - right. left. split; [by eapply Forall_lookup_1|done].
    - right. right. pose proof (Forall_lookup_1 _ _ _ _ Hmv Hi) as Ha.
      split; [done|]. split; [done|]. by destruct Ha as (? & ? & ? & -> & _). }
  assert (∀ a, makes_month self (fs w) a → phase a = 0%nat) as Hphase0.
  { by intros a (? & -> & _). }
  assert (∀ a, removes_loose self (fs w) a → phase a = 1%nat) as Hphase1.
  { by intros a (? & -> & _). }
  split.
  - intros i j a b Hij Ha Hb.
    assert (∀ (k : nat) c, (mkdirs ++ removes ++ moves) !! k = Some c →
              (phase c = 0 ∧ k < length mkdirs)%nat ∨
              (phase c = 1 ∧ length mkdirs ≤ k < length mkdirs + length removes)%nat ∨
              (phase c = 2 ∧ length mkdirs + length removes ≤ k)%nat) as Hrank.
    { intros k c [Hk|[Hlen [Hk|[Hlen' Hk]]%lookup_app_Some]]%lookup_app_Some.
      - left. split; [by eapply Hphase0, Forall_lookup_1|by eapply lookup_lt_Some].
      - right. left. split; [by eapply Hphase1, Forall_lookup_1|].
        apply lookup_lt_Some in Hk. lia.
      - right. right. pose proof (Forall_lookup_1 _ _ _ _ Hmv Hk) as (? & ? & ? & -> & _).
        split; [done|lia]. }
    destruct (Hrank i a Ha) as [[-> ?]|[[-> ?]|[-> ?]]];
      destruct (Hrank j b Hb) as [[-> ?]|[[-> ?]|[-> ?]]]; lia.
  - intros j src dst Hj.
    destruct (Hwhere j _ Hj) as [[(? & [=] & _) _]|[[(? & [=] & _) _]|(Hmove & Hlen & _)]].
    destruct Hmove as (src' & month & nm & [= -> ->] & _ & _ & Hready).
    rewrite parent_joinpath. destruct Hready as [?|Hin]; [by left|]. right.
    apply list_elem_of_lookup in Hin as [i Hi]. exists i. split.
    + apply lookup_lt_Some in Hi. lia.
    + by apply lookup_app_l_Some.
Qed.

(** X14. A command that the simulation follows without raising is executed
    without raising, and the simulacrum goes on listing what is there: on
    a tree whose directories hold each name once, with a simulacrum that
    lists what is inside the target, the execution of a feasible command
    whose simulation succeeds succeeds, leaves such a tree, and the
    simulacrum the simulation leaves lists what is inside the target
    afterwards. *)
Theorem simulate_success_predicts_execute (target : Path) (cmd : Command)
    (s s' : Simulacrum) (w : World) :
  well_formed (fs w) → models target s (fs w) → feasible target (fs w) cmd →
  simulate cmd s = (Ok tt, s') →
  ∃ w', execute cmd w = (Ok tt, w') ∧ well_formed (fs w') ∧ models target s' (fs w').
Proof.
  intros Hwf Hmodels Hfeasible Hsim.
  destruct (execute_step target cmd s s' w Hwf Hmodels Hfeasible Hsim)
    as (root' & Hex & Hwf' & Hmodels' & _).
  eexists. split; [exact Hex|]. done.
Qed.

Lemma simulate_success_predicts_execute_witness :
  let w := initial_world Demo.root_listing [] in
  let cmd := Move ["photos"; "b.jpg"] ["photos"; "c.jpg"] in
  let s : Simulacrum := [["photos"; "b.jpg"]; ["photos"; "a.jpg"]] in
  well_formed (fs w) ∧ models ["photos"] s (fs w) ∧ feasible ["photos"] (fs w) cmd ∧
  ∃ w',
    execute cmd w = (Ok tt, w') ∧
    models ["photos"] [["photos"; "a.jpg"]; ["photos"; "c.jpg"]] (fs w').
Proof.
  cbv zeta.
  assert (well_formed (fs (initial_world Demo.root_listing []))) as Hwf.
  { simpl. repeat split; apply (bool_decide_unpack _); by vm_compute. }
  assert (models ["photos"] [["photos"; "b.jpg"]; ["photos"; "a.jpg"]]
            (fs (initial_world Demo.root_listing []))) as Hmodels.
  { apply (create_simulacrum_models Demo.root_listing ["photos"] _ Hwf eq_refl). }
  assert (feasible ["photos"] (fs (initial_world Demo.root_listing []))
            (Move ["photos"; "b.jpg"] ["photos"; "c.jpg"])) as Hfeasible.
  { split_and!; [by exists ["b.jpg"]|by exists ["c.jpg"]|done..]. }
  split; [exact Hwf|]. split; [exact Hmodels|]. split; [exact Hfeasible|].
  destruct (simulate_success_predicts_execute ["photos"] _ _ _ _
              Hwf Hmodels Hfeasible eq_refl) as (w' & Hex & _ & Hmodels').
  exists w'. split; [exact Hex|exact Hmodels'].
Defined.

(** X15. A run on a tree whose directories hold each name once, started
    with an empty plan, executes all of its plan or nothing of it: either
    no command has been executed and the file system is as it was, or the
    run has returned normally and the commands executed are the commands of
    the plan, in their order.  A plan that has passed the simulation does
    not fail in the middle. *)
Theorem run_all_or_nothing `{PF : Platform} (self : Organizer) (w : World) :
  well_formed (fs w) → commands w = [] →
  (executed (run self false w).2 = executed w ∧ fs (run self false w).2 = fs w) ∨
  ((run self false w).1 = Ok tt ∧
   executed (run self false w).2 = executed w ++ commands (run self false w).2).
Proof.
  intros Hwf Hempty. rewrite run_eq.
  destruct (prepare_untouched self w) as [Hfs Hexecuted].
  destruct (prepare_phases self w) as [(mkdirs & removes & moves & Hc & Hmk & Hrm & Hmv) _].
  rewrite Hempty in Hc. simpl in Hc.
  destruct (prepare self w) as [[[]|e] w1]; simpl in *; [|by left].
  destruct (length (commands w1) =? 0)%nat; [by left|].
  rewrite Organizer_simulate_eq.
  destruct (fs_lookup (fs w1) (o_path self)) as [[fd|entries]|] eqn:Htarget; [by left| |by left].
  destruct (simulate_all (commands w1) (create_simulacrum_node (o_path self) (Dir entries)))
    as [[[]|e] s'] eqn:Hsim; simpl; [|by left].
  right. rewrite Hfs in Htarget.
  rewrite <- Hfs in Hwf, Htarget, Hmk, Hrm, Hmv. rewrite Hc in Hsim.
  destruct (phased_plan_executes self mkdirs removes moves _ s' w1 Hwf
              (create_simulacrum_models _ _ _ Hwf Htarget)) as
    (w2 & Hex & _ & _ & Hexecuted2 & Hcommands2); [|done..|].
  { unfold kind. by rewrite Htarget. }
  unfold Organizer_execute. rewrite (bind_ok _ _ w1 w1 (commands w1)) by done.
  rewrite Hc, Hex. simpl. by rewrite Hexecuted2, Hcommands2, Hexecuted, Hc.
Qed.

Lemma run_all_or_nothing_witness :
  let w := initial_world (Demo.root_burst "2023:05:01 10:00:00" "2023:05:01 10:00:01") [] in
  let result := run (PF:=Demo.platform) (Demo.organizer None) false w in
  well_formed (fs w) ∧
  result.1 = Ok tt ∧
  executed result.2 =
    [MakeDirectory ["photos"; "2023-05"];
     Move ["photos"; "a.jpg"] ["photos"; "2023-05"; "2023-05-01 10:00:00 001.jpg"];
     Move ["photos"; "b.jpg"] ["photos"; "2023-05"; "2023-05-01 10:00:00 002.jpg"];
     Move ["photos"; "c.jpg"] ["photos"; "2023-05"; "2023-05-01 10:00:00 003.jpg"];
     Move ["photos"; "d.jpg"] ["photos"; "2023-05"; "2023-05-01 10:00:01 001.jpg"]].
Proof.
  cbv zeta.
  assert (well_formed (fs (initial_world
            (Demo.root_burst "2023:05:01 10:00:00" "2023:05:01 10:00:01") []))) as Hwf.
  { simpl. repeat split; apply (bool_decide_unpack _); by vm_compute. }
  split; [exact Hwf|].
  destruct (run_all_or_nothing (PF:=Demo.platform) (Demo.organizer None)
              (initial_world (Demo.root_burst "2023:05:01 10:00:00" "2023:05:01 10:00:01") [])
              Hwf eq_refl) as [[Hnothing _]|[Hok Hall]].
  - exfalso. vm_compute in Hnothing. discriminate Hnothing.
  - split; [exact Hok|]. rewrite Hall. by vm_compute.
Defined.

(** X16. With an assumed answer, k or a, a run is not interactive: however
    it ends, whether it only simulates or not, it has taken no line of the
    input. *)
Theorem run_non_interactive `{PF : Platform} (self : Organizer) (simulate_only : bool)
    (w : World) :
  answer_in (assume (prompter self)) ["k"; "a"] = true →
  stdin (run self simulate_only w).2 = stdin w.
Proof.
  intros Hassume. rewrite run_eq.
  destruct (prepare_phases self w) as [_ Hin]. specialize (Hin Hassume).
  destruct (prepare self w) as [[[]|e] w1]; simpl in *; [|done].
  destruct (length (commands w1) =? 0)%nat; [done|].
  destruct (Organizer_simulate self w1) as [[[]|e] w1']; simpl; [|done].
  destruct simulate_only; [done|]. by rewrite Organizer_execute_input.
Qed.

Lemma run_non_interactive_witness :
  let self := Demo.organizer (Some "K") in
  let w := initial_world Demo.root_listing ["d"; "a"] in
  answer_in (assume (prompter self)) ["k"; "a"] = true ∧
  (run (PF:=Demo.platform) self false w).1 = Ok tt ∧
  stdin (run (PF:=Demo.platform) self false w).2 = ["d"; "a"].
Proof.
  cbv zeta. split; [reflexivity|]. split; [by vm_compute|].
  apply (run_non_interactive (PF:=Demo.platform) (Demo.organizer (Some "K")) false
           (initial_world Demo.root_listing ["d"; "a"])).
  reflexivity.
Defined.
